(** * Dream Builder runtime (src/app.js): scene instantiation and override
      resolution, embedded in Rocq.

    - Strings are sequences of code units below 256 ([string] of [ascii]).
    - JavaScript numbers are binary64 floats ([float]); integer positions and
      counters are [Z] and [nat].
    - Objects whose properties may be missing carry [option] fields.
    - The runtime is sequential (every asynchronous call is awaited before
      the next statement), so it is modelled by passing the scene from one
      statement to the next.
    - The engine (the BABYLON library) is not part of the program: its asset
      loader, texture constructor, vector length and handle allocation are
      variables of the sections that call them.  Its camera constructors add
      the camera to the scene and make it the active one when the scene has
      none ([Scene.addCamera]).
    - [Scene.trace] is ghost state: it records, in execution order, which
      lookup or stamping statement ran.  Nothing reads it. *)

From Stdlib Require Import ZArith Ascii String List Bool Lia.
From Stdlib Require Import Floats.PrimFloat.
From stdpp Require Import base option list gmap strings pretty.

Local Open Scope string_scope.
Local Open Scope Z_scope.

(* ===================================================================== *)
(** * Definitions                                                          *)
(* ===================================================================== *)

(** ** The JavaScript string and array primitives the runtime calls *)

Module Js.

(** [s.startsWith(m)] *)
Fixpoint startsWith (s m : string) {struct m} : bool :=
  match m, s with
  | EmptyString, _ => true
  | String _ _, EmptyString => false
  | String c m', String d s' => if Ascii.eqb c d then startsWith s' m' else false
  end.

(** Position of the first occurrence of [m] in [s], if any. *)
Fixpoint firstIndex (s m : string) : option nat :=
  if startsWith s m then Some 0%nat
  else match s with
       | EmptyString => None
       | String _ s' => S <$> firstIndex s' m
       end.

(** Position of the last occurrence of [m] in [s], if any. *)
Fixpoint lastIndex (s m : string) : option nat :=
  match s with
  | EmptyString => if startsWith s m then Some 0%nat else None
  | String _ s' =>
      match lastIndex s' m with
      | Some i => Some (S i)
      | None => if startsWith s m then Some 0%nat else None
      end
  end.

Definition orMinusOne (o : option nat) : Z :=
  match o with Some i => Z.of_nat i | None => -1 end.

(** [s.indexOf(m)]: -1 when [m] does not occur. *)
Definition indexOf (s m : string) : Z := orMinusOne (firstIndex s m).

(** [s.lastIndexOf(m)] *)
Definition lastIndexOf (s m : string) : Z := orMinusOne (lastIndex s m).

(** [s.includes(m)] *)
Definition includes (s m : string) : bool := bool_decide (is_Some (firstIndex s m)).

Fixpoint dropChars (n : nat) (s : string) : string :=
  match n, s with
  | O, _ => s
  | S _, EmptyString => EmptyString
  | S n', String _ s' => dropChars n' s'
  end.

Fixpoint takeChars (n : nat) (s : string) : string :=
  match n, s with
  | O, _ => EmptyString
  | S _, EmptyString => EmptyString
  | S n', String c s' => String c (takeChars n' s')
  end.

(** [s.substring(start)] and [s.slice(start)] for an integer [start >= 0]
    (a negative [start] is clamped to 0 by [substring]; the runtime only
    calls [slice] with non-negative positions). *)
Definition substring (s : string) (start : Z) : string := dropChars (Z.to_nat start) s.

(** [s.substring(0, stop)] *)
Definition substringTo (s : string) (stop : Z) : string := takeChars (Z.to_nat stop) s.

(** [s.endsWith(m)] *)
Definition endsWith (s m : string) : bool :=
  bool_decide (dropChars (String.length s - String.length m) s = m).

(** [s.split(sep)] for a one-character separator: never the empty array. *)
Fixpoint split (s : string) (sep : ascii) : list string :=
  match s with
  | EmptyString => [EmptyString]
  | String c s' =>
      if Ascii.eqb c sep then EmptyString :: split s' sep
      else match split s' sep with
           | h :: t => String c h :: t
           | [] => [String c EmptyString]
           end
  end.

(** [parts.join(sep)] *)
Fixpoint join (parts : list string) (sep : string) : string :=
  match parts with
  | [] => EmptyString
  | p :: rest =>
      match rest with
      | [] => p
      | _ :: _ => p +:+ sep +:+ join rest sep
      end
  end.

Fixpoint arrayFirstIndex (l : list string) (x : string) : option nat :=
  match l with
  | [] => None
  | y :: l' => if String.eqb y x then Some 0%nat else S <$> arrayFirstIndex l' x
  end.

(** [parts.indexOf(x)] *)
Definition arrayIndexOf (l : list string) (x : string) : Z :=
  orMinusOne (arrayFirstIndex l x).

(** [parts.slice(start)] for [start >= 0] *)
Definition arraySlice (l : list string) (start : Z) : list string :=
  drop (Z.to_nat start) l.

(** [parts[parts.length - 1]] and [parts.pop()], read through [|| ''] or a
    truthiness test: a missing element and the empty string behave alike. *)
Definition lastOrEmpty (l : list string) : string := List.last l EmptyString.

(** [parts[0]] of a [split] result. *)
Definition firstOrEmpty (l : list string) : string := List.hd EmptyString l.

(** Truthiness of a string: non-empty. *)
Definition truthyStr (s : string) : bool := negb (String.eqb s EmptyString).

(** [c.toLowerCase()] on one code unit below 256: A-Z and the Latin-1
    capitals U+00C0..U+00DE (U+00D7 apart) move up by 32. *)
Definition lowerChar (c : ascii) : ascii :=
  let n := N_of_ascii c in
  if ((65 <=? n) && (n <=? 90) || (192 <=? n) && (n <=? 222) && negb (n =? 215))%N
  then ascii_of_N (n + 32) else c.

Fixpoint mapChars (f : ascii -> ascii) (s : string) : string :=
  match s with
  | EmptyString => EmptyString
  | String c s' => String (f c) (mapChars f s')
  end.

(** [s.toLowerCase()] *)
Definition toLowerCase (s : string) : string := mapChars lowerChar s.

Fixpoint allChars (f : ascii -> bool) (s : string) : bool :=
  match s with
  | EmptyString => true
  | String c s' => f c && allChars f s'
  end.

End Js.

(** ** Path normalizer: [toRelativeAssetPath] (app.js 901-921) *)

Module PathNormalizer.
Import Js.

Definition assetsMarker : string := "/assets/".

(** Rule 2's [after]: the join of the segments from two positions after the
    first [projects] segment when at least two segments follow it, and the
    empty string (which the caller's [if (after)] skips) otherwise. *)
Definition afterProjects (parts : list string) : string :=
  let projIdx := arrayIndexOf parts "projects" in
  if (0 <=? projIdx) && (projIdx + 2 <? Z.of_nat (length parts))
  then join (arraySlice parts (projIdx + 2)) "/"
  else EmptyString.

Definition toRelativeAssetPath (storagePath : string) : string :=
  let pathStr := storagePath in
  (* 1) If contains '/assets/', keep everything after it *)
  let idx := indexOf pathStr assetsMarker in
  if 0 <=? idx then substring pathStr (idx + Z.of_nat (String.length assetsMarker))
  else
    (* 2) If looks like '<uid>/projects/<projectId>/...' *)
    let parts := split pathStr "/" in
    let after := afterProjects parts in
    if truthyStr after then after
    else
      (* 3) Fallback to filename *)
      let filename := lastOrEmpty parts in
      if truthyStr filename then filename
      else
        (* 4) Ultimate fallback: sanitize path without regex *)
        join (split (join (split pathStr "/") "_") "\") "_".

(** The spec's reading of rule 1, for comparison with the code: everything
    after the LAST occurrence of the marker. *)
Definition afterLastMarker (pathStr : string) : string :=
  substring pathStr (lastIndexOf pathStr assetsMarker + Z.of_nat (String.length assetsMarker)).

(** The spec's reading of rule 4: every "/" and "\" replaced by "_". *)
Definition replaceSlashes (pathStr : string) : string :=
  mapChars (fun c => if Ascii.eqb c "/" || Ascii.eqb c "\" then "_"%char else c) pathStr.

End PathNormalizer.

(** ** JSON values read from scene.json: null, booleans, numbers, strings
       and arrays (vectors and colours) *)

Module Json.

#[local] Set Warnings "-register-all".

Inductive Json :=
  | JNull
  | JBool (b : bool)
  | JNum (x : float)
  | JStr (s : string)
  | JArr (xs : list Json).

(** Truthiness of a number: neither zero (of either sign) nor NaN. *)
Definition truthyNum (x : float) : bool :=
  negb (PrimFloat.eqb x 0%float) && PrimFloat.eqb x x.

(** Truthiness of a JSON value; a missing property ([undefined]) is [None]. *)
Definition truthy (v : option Json) : bool :=
  match v with
  | None | Some JNull => false
  | Some (JBool b) => b
  | Some (JNum x) => truthyNum x
  | Some (JStr s) => Js.truthyStr s
  | Some (JArr _) => true
  end.

End Json.

(** ** Override merge engine: [isTextureProperty], [getFilenameFromUrl],
       [loadTextureFromAssetPath], [applyMaterialOverrides] *)

Module Overrides.
Import Js PathNormalizer Json.

Definition textureProps : list string :=
  [ "albedoTexture"; "baseTexture"; "diffuseTexture";
    "metallicTexture"; "roughnessTexture"; "metallicRoughnessTexture";
    "reflectionTexture"; "refractionTexture";
    "normalTexture"; "bumpTexture";
    "emissiveTexture";
    "opacityTexture";
    "ambientTexture";
    "lightmapTexture";
    "clearCoatTexture"; "clearCoatNormalTexture"; "clearCoatRoughnessTexture";
    "sheenTexture"; "sheenRoughnessTexture" ].

Definition isTextureProperty (prop : string) : bool :=
  bool_decide (prop ∈ textureProps).

(** The class [[a-f0-9-]] under the [i] flag. *)
Definition isUuidChar (c : ascii) : bool :=
  let n := N_of_ascii c in
  ((97 <=? n) && (n <=? 102) || (65 <=? n) && (n <=? 70) ||
   (48 <=? n) && (n <=? 57) || (n =? 45))%N.

(** What [.] refuses: a line terminator (LF, CR below 256). *)
Definition isLineTerminator (c : ascii) : bool :=
  let n := N_of_ascii c in ((n =? 10) || (n =? 13))%N.

(** [^[a-f0-9-]{n}]: the rest of [s] after [n] characters of the class. *)
Fixpoint skipUuidChars (n : nat) (s : string) : option string :=
  match n with
  | O => Some s
  | S n' =>
      match s with
      | EmptyString => None
      | String c s' => if isUuidChar c then skipUuidChars n' s' else None
      end
  end.

(** [clean.match(/^[a-f0-9-]{36}_(.+)$/i)]: the capture [m[1]] on a match. *)
Definition matchUuidPattern (clean : string) : option string :=
  match skipUuidChars 36 clean with
  | Some (String c rest) =>
      if Ascii.eqb c "_" && truthyStr rest &&
         allChars (fun d => negb (isLineTerminator d)) rest
      then Some rest else None
  | _ => None
  end.

(** Extract a clean filename from a URL or path, removing query/hash and UUID
    prefixes (app.js 59-71). *)
Definition getFilenameFromUrl (url : string) : string :=
  if negb (truthyStr url) then EmptyString
  else
    let lastPart := lastOrEmpty (split url "/") in
    let clean := firstOrEmpty (split (firstOrEmpty (split lastPart "?")) "#") in
    match matchUuidPattern clean with
    | Some m1 => m1
    | None => clean
    end.

(** The properties of a texture object that the runtime reads or writes. *)
Record Texture := mkTexture {
  url : option string;
  name : option string;
  coordinatesIndex : option float;
  uOffset : option float;
  vOffset : option float;
  uScale : option float;
  vScale : option float;
  uAng : option float;
  vAng : option float;
  wAng : option float;
  wrapU : option float;
  wrapV : option float
}.

(** An object without any of these properties (an array in a slot). *)
Definition bareObject : Texture :=
  mkTexture None None None None None None None None None None None None.

Definition setName (t : Texture) (n : string) : Texture :=
  mkTexture (url t) (Some n) (coordinatesIndex t) (uOffset t) (vOffset t)
            (uScale t) (vScale t) (uAng t) (vAng t) (wAng t) (wrapU t) (wrapV t).

Definition setCoordinatesIndex (t : Texture) (x : float) : Texture :=
  mkTexture (url t) (name t) (Some x) (uOffset t) (vOffset t)
            (uScale t) (vScale t) (uAng t) (vAng t) (wAng t) (wrapU t) (wrapV t).

(** [if ('p' in original) tex.p = original.p] *)
Definition copyIfPresent (original current : option float) : option float :=
  match original with
  | Some x => Some x
  | None => current
  end.

(** The value of a material property: a texture object or a JSON value. *)
Inductive PropVal :=
  | PTexture (t : Texture)
  | PJson (v : Json).

(** [material[property]] as the texture branch sees it: falsy, a truthy
    primitive, or an object. *)
Inductive SlotValue :=
  | SlotEmpty
  | SlotPrimitive
  | SlotObject (t : Texture).

Definition readSlot (v : option PropVal) : SlotValue :=
  match v with
  | None => SlotEmpty
  | Some (PTexture t) => SlotObject t
  | Some (PJson (JArr _)) => SlotObject bareObject
  | Some (PJson j) => if truthy (Some j) then SlotPrimitive else SlotEmpty
  end.

Record Material := mkMaterial {
  materialName : string;
  props : gmap string PropVal
}.

Definition setProp (m : Material) (property : string) (v : PropVal) : Material :=
  mkMaterial (materialName m) (<[property := v]> (props m)).

(** [a || b] on optional strings, with [''] when both are falsy. *)
Definition firstTruthy (a b : option string) : string :=
  match a with
  | Some x => if truthyStr x then x else default EmptyString b
  | None => default EmptyString b
  end.

(** What one texture override did (app.js 802-871). *)
Inductive OverrideOutcome :=
  | Kept                      (* [continue]: the original texture stays *)
  | LoadFailed                (* the loader returned null: slot untouched *)
  | Threw                     (* [in] applied to a primitive: caught, slot untouched *)
  | Replaced (tex : Texture). (* [material[property] = tex] *)

Section WithEngine.

(** [new BABYLON.Texture(url, scene)]: [None] when the constructor throws. *)
Variable newTexture : string -> option Texture.

Definition loadTextureFromAssetPath (assetStoragePath : string) : option Texture :=
  if negb (truthyStr assetStoragePath) then None
  else
    let rel := toRelativeAssetPath assetStoragePath in
    let url := "assets/" +:+ rel in
    match newTexture url with
    | Some texture =>
        let parts2 := split url "/" in
        Some (setName texture (lastOrEmpty parts2))
    | None => None
    end.

Definition copyUvProperties (originalTexture tex : Texture) : Texture :=
  mkTexture (url tex) (name tex)
    (copyIfPresent (coordinatesIndex originalTexture) (coordinatesIndex tex))
    (copyIfPresent (uOffset originalTexture) (uOffset tex))
    (copyIfPresent (vOffset originalTexture) (vOffset tex))
    (copyIfPresent (uScale originalTexture) (uScale tex))
    (copyIfPresent (vScale originalTexture) (vScale tex))
    (copyIfPresent (uAng originalTexture) (uAng tex))
    (copyIfPresent (vAng originalTexture) (vAng tex))
    (copyIfPresent (wAng originalTexture) (wAng tex))
    (copyIfPresent (wrapU originalTexture) (wrapU tex))
    (copyIfPresent (wrapV originalTexture) (wrapV tex)).

Definition currentPathOf (originalTexture : SlotValue) : string :=
  match originalTexture with
  | SlotObject t => firstTruthy (url t) (name t)
  | _ => EmptyString
  end.

Definition isEmbedded (originalTexture : SlotValue) : bool :=
  match originalTexture with
  | SlotObject t =>
      match url t with
      | Some u => truthyStr u && includes u "#"
      | None => false
      end
  | _ => false
  end.

Definition isSlotEmpty (originalTexture : SlotValue) : bool :=
  match originalTexture with SlotEmpty => true | _ => false end.

Definition shouldApplyOverride (originalTexture : SlotValue) (value : string) : bool :=
  let currentFile := getFilenameFromUrl (currentPathOf originalTexture) in
  let overrideFile := getFilenameFromUrl value in
  isSlotEmpty originalTexture || isEmbedded originalTexture ||
  (negb (String.eqb currentFile overrideFile) && truthyStr overrideFile).

(** The texture branch for one string-valued override of a texture slot. *)
Definition applyTextureOverride (originalTexture : SlotValue) (property value : string)
  : OverrideOutcome :=
  if negb (shouldApplyOverride originalTexture value) then Kept
  else
    match loadTextureFromAssetPath value with
    | Some tex =>
        match originalTexture with
        | SlotObject o => Replaced (copyUvProperties o tex)
        | SlotPrimitive => Threw
        | SlotEmpty =>
            if String.eqb property "ambientTexture" || String.eqb property "lightmapTexture"
            then Replaced (setCoordinatesIndex tex 1%float)
            else Replaced (setCoordinatesIndex tex 0%float)
        end
    | None => LoadFailed
    end.

(** One [property, value] entry applied to the material found by name.  The
    delayed second assignment of [wireframe] writes the same value again and
    is left out. *)
Definition applyOverride (material : Material) (property : string) (value : Json) : Material :=
  match value with
  | JStr s =>
      if isTextureProperty property then
        match applyTextureOverride (readSlot (props material !! property)) property s with
        | Replaced tex => setProp material property (PTexture tex)
        | _ => material
        end
      else setProp material property (PJson value)
  | _ => setProp material property (PJson value)
  end.

Definition applyProperties (material : Material) (properties : list (string * Json)) : Material :=
  foldl (fun m pv => applyOverride m (fst pv) (snd pv)) material properties.

(** [scene.materials.find(m => m.name === materialName)], updated in place. *)
Fixpoint updateFirstByName (materials : list Material) (materialName0 : string)
    (f : Material -> Material) : list Material :=
  match materials with
  | [] => []
  | m :: rest =>
      if String.eqb (materialName m) materialName0 then f m :: rest
      else m :: updateFirstByName rest materialName0 f
  end.

Definition applyMaterialOverrides (materials : list Material)
    (overrides : list (string * list (string * Json))) : list Material :=
  foldl (fun ms entry =>
           updateFirstByName ms (fst entry) (fun m => applyProperties m (snd entry)))
        materials overrides.

End WithEngine.

End Overrides.

(** ** Environment configurator: the fog mode of [applySceneSettings]
       (app.js 651-657) *)

Module Environment.
Import Json.

Inductive FogMode := FOGMODE_NONE | FOGMODE_EXP | FOGMODE_EXP2 | FOGMODE_LINEAR.

(** The value assigned to [scene.fogMode] from [env.fogMode] ([None] when the
    property is absent). *)
Definition fogModeOf (fm : option Json) : FogMode :=
  match fm with
  | Some (JStr s) =>
      if String.eqb s "linear" then FOGMODE_LINEAR
      else if String.eqb s "exp" then FOGMODE_EXP
      else if String.eqb s "exp2" then FOGMODE_EXP2
      else FOGMODE_NONE
  | _ => FOGMODE_NONE
  end.

End Environment.

(** ** The scene graph as scene.json stores it *)

(** [BABYLON.Vector3], with [Zero()] and [One()]. *)
Module Vector3.
Record t := mk { x : float; y : float; z : float }.
Definition Zero : t := mk 0 0 0.
Definition One : t := mk 1 1 1.
End Vector3.

(** [Math.PI] *)
Definition Math_PI : float := 0x1.921fb54442d18p+1%float.

(** The literals [0.1] and [0.7] as the doubles JavaScript reads them. *)
Definition lit_0_1 : float := 0x1.999999999999ap-4%float.
Definition lit_0_7 : float := 0x1.6666666666666p-1%float.

(** [v !== false] for a flag that may be missing. *)
Definition notFalse (v : option bool) : bool :=
  match v with
  | Some false => false
  | _ => true
  end.

(** [a || d] for a number that may be missing. *)
Definition numOr (a : option float) (d : float) : float :=
  match a with
  | Some v => if Json.truthyNum v then v else d
  | None => d
  end.

(** [typeof a === 'number' ? a : d] *)
Definition numberOr (a : option float) (d : float) : float :=
  match a with
  | Some v => v
  | None => d
  end.

(** The [transform] of a node: [position] is required, the others optional. *)
Module Transform.
Record t := mk {
  position : Vector3.t;
  rotation : option Vector3.t;
  scaling : option Vector3.t
}.
End Transform.

(** The [camera] payload; numeric fields are numbers when present. *)
Module CameraProps.
Record t := mk {
  type : option string;
  alpha : option float;
  beta : option float;
  radius : option float;
  target : option Vector3.t;
  lowerRadiusLimit : option float;
  upperRadiusLimit : option float;
  minZ : option float;
  maxZ : option float;
  active : option bool
}.
End CameraProps.

(** The [light] payload. *)
Module LightProps.
Record t := mk {
  type : option string;
  intensity : option float;
  color : option (list float);
  range : option float;
  angle : option float;
  exponent : option float;
  groundColor : option (list float)
}.
End LightProps.

Module Node.
Record t := mk {
  id : string;
  kind : string;
  name : option string;
  parentId : option string;
  transform : Transform.t;
  enabled : option bool;
  visible : option bool;
  camera : option CameraProps.t;
  light : option LightProps.t;
  src : option string
}.
End Node.

(** ** Live scene objects *)

Inductive Quaternion :=
  | QuaternionOf (qx qy qz qw : float)          (* as the loader left it *)
  | Quaternion_FromEulerAngles (ex ey ez : float).

Module Mesh.
Record t := mk {
  name : string;
  isMesh : bool;                       (* [m instanceof BABYLON.Mesh] *)
  uniqueId : N;                        (* transient engine handle, below 2^53 *)
  metadata : option (option string);   (* [metadata] object and its [stableId] *)
  visibility : float;
  position : Vector3.t;
  rotation : Vector3.t;
  rotationQuaternion : option Quaternion;
  scaling : Vector3.t;
  parent : option string;
  material : option string;
  disposed : bool
}.

Definition ensureMetadata (m : t) : t :=
  mk (name m) (isMesh m) (uniqueId m)
     (match metadata m with Some md => Some md | None => Some None end)
     (visibility m) (position m) (rotation m) (rotationQuaternion m) (scaling m)
     (parent m) (material m) (disposed m).

Definition setStableId (m : t) (token : string) : t :=
  mk (name m) (isMesh m) (uniqueId m) (Some (Some token))
     (visibility m) (position m) (rotation m) (rotationQuaternion m) (scaling m)
     (parent m) (material m) (disposed m).

Definition setVisibility (m : t) (v : float) : t :=
  mk (name m) (isMesh m) (uniqueId m) (metadata m)
     v (position m) (rotation m) (rotationQuaternion m) (scaling m)
     (parent m) (material m) (disposed m).

Definition setParent (m : t) (p : string) : t :=
  mk (name m) (isMesh m) (uniqueId m) (metadata m)
     (visibility m) (position m) (rotation m) (rotationQuaternion m) (scaling m)
     (Some p) (material m) (disposed m).

Definition dispose (m : t) : t :=
  mk (name m) (isMesh m) (uniqueId m) (metadata m)
     (visibility m) (position m) (rotation m) (rotationQuaternion m) (scaling m)
     (parent m) (material m) true.

Definition setTransform (m : t) (p r : Vector3.t) (q : option Quaternion) (s : Vector3.t) : t :=
  mk (name m) (isMesh m) (uniqueId m) (metadata m)
     (visibility m) p r q s (parent m) (material m) (disposed m).

(** [m.metadata && m.metadata.stableId === token] *)
Definition hasStableId (token : string) (m : t) : bool :=
  match metadata m with
  | Some (Some sid) => String.eqb sid token
  | _ => false
  end.
End Mesh.

Module Camera.
Inductive body :=
  | UniversalCamera (id : string) (position rotation : Vector3.t)
  | ArcRotateCamera (id : string) (alpha beta radius : float) (target : Vector3.t)
                    (lowerRadiusLimit upperRadiusLimit : option float).
Record t := mk {
  camera : body;
  minZ : float;
  maxZ : float;
  enabled : bool
}.
Definition id (c : t) : string :=
  match camera c with
  | UniversalCamera id _ _ => id
  | ArcRotateCamera id _ _ _ _ _ _ => id
  end.
End Camera.

Module Light.
Inductive direction :=
  | Direction (v : Vector3.t)
  | ForwardRotatedBy (ex ey ez : float).  (* Forward() turned by FromEulerAngles *)
Inductive body :=
  | PointLight (position : Vector3.t) (range : option float)
  | SpotLight (position : Vector3.t) (dir : direction) (angle exponent : float)
              (range : option float)
  | DirectionalLight (dir : direction) (position : Vector3.t)
  | HemisphericLight (dir : direction) (groundColor : option (list float)).
Record t := mk {
  id : string;
  light : body;
  intensity : float;
  diffuse : option (list float);
  enabled : bool
}.
End Light.

Module TransformNode.
Record t := mk {
  id : string;
  position : Vector3.t;
  rotation : option Vector3.t;
  scaling : option Vector3.t
}.
End TransformNode.

(** Marks left by the lookups and by the stamping pass, in execution order. *)
Inductive Event :=
  | FindByStableId (token : string) (found : bool)   (* app.js 365 *)
  | FindByUniqueId (uniq : N) (found : bool)          (* app.js 370, legacy *)
  | ChildMeshNotFound (id : string)                   (* app.js 383 *)
  | StampStableId (key token : string)                (* app.js 522 *)
  | DisposeMesh (key : string).                       (* app.js 534 *)

Module Scene.
Record t := mk {
  meshes : list Mesh.t;
  cameras : list Camera.t;
  lights : list Light.t;
  transformNodes : list TransformNode.t;
  materials : list Overrides.Material;
  activeCamera : option string;
  attachedControls : list string;
  disposedMeshes : list Mesh.t;       (* meshes on which [dispose()] ran *)
  trace : list Event
}.

Definition empty : t := mk [] [] [] [] [] None [] [] [].

Definition setMeshes (s : t) (ms : list Mesh.t) : t :=
  mk ms (cameras s) (lights s) (transformNodes s) (materials s)
     (activeCamera s) (attachedControls s) (disposedMeshes s) (trace s).

Definition addMeshes (s : t) (ms : list Mesh.t) : t := setMeshes s (meshes s ++ ms).

Definition addMaterial (s : t) (m : Overrides.Material) : t :=
  mk (meshes s) (cameras s) (lights s) (transformNodes s) (materials s ++ [m])
     (activeCamera s) (attachedControls s) (disposedMeshes s) (trace s).

(** A camera built with [new BABYLON.UniversalCamera(id, position, scene)] or
    [new BABYLON.ArcRotateCamera(id, ..., scene)]: the engine's constructor
    adds it to the scene and, when the scene has no active camera yet, makes
    it the active one. *)
Definition addCamera (s : t) (c : Camera.t) : t :=
  mk (meshes s) (cameras s ++ [c]) (lights s) (transformNodes s) (materials s)
     (match activeCamera s with
      | Some active => Some active
      | None => Some (Camera.id c)
      end)
     (attachedControls s) (disposedMeshes s) (trace s).

Definition activate (s : t) (id : string) : t :=
  mk (meshes s) (cameras s) (lights s) (transformNodes s) (materials s)
     (Some id) (attachedControls s ++ [id]) (disposedMeshes s) (trace s).

Definition addLight (s : t) (l : Light.t) : t :=
  mk (meshes s) (cameras s) (lights s ++ [l]) (transformNodes s) (materials s)
     (activeCamera s) (attachedControls s) (disposedMeshes s) (trace s).

Definition addTransformNode (s : t) (n : TransformNode.t) : t :=
  mk (meshes s) (cameras s) (lights s) (transformNodes s ++ [n]) (materials s)
     (activeCamera s) (attachedControls s) (disposedMeshes s) (trace s).

Definition addDisposed (s : t) (ms : list Mesh.t) : t :=
  mk (meshes s) (cameras s) (lights s) (transformNodes s) (materials s)
     (activeCamera s) (attachedControls s) (disposedMeshes s ++ ms) (trace s).

Definition log (s : t) (evs : list Event) : t :=
  mk (meshes s) (cameras s) (lights s) (transformNodes s) (materials s)
     (activeCamera s) (attachedControls s) (disposedMeshes s) (trace s ++ evs).
End Scene.

(** ** Node instantiator and identity resolver: [instantiateGraph],
       [instantiateNode], [loadModelFromAssets] (app.js 189-559) *)

Module Instantiator.
Import Js PathNormalizer.

Definition MESH_TAG : string := "::mesh::".

Definition getChildTokenFromId (id : string) : option string :=
  let i := lastIndexOf id MESH_TAG in
  if 0 <=? i then Some (substring id (i + Z.of_nat (String.length MESH_TAG)))
  else None.

Definition truthyOptStr (o : option string) : bool :=
  match o with
  | Some s => truthyStr s
  | None => false
  end.

(** [(name || 'Mesh').toLowerCase()] *)
Definition lowerNameOrMesh (name : option string) : string :=
  toLowerCase (if truthyOptStr name then default EmptyString name else "Mesh").

(** The template literal [`${nm}::${idx}`]. *)
Definition keyOf (nm : string) (idx : nat) : string := nm +:+ "::" +:+ pretty idx.

Record Entry := mkEntry { node : Node.t; token : string }.

(** Step 2 of the resolver (app.js 485-497): the map
    (name, occurrenceIndex) -> { node, token }, built in scene-graph order. *)
Fixpoint buildSgIndex (nameCounts : gmap string nat) (sgIndex : gmap string Entry)
    (childNodes : list Node.t) : gmap string Entry :=
  match childNodes with
  | [] => sgIndex
  | cn :: rest =>
      let nm := lowerNameOrMesh (Node.name cn) in
      let idx := default 0%nat (nameCounts !! nm) in
      let nameCounts := <[nm := (idx + 1)%nat]> nameCounts in
      let token := default EmptyString (getChildTokenFromId (Node.id cn)) in
      let key := keyOf nm idx in
      buildSgIndex nameCounts (<[key := mkEntry cn token]> sgIndex) rest
  end.

(** What the walk over the runtime meshes did with one mesh. *)
Inductive Resolution :=
  | Stamped (key : string) (mesh : Mesh.t)     (* pushed on [meshesToKeep] *)
  | Disposed (key : string) (mesh : Mesh.t).   (* [mesh.dispose()] *)

Definition opacity (effectiveVisible : bool) : float :=
  if effectiveVisible then 1%float else 0%float.

(** The body of the walk once the key is known (app.js 516-535). *)
Definition resolveMesh (sgIndex : gmap string Entry) (parentVisible parentEnabled : bool)
    (key : string) (mesh : Mesh.t) : Resolution :=
  match sgIndex !! key with
  | Some entry =>
      let childNode := node entry in
      (* Assign runtime stableId from graph token *)
      let mesh := Mesh.setStableId mesh (token entry) in
      (* Apply visibility/enabled with parent inheritance *)
      let childVisible := notFalse (Node.visible childNode) in
      let childEnabled := notFalse (Node.enabled childNode) in
      let effectiveVisible :=
        childVisible && childEnabled && parentVisible && parentEnabled in
      Stamped key (Mesh.setVisibility mesh (opacity effectiveVisible))
  | None =>
      (* No saved child node: this mesh was deleted, so dispose it *)
      Disposed key (Mesh.dispose mesh)
  end.

(** Step 3 of the resolver (app.js 500-536). *)
Fixpoint walkMeshes (sgIndex : gmap string Entry) (parentVisible parentEnabled : bool)
    (nameCounts : gmap string nat) (actualMeshes : list Mesh.t) : list Resolution :=
  match actualMeshes with
  | [] => []
  | mesh :: rest =>
      let mesh := Mesh.ensureMetadata mesh in
      let nm := lowerNameOrMesh (Some (Mesh.name mesh)) in
      let idx := default 0%nat (nameCounts !! nm) in
      let nameCounts := <[nm := (idx + 1)%nat]> nameCounts in
      let key := keyOf nm idx in
      resolveMesh sgIndex parentVisible parentEnabled key mesh
        :: walkMeshes sgIndex parentVisible parentEnabled nameCounts rest
  end.

Definition keptMesh (r : Resolution) : option Mesh.t :=
  match r with Stamped _ m => Some m | Disposed _ _ => None end.

Definition disposedMesh (r : Resolution) : option Mesh.t :=
  match r with Stamped _ _ => None | Disposed _ m => Some m end.

Definition resolutionEvent (r : Resolution) : Event :=
  match r with
  | Stamped key m => StampStableId key (default EmptyString (default None (Mesh.metadata m)))
  | Disposed key _ => DisposeMesh key
  end.

(** [result.meshes.filter(m => m instanceof BABYLON.Mesh)
                  .filter(m => m.name !== "__root__")] *)
Definition actualMeshesOf (meshes : list Mesh.t) : list Mesh.t :=
  List.filter (fun m => negb (String.eqb (Mesh.name m) "__root__"))
              (List.filter Mesh.isMesh meshes).

Fixpoint findIndex {A} (f : A -> bool) (l : list A) : option nat :=
  match l with
  | [] => None
  | a :: l' => if f a then Some 0%nat else S <$> findIndex f l'
  end.

Definition isDigit (c : ascii) : bool :=
  let n := N_of_ascii c in ((48 <=? n) && (n <=? 57))%N.

(** [/^[0-9]+$/.test(token)] *)
Definition allDigits (token : string) : bool := truthyStr token && allChars isDigit token.

(** [parseInt(token, 10)] on a string of digits.  Engine handles are below
    2^53, where the double it returns is this exact value; a larger value
    equals no handle either way. *)
Definition parseInt (token : string) : N :=
  (fix go (acc : N) (s : string) : N :=
     match s with
     | EmptyString => acc
     | String c s' => go (acc * 10 + (N_of_ascii c - 48))%N s'
     end) 0%N token.

(** The lookup of a child mesh by its token (app.js 364-371), with the marks
    of the two searches it may run. *)
Definition findChildMesh (meshes : list Mesh.t) (token : string)
  : option nat * list Event :=
  (* Primary: find by stableId *)
  match findIndex (Mesh.hasStableId token) meshes with
  | Some i => (Some i, [FindByStableId token true])
  | None =>
      (* Legacy fallback: numeric uniqueId *)
      if allDigits token then
        let uniq := parseInt token in
        let mesh := findIndex (fun m => N.eqb (Mesh.uniqueId m) uniq) meshes in
        (mesh, [FindByStableId token false;
                FindByUniqueId uniq (bool_decide (is_Some mesh))])
      else (None, [FindByStableId token false])
  end.

(** The test that defers a node to the second pass (app.js 196). *)
Definition isDeferred (node : Node.t) : bool :=
  String.eqb (Node.kind node) "mesh" && includes (Node.id node) MESH_TAG &&
  truthyOptStr (Node.parentId node).

(** [mesh.visibility = (visible && enabled) ? 1 : 0] (app.js 413-418). *)
Definition applyVisibility (node : Node.t) (mesh : Mesh.t) : Mesh.t :=
  let visible := notFalse (Node.visible node) in
  let enabled := notFalse (Node.enabled node) in
  Mesh.setVisibility mesh (opacity (visible && enabled)).

Section WithEngine.

(** [v.length()] of the engine's vectors. *)
Variable Vector3_length : Vector3.t -> float.

(** [BABYLON.SceneLoader.LoadAssetContainerAsync(rootUrl, filename, scene)]:
    the meshes of the container, or [None] when the promise rejects. *)
Variable LoadAssetContainerAsync : string -> string -> Scene.t -> option (list Mesh.t).

(** The handle the engine gives to a mesh it builds in the scene. *)
Variable nextUniqueId : Scene.t -> N.

(** The scene graph kept by [main] for the helpers ([null] before the load). *)
Variable EXPORTED_SCENE_GRAPH : option (list Node.t).

(** Step 1 of the resolver (app.js 482). *)
Definition childNodesOf (node : Node.t) : list Node.t :=
  List.filter
    (fun n => bool_decide (Node.parentId n = Some (Node.id node)) &&
              String.eqb (Node.kind n) "mesh")
    (default [] EXPORTED_SCENE_GRAPH).

(** Steps 1 to 3 on the meshes of one loaded container. *)
Definition resolveIdentities (node : Node.t) (meshes : list Mesh.t) : list Resolution :=
  let parentVisible := notFalse (Node.visible node) in
  let parentEnabled := notFalse (Node.enabled node) in
  let childNodes := childNodesOf node in
  let sgIndex := buildSgIndex ∅ ∅ childNodes in
  walkMeshes sgIndex parentVisible parentEnabled ∅ (actualMeshesOf meshes).

(** The load itself (app.js 436-451): the container's meshes, or [None] when
    the loader rejects. *)
Definition loadContainer (node : Node.t) (scene : Scene.t) : option (list Mesh.t) :=
  (* Convert storage path to asset path *)
  let assetPath := "assets/" +:+ toRelativeAssetPath (default EmptyString (Node.src node)) in
  let lower := toLowerCase assetPath in
  if endsWith lower ".gltf" then
    let rootUrl := substringTo assetPath (lastIndexOf assetPath "/" + 1) in
    let filename := substring assetPath (lastIndexOf assetPath "/" + 1) in
    LoadAssetContainerAsync rootUrl filename scene
  else LoadAssetContainerAsync EmptyString assetPath scene.

Definition loadModelFromAssets (node : Node.t) (scene : Scene.t) : Scene.t :=
  if negb (truthyOptStr (Node.src node)) then scene
  else
    match loadContainer node scene with
    | None => scene                      (* rejected: caught and logged *)
    | Some meshes =>
        if (0 <? length meshes)%nat then
          (* Create a parent transform node *)
          let t := Node.transform node in
          let parentNode :=
            TransformNode.mk (Node.id node) (Transform.position t)
                             (Transform.rotation t) (Transform.scaling t) in
          let scene := Scene.addTransformNode scene parentNode in
          (* Parent all loaded meshes to the transform node *)
          let meshes := map (fun mesh => Mesh.setParent mesh (Node.id node)) meshes in
          let resolved := resolveIdentities node meshes in
          let meshesToKeep := omap keptMesh resolved in
          let scene := Scene.addDisposed scene (omap disposedMesh resolved) in
          let scene := Scene.log scene (map resolutionEvent resolved) in
          (* result.meshes = meshesToKeep; result.addAllToScene() *)
          Scene.addMeshes scene meshesToKeep
        else scene
    end.

Definition defaultCameraProps : CameraProps.t :=
  CameraProps.mk (Some "ArcRotate") None None None None None None
                 (Some lit_0_1) (Some 100%float) None.

Definition buildCamera (node : Node.t) (position rotation : Vector3.t) : Camera.t :=
  let cameraProps := default defaultCameraProps (Node.camera node) in
  let camera :=
    if bool_decide (CameraProps.type cameraProps = Some "Universal") then
      Camera.UniversalCamera (Node.id node) position rotation
    else
      (* ArcRotate (default) *)
      let alpha := numOr (CameraProps.alpha cameraProps)
                         (PrimFloat.div (PrimFloat.opp Math_PI) 2%float) in
      let beta := numOr (CameraProps.beta cameraProps)
                        (PrimFloat.div Math_PI 2.5%float) in
      let radius := numOr (CameraProps.radius cameraProps)
                          (numOr (Some (Vector3_length position)) 15%float) in
      let target := default Vector3.Zero (CameraProps.target cameraProps) in
      Camera.ArcRotateCamera (Node.id node) alpha beta radius target
        (CameraProps.lowerRadiusLimit cameraProps)
        (CameraProps.upperRadiusLimit cameraProps) in
  (* Set common camera properties (use exact values from editor) *)
  let minZ := numberOr (CameraProps.minZ cameraProps) lit_0_1 in
  let maxZ := numberOr (CameraProps.maxZ cameraProps) 100%float in
  let cameraEnabled := notFalse (Node.enabled node) in
  Camera.mk camera minZ maxZ cameraEnabled.

Definition instantiateCamera (node : Node.t) (position rotation : Vector3.t)
    (scene : Scene.t) : Scene.t :=
  let cameraProps := default defaultCameraProps (Node.camera node) in
  let scene := Scene.addCamera scene (buildCamera node position rotation) in
  (* Set as active camera if marked as such (and attach controls) *)
  if default false (CameraProps.active cameraProps)
  then Scene.activate scene (Node.id node)
  else scene.

Definition defaultLightProps : LightProps.t :=
  LightProps.mk (Some "Hemispheric") (Some lit_0_7)
                (Some [1%float; 1%float; 1%float]) None None None None.

Definition lightDirection (node : Node.t) : Light.direction :=
  match Transform.rotation (Node.transform node) with
  | Some r => Light.ForwardRotatedBy (Vector3.x r) (Vector3.y r) (Vector3.z r)
  | None => Light.Direction (Vector3.mk 0 (-1) 0)
  end.

Definition instantiateLight (node : Node.t) (position : Vector3.t) (scene : Scene.t)
  : Scene.t :=
  let lightProps := default defaultLightProps (Node.light node) in
  let ty := default EmptyString (LightProps.type lightProps) in
  let light :=
    if String.eqb ty "Point" then
      Light.PointLight position (LightProps.range lightProps)
    else if String.eqb ty "Spot" then
      Light.SpotLight position (lightDirection node)
        (numOr (LightProps.angle lightProps) (PrimFloat.div Math_PI 6%float))
        (numOr (LightProps.exponent lightProps) 1%float)
        (LightProps.range lightProps)
    else if String.eqb ty "Directional" then
      Light.DirectionalLight (lightDirection node) position
    else
      Light.HemisphericLight (Light.Direction (Vector3.mk 0 1 0))
                             (LightProps.groundColor lightProps) in
  let intensity := numberOr (LightProps.intensity lightProps) lit_0_7 in
  let diffuse :=
    match LightProps.color lightProps with
    | Some c => if (length c =? 3)%nat then Some c else None
    | None => None
    end in
  let lightEnabled := notFalse (Node.enabled node) in
  Scene.addLight scene (Light.mk (Node.id node) light intensity diffuse lightEnabled).

(** A primitive built by [MeshBuilder] with its PBR material. *)
Definition createPrimitive (node : Node.t) (position rotation scaling : Vector3.t)
    (materialName : string) (albedo metallic roughness : float) (scene : Scene.t)
  : Scene.t :=
  let mesh :=
    Mesh.mk (Node.id node) true (nextUniqueId scene) None 1%float
            position rotation None scaling None (Some materialName) false in
  let material :=
    Overrides.mkMaterial materialName
      (<["albedoColor" := Overrides.PJson (Json.JArr [Json.JNum albedo; Json.JNum albedo; Json.JNum albedo])]>
       (<["metallic" := Overrides.PJson (Json.JNum metallic)]>
        (<["roughness" := Overrides.PJson (Json.JNum roughness)]> ∅))) in
  Scene.addMaterial (Scene.addMeshes scene [applyVisibility node mesh]) material.

(** The [mesh] case for a child mesh (app.js 354-385 and 413-418). *)
Definition instantiateChildMesh (node : Node.t) (position rotation scaling : Vector3.t)
    (scene : Scene.t) : Scene.t :=
  match getChildTokenFromId (Node.id node) with
  | Some token =>
      if truthyStr token then
        let '(found, events) := findChildMesh (Scene.meshes scene) token in
        let scene := Scene.log scene events in
        match found with
        | Some i =>
            match Scene.meshes scene !! i with
            | Some mesh =>
                (* Apply child mesh transform *)
                let mesh :=
                  match Mesh.rotationQuaternion mesh with
                  | Some _ =>
                      Mesh.setTransform mesh position (Mesh.rotation mesh)
                        (Some (Quaternion_FromEulerAngles (Vector3.x rotation) (Vector3.y rotation)
                                                         (Vector3.z rotation)))
                        scaling
                  | None => Mesh.setTransform mesh position rotation None scaling
                  end in
                (* Apply visibility and enabled states *)
                Scene.setMeshes scene (<[i := applyVisibility node mesh]> (Scene.meshes scene))
            | None => scene
            end
        | None => Scene.log scene [ChildMeshNotFound (Node.id node)]
        end
      else scene
  | None => scene
  end.

Definition lit_0_8 : float := 0x1.999999999999ap-1%float.
Definition lit_0_3 : float := 0x1.3333333333333p-2%float.

Definition instantiateNode (node : Node.t) (scene : Scene.t) : Scene.t :=
  let t := Node.transform node in
  let position := Transform.position t in
  let rotation := default Vector3.Zero (Transform.rotation t) in
  let scaling := default Vector3.One (Transform.scaling t) in
  let kind := Node.kind node in
  if String.eqb kind "camera" then instantiateCamera node position rotation scene
  else if String.eqb kind "light" then instantiateLight node position scene
  else if String.eqb kind "mesh" then
    (* Check if this is a child mesh (contains ::mesh::) *)
    if includes (Node.id node) MESH_TAG && truthyOptStr (Node.parentId node) then
      instantiateChildMesh node position rotation scaling scene
    else if String.eqb (Node.id node) "defaultCube" then
      createPrimitive node position rotation scaling "defaultCubeMaterial"
                      lit_0_8 lit_0_1 lit_0_3 scene
    else if String.eqb (Node.id node) "ground" then
      createPrimitive node position rotation scaling "groundMaterial"
                      0.5%float 0%float lit_0_8 scene
    else scene
  else if String.eqb kind "model" then
    if truthyOptStr (Node.src node) then loadModelFromAssets node scene else scene
  else scene.

(** First pass (app.js 193-202): every node that is not a parented child
    mesh, in graph order; the others are collected. *)
Fixpoint firstPass (nodes : list Node.t) (childMeshNodes : list Node.t) (scene : Scene.t)
  : Scene.t * list Node.t :=
  match nodes with
  | [] => (scene, childMeshNodes)
  | node :: rest =>
      if isDeferred node
      then firstPass rest (childMeshNodes ++ [node]) scene
      else firstPass rest childMeshNodes (instantiateNode node scene)
  end.

(** Second pass (app.js 204-210). *)
Definition secondPass (childMeshNodes : list Node.t) (scene : Scene.t) : Scene.t :=
  foldl (fun s node => instantiateNode node s) scene childMeshNodes.

Definition instantiateGraph (nodes : list Node.t) (scene : Scene.t) : Scene.t :=
  let '(scene, childMeshNodes) := firstPass nodes [] scene in
  secondPass childMeshNodes scene.

End WithEngine.

End Instantiator.

(** ** Predicates on strings used to state the properties *)

Module JsProps.
Import Js.

(** An occurrence of [m] in [s] at position [i]. *)
Definition occursAt (s m : string) (i : nat) : Prop :=
  exists pre post, s = pre +:+ m +:+ post /\ String.length pre = i.

Definition hasNo (c : ascii) (s : string) : Prop :=
  allChars (fun d => negb (Ascii.eqb d c)) s = true.

End JsProps.

(** ** The override rules in the spec's words *)

Module OverridesProps.
Import Js PathNormalizer Json Overrides.

(** The condition of the shadow-suppression rule, in the spec's words. *)
Definition overrideWanted (slot : SlotValue) (value : string) : Prop :=
  slot = SlotEmpty \/
  (exists o u, slot = SlotObject o /\ url o = Some u /\ includes u "#" = true) \/
  (getFilenameFromUrl (currentPathOf slot) <> getFilenameFromUrl value /\
   getFilenameFromUrl value <> "").

(** The UV properties carried over from the texture that is replaced. *)
Definition uvProperties : list (Texture -> option float) :=
  [ coordinatesIndex; uOffset; vOffset; uScale; vScale; uAng; vAng; wAng; wrapU; wrapV ].

End OverridesProps.

(** ** Occurrence keys in the spec's words *)

Module IdentityProps.
Import Js Instantiator.

(** How often [nm] occurs in [l]. *)
Definition countIn (nm : string) (l : list string) : nat :=
  length (List.filter (String.eqb nm) l).

(** The key of position [i] of a sequence of (lowercased) names: the name,
    "::", and the number of earlier positions with the same name. *)
Definition occurrenceKey (names : list string) (i : nat) : option string :=
  nm ← names !! i; Some (keyOf nm (countIn nm (take i names))).

Definition meshName (m : Mesh.t) : string := lowerNameOrMesh (Some (Mesh.name m)).
Definition nodeName (cn : Node.t) : string := lowerNameOrMesh (Node.name cn).
Definition tokenOf (cn : Node.t) : string :=
  default EmptyString (getChildTokenFromId (Node.id cn)).

(** The counters of a loop agree with the names it has gone through. *)
Definition counts (nameCounts : gmap string nat) (seen : list string) : Prop :=
  forall nm, default 0%nat (nameCounts !! nm) = countIn nm seen.

(** The saved child-mesh nodes of a model, in scene-graph order: the nodes of
    kind "mesh" whose parent is the model. *)
Definition savedChildren (exported : option (list Node.t)) (model : Node.t) : list Node.t :=
  List.filter (fun n => String.eqb (Node.kind n) "mesh" &&
                        bool_decide (Node.parentId n = Some (Node.id model)))
              (default [] exported).

(** The runtime meshes of a container, in load order: its entries that are
    instances of BABYLON.Mesh, the loader's root apart. *)
Definition runtimeMeshes (meshes : list Mesh.t) : list Mesh.t :=
  List.filter (fun m => Mesh.isMesh m && negb (String.eqb (Mesh.name m) "__root__")) meshes.

(** What a model load did with one runtime mesh: it is in the meshes the load
    adds to the scene, or it was disposed. *)
Inductive Fate :=
  | Retained (m : Mesh.t)
  | Removed (m : Mesh.t).

Definition retained (f : Fate) : option Mesh.t :=
  match f with Retained m => Some m | Removed _ => None end.

Definition removed (f : Fate) : option Mesh.t :=
  match f with Retained _ => None | Removed m => Some m end.

Definition fateOf (r : Resolution) : Fate :=
  match r with
  | Stamped _ m => Retained m
  | Disposed _ m => Removed m
  end.

End IdentityProps.

(** ** Shapes of lookup traces *)

Module TraceProps.
Import Instantiator.

(** A mark left by one of the two searches of a child-mesh lookup. *)
Definition isLookup (e : Event) : bool :=
  match e with
  | FindByStableId _ _ | FindByUniqueId _ _ => true
  | _ => false
  end.

Definition isLegacy (e : Event) : bool :=
  match e with
  | FindByUniqueId _ _ => true
  | _ => false
  end.

(** The same mesh under another handle. *)
Definition relabel (f : N -> N) (m : Mesh.t) : Mesh.t :=
  Mesh.mk (Mesh.name m) (Mesh.isMesh m) (f (Mesh.uniqueId m)) (Mesh.metadata m)
          (Mesh.visibility m) (Mesh.position m) (Mesh.rotation m)
          (Mesh.rotationQuaternion m) (Mesh.scaling m) (Mesh.parent m)
          (Mesh.material m) (Mesh.disposed m).

Definition mapResolution (g : Mesh.t -> Mesh.t) (r : Resolution) : Resolution :=
  match r with
  | Stamped key m => Stamped key (g m)
  | Disposed key m => Disposed key (g m)
  end.

(** Traces in which every legacy search directly follows a failed search by
    stable id for the same, all-digit token. *)
Inductive guardedTrace : list Event -> Prop :=
  | guarded_nil : guardedTrace []
  | guarded_cons e tr :
      isLegacy e = false -> guardedTrace tr -> guardedTrace (e :: tr)
  | guarded_legacy token found tr :
      allDigits token = true -> guardedTrace tr ->
      guardedTrace (FindByStableId token false :: FindByUniqueId (parseInt token) found :: tr).

End TraceProps.

(** ** Concrete scenes, assets and engine stand-ins used by the examples *)

Module Fixtures.
Import Js PathNormalizer Json Overrides Instantiator.

(** A stand-in for the engine's texture constructor that always succeeds:
    the new texture carries its URL and the engine's defaults. *)
Definition plainTexture (u : string) : option Texture :=
  Some (mkTexture (Some u) (Some u) (Some 0%float)
          (Some 0%float) (Some 0%float) (Some 1%float) (Some 1%float)
          (Some 0%float) (Some 0%float) (Some 0%float)
          (Some 1%float) (Some 1%float)).

(** Textures as an asset might carry them. *)
Definition blueTexture : Texture :=
  mkTexture (Some "assets/textures/blue.png") (Some "blue.png") (Some 1%float)
    (Some 0.5%float) (Some 0.25%float) (Some 2%float) (Some 4%float)
    (Some 0%float) (Some 0%float) (Some 0.125%float)
    (Some 0%float) (Some 2%float).

Definition redTexture : Texture :=
  mkTexture (Some "assets/textures/123e4567-e89b-12d3-a456-426614174000_red.png?v=2")
    (Some "red") (Some 0%float) None None None None None None None None None.

Definition carPaint : Material :=
  mkMaterial "CarPaint" {[ "albedoTexture" := PTexture blueTexture ]}.

(** An ArcRotate camera whose five saved numbers are all 0. *)
Definition zeroCameraNode : Node.t :=
  Node.mk "cam1" "camera" (Some "Camera") None
    (Transform.mk (Vector3.mk 0 3 4) None None) None None
    (Some (CameraProps.mk (Some "ArcRotate") (Some 0%float) (Some 0%float) (Some 0%float)
             None None None (Some 0%float) (Some 0%float) (Some true)))
    None None.

(** The Euclidean length, standing in for the engine's [length()]. *)
Definition euclideanLength (v : Vector3.t) : float :=
  PrimFloat.sqrt (Vector3.x v * Vector3.x v + Vector3.y v * Vector3.y v +
                  Vector3.z v * Vector3.z v)%float.

(** The spec's scene: one model with two saved "Wheel" children, and a
    container with a root and the meshes Wheel, Wheel, Door. *)
Definition originTransform : Transform.t := Transform.mk Vector3.Zero None None.

Definition carNode : Node.t :=
  Node.mk "car" "model" (Some "Car") None originTransform None None None None
          (Some "u1/projects/p1/assets/car.gltf").

Definition wheelNode (token : string) : Node.t :=
  Node.mk ("car::mesh::" +:+ token) "mesh" (Some "Wheel") (Some "car")
          originTransform None None None None None.

Definition carGraph : list Node.t := [carNode; wheelNode "t0"; wheelNode "t1"].

Definition loadedMesh (name : string) (uniqueId : N) : Mesh.t :=
  Mesh.mk name true uniqueId None 1%float Vector3.Zero Vector3.Zero None Vector3.One
          None None false.

Definition carMeshes : list Mesh.t :=
  [loadedMesh "__root__" 10; loadedMesh "Wheel" 11; loadedMesh "Wheel" 12;
   loadedMesh "Door" 13].

(** The same container with a first "Wheel" that is no [BABYLON.Mesh] (an
    instance of another mesh, as the loader builds for repeated geometry). *)
Definition instancedWheel : Mesh.t :=
  Mesh.mk "Wheel" false 11 None 1%float Vector3.Zero Vector3.Zero None Vector3.One
          None None false.

Definition mixedCarMeshes : list Mesh.t :=
  [loadedMesh "__root__" 10; instancedWheel; loadedMesh "Wheel" 12; loadedMesh "Door" 13].

Definition mixedCarLoader (rootUrl filename : string) (_ : Scene.t)
  : option (list Mesh.t) :=
  if String.eqb rootUrl "assets/" && String.eqb filename "car.gltf"
  then Some mixedCarMeshes else None.

(** A loader that knows one asset. *)
Definition carLoader (rootUrl filename : string) (_ : Scene.t) : option (list Mesh.t) :=
  if String.eqb rootUrl "assets/" && String.eqb filename "car.gltf"
  then Some carMeshes else None.

Definition stampedWheel (uniqueId : N) (token : string) : Mesh.t :=
  Mesh.mk "Wheel" true uniqueId (Some (Some token)) 1%float Vector3.Zero Vector3.Zero
          None Vector3.One (Some "car") None false.

Definition disposedDoor : Mesh.t :=
  Mesh.mk "Door" true 13 (Some None) 1%float Vector3.Zero Vector3.Zero
          None Vector3.One (Some "car") None true.

(** A saved child "Hood" with the legacy token "11": no runtime mesh is
    stamped for it, its stable id is not found in the second pass, and only
    then the numeric search runs (and finds the first wheel, whose handle is
    11). *)
Definition hoodNode : Node.t :=
  Node.mk "car::mesh::11" "mesh" (Some "Hood") (Some "car")
          originTransform None None None None None.

Definition legacyGraph : list Node.t := [carNode; wheelNode "t0"; hoodNode].

(** A handle allocator standing in for the engine's. *)
Definition countMeshes (s : Scene.t) : N := N.of_nat (length (Scene.meshes s)).

(** A model the car loader does not know: its load is rejected. *)
Definition boatNode : Node.t :=
  Node.mk "boat" "model" (Some "Boat") None originTransform None None None None
          (Some "u1/projects/p1/assets/boat.glb").

(** The same model, hidden, with one visible saved child. *)
Definition hiddenCarNode : Node.t :=
  Node.mk "car" "model" (Some "Car") None originTransform None (Some false) None None
          (Some "u1/projects/p1/assets/car.gltf").

Definition hiddenCarGraph : list Node.t := [hiddenCarNode; wheelNode "t0"].

End Fixtures.

(** ** Notions used to state further properties of the instantiator *)

(** ** Image processing settings: [applySceneSettings] (app.js 660-693) *)

Module ImageProcessing.
Import Json.

Inductive ToneMapping := TONEMAPPING_STANDARD | TONEMAPPING_ACES.

(** [settings.imageProcessing] as scene.json stores it; [None] is a missing
    property. *)
Module Ip.
Record t := mk {
  contrast : option Json;
  exposure : option Json;
  toneMappingEnabled : option Json;
  toneMappingType : option Json;
  vignetteEnabled : option Json;
  vignetteWeight : option Json;
  vignetteStretch : option Json;
  vignetteFov : option Json;
  vignetteColor : option Json;
  ditheringEnabled : option Json;
  ditheringIntensity : option Json
}.
End Ip.

(** The arguments of [new BABYLON.Color4(r, g, b, a)]; [None] is
    [undefined]. *)
Record Color4 := mkColor4 {
  r : option Json;
  g : option Json;
  b : option Json;
  a : option Json
}.

(** [scene.imageProcessingConfiguration]: the properties the runtime writes.
    [ditheringIntensity] is [None] when the engine's configuration has no
    such property (['ditheringIntensity' in ipc] is false). *)
Module Ipc.
Record t := mk {
  contrast : Json;
  exposure : Json;
  toneMappingEnabled : bool;
  toneMappingType : ToneMapping;
  vignetteEnabled : bool;
  vignetteWeight : Json;
  vignetteStretch : Json;
  vignetteCameraFov : Json;
  vignetteColor : Color4;
  ditheringEnabled : bool;
  ditheringIntensity : option Json
}.
End Ipc.

Definition lit_1_5 : float := 0x1.8p+0%float.
Definition lit_0_5 : float := 0x1p-1%float.

(** [v || d] *)
Definition orElse (v : option Json) (d : Json) : Json :=
  match v with
  | Some x => if truthy v then x else d
  | None => d
  end.

Definition toneMappingOf (v : option Json) : ToneMapping :=
  match v with
  | Some (JStr s) =>
      if String.eqb s "aces" then TONEMAPPING_ACES
      else if String.eqb s "neutral" then TONEMAPPING_ACES (* fallback *)
      else TONEMAPPING_STANDARD
  | _ => TONEMAPPING_STANDARD
  end.

(** The elements an array destructuring reads from a value: those of an
    array, the characters of a string; [None] when the value is not
    iterable and the destructuring throws a TypeError. *)
Definition iterate (v : Json) : option (list Json) :=
  match v with
  | JArr xs => Some xs
  | JStr s => Some (map (fun c => JStr (String c EmptyString)) (list_ascii_of_string s))
  | _ => None
  end.

(** The block of app.js 663-692 on the configuration; the flag tells that
    an exception left the block, after the writes made so far. *)
Definition applyImageProcessing (ip : Ip.t) (ipc : Ipc.t) : Ipc.t * bool :=
  let contrast := orElse (Ip.contrast ip) (JNum 1) in
  let exposure := orElse (Ip.exposure ip) (JNum 1) in
  let toneMappingEnabled := truthy (Ip.toneMappingEnabled ip) in
  (* Tone mapping type *)
  let toneMappingType := toneMappingOf (Ip.toneMappingType ip) in
  (* Vignette settings *)
  let vignetteEnabled := truthy (Ip.vignetteEnabled ip) in
  let '(vignetteWeight, vignetteStretch, vignetteCameraFov) :=
    if truthy (Ip.vignetteEnabled ip) then
      (orElse (Ip.vignetteWeight ip) (JNum 1),
       orElse (Ip.vignetteStretch ip) (JNum 0),
       orElse (Ip.vignetteFov ip) (JNum lit_1_5))
    else (Ipc.vignetteWeight ipc, Ipc.vignetteStretch ipc, Ipc.vignetteCameraFov ipc) in
  let '(vignetteColor, threw) :=
    if truthy (Ip.vignetteEnabled ip) && truthy (Ip.vignetteColor ip) then
      match iterate (default JNull (Ip.vignetteColor ip)) with
      | Some xs => (mkColor4 (xs !! 0%nat) (xs !! 1%nat) (xs !! 2%nat) (xs !! 3%nat), false)
      | None => (Ipc.vignetteColor ipc, true)
      end
    else (Ipc.vignetteColor ipc, false) in
  if threw then
    (Ipc.mk contrast exposure toneMappingEnabled toneMappingType vignetteEnabled
            vignetteWeight vignetteStretch vignetteCameraFov vignetteColor
            (Ipc.ditheringEnabled ipc) (Ipc.ditheringIntensity ipc), true)
  else
    (* Dithering settings *)
    let ditheringEnabled := truthy (Ip.ditheringEnabled ip) in
    let ditheringIntensity :=
      match Ipc.ditheringIntensity ipc with
      | Some _ => Some (orElse (Ip.ditheringIntensity ip) (JNum lit_0_5))
      | None => None
      end in
    (Ipc.mk contrast exposure toneMappingEnabled toneMappingType vignetteEnabled
            vignetteWeight vignetteStretch vignetteCameraFov vignetteColor
            ditheringEnabled ditheringIntensity, false).

End ImageProcessing.


Module CoverageProps.
Import Js Instantiator.

(** What identifies a mesh: everything but its transform and its visibility. *)
Definition meshIdentity (m : Mesh.t)
  : string * bool * N * option (option string) * option string * option string * bool :=
  (Mesh.name m, Mesh.isMesh m, Mesh.uniqueId m, Mesh.metadata m,
   Mesh.parent m, Mesh.material m, Mesh.disposed m).

(** A camera node whose payload marks it active. *)
Definition isActiveCamera (node : Node.t) : bool :=
  String.eqb (Node.kind node) "camera" &&
  default false (CameraProps.active (default defaultCameraProps (Node.camera node))).

Definition hasKind (kind : string) (node : Node.t) : bool :=
  String.eqb (Node.kind node) kind.

(** The id a camera was built with. *)
Definition cameraId (c : Camera.t) : string :=
  match Camera.camera c with
  | Camera.UniversalCamera id _ _ => id
  | Camera.ArcRotateCamera id _ _ _ _ _ _ => id
  end.

(** The scene apart from its meshes and its trace. *)
Definition sceneOthers (s : Scene.t) :=
  (Scene.cameras s, Scene.lights s, Scene.transformNodes s, Scene.materials s,
   Scene.activeCamera s, Scene.attachedControls s, Scene.disposedMeshes s).

(** Id and enabled state of a light, of a camera, and what a node asks for. *)
Definition lightInfo (l : Light.t) : string * bool := (Light.id l, Light.enabled l).
Definition cameraInfo (c : Camera.t) : string * bool := (cameraId c, Camera.enabled c).
Definition nodeInfo (node : Node.t) : string * bool :=
  (Node.id node, notFalse (Node.enabled node)).

Definition notDeferred (node : Node.t) : bool := negb (isDeferred node).

End CoverageProps.

(* ===================================================================== *)
(** * Theorems                                                             *)
(* ===================================================================== *)

Module JsFacts.
Import Js JsProps.

Lemma append_nil (t : string) : "" +:+ t = t.
Proof. reflexivity. Qed.

Lemma append_cons c (a t : string) : String c a +:+ t = String c (a +:+ t).
Proof. reflexivity. Qed.

Lemma app_assoc_str (a b c : string) : (a +:+ b) +:+ c = a +:+ b +:+ c.
Proof.
  induction a as [|x a IH]; [reflexivity|].
  rewrite !append_cons. by rewrite IH.
Qed.

Lemma length_app_str (a b : string) :
  String.length (a +:+ b) = (String.length a + String.length b)%nat.
Proof.
  induction a as [|x a IH]; [reflexivity|].
  rewrite append_cons. simpl. by rewrite IH.
Qed.

Lemma startsWith_app s m : startsWith s m = true <-> exists t, s = m +:+ t.
Proof.
  revert s; induction m as [|c m IH]; intros s; simpl.
  - split; [intros _; exists s; reflexivity | reflexivity].
  - destruct s as [|d s].
    + split; [discriminate | intros [t Ht]; discriminate].
    + destruct (Ascii.eqb_spec c d) as [->|Hne].
      * rewrite IH. split; intros [t Ht]; exists t.
        -- rewrite Ht; reflexivity.
        -- rewrite append_cons in Ht. by injection Ht.
      * split; [discriminate | intros [t Ht]].
        rewrite append_cons in Ht. injection Ht. congruence.
Qed.

Lemma occursAt_0 s m : occursAt s m 0 <-> startsWith s m = true.
Proof.
  rewrite startsWith_app. split.
  - intros (pre & post & -> & Hl). destruct pre; [|discriminate]. by exists post.
  - intros [t ->]. by exists EmptyString, t.
Qed.

Lemma occursAt_S c s m i : occursAt (String c s) m (S i) <-> occursAt s m i.
Proof.
  split.
  - intros (pre & post & Heq & Hl). destruct pre as [|d pre]; [discriminate|].
    rewrite append_cons in Heq. injection Heq as -> ->.
    simpl in Hl. injection Hl as <-. by exists pre, post.
  - intros (pre & post & -> & <-). by exists (String c pre), post.
Qed.

Lemma firstIndex_Some s m i :
  firstIndex s m = Some i ->
  occursAt s m i /\ forall j, occursAt s m j -> (i <= j)%nat.
Proof.
  revert i; induction s as [|c s IH]; intros i.
  - simpl. destruct (startsWith "" m) eqn:Hp; [|discriminate].
    intros [= <-]. split; [by apply occursAt_0 | lia].
  - cbn [firstIndex]. destruct (startsWith (String c s) m) eqn:Hp.
    + intros [= <-]. split; [by apply occursAt_0 | lia].
    + destruct (firstIndex s m) as [k|] eqn:Hk; [|discriminate].
      intros [= <-]. destruct (IH k eq_refl) as [Hocc Hmin]. split.
      * by apply occursAt_S.
      * intros [|j] Hj.
        -- apply occursAt_0 in Hj. congruence.
        -- apply occursAt_S in Hj. apply Hmin in Hj. lia.
Qed.

Lemma firstIndex_None s m i : firstIndex s m = None -> ~ occursAt s m i.
Proof.
  revert i; induction s as [|c s IH]; intros i.
  - simpl. destruct (startsWith "" m) eqn:Hp; [discriminate|].
    intros _ (pre & post & Heq & Hl). destruct pre; [|discriminate].
    assert (startsWith "" m = true) by (apply startsWith_app; by exists post). congruence.
  - cbn [firstIndex]. destruct (startsWith (String c s) m) eqn:Hp; [discriminate|].
    destruct (firstIndex s m) as [k|] eqn:Hk; [discriminate|]. intros _.
    destruct i as [|i].
    + rewrite occursAt_0. congruence.
    + rewrite occursAt_S. by apply IH.
Qed.

Lemma dropChars_app pre t : dropChars (String.length pre) (pre +:+ t) = t.
Proof. induction pre as [|c pre IH]; simpl; [by destruct t | exact IH]. Qed.

Lemma dropChars_occ pre m post :
  dropChars (String.length pre + String.length m) (pre +:+ m +:+ post) = post.
Proof.
  rewrite <- length_app_str, <- app_assoc_str. apply dropChars_app.
Qed.

Lemma hasNo_nil c : hasNo c "".
Proof. reflexivity. Qed.

Lemma hasNo_cons c d s : hasNo c (String d s) <-> d <> c /\ hasNo c s.
Proof.
  unfold hasNo; simpl. rewrite andb_true_iff, negb_true_iff.
  destruct (Ascii.eqb_spec d c); intuition congruence.
Qed.

Lemma split_not_nil s c : split s c <> [].
Proof.
  destruct s as [|d s]; simpl; [discriminate|].
  destruct (Ascii.eqb d c); [discriminate|]. by destruct (split s c).
Qed.

Lemma split_hasNo s c : hasNo c s -> split s c = [s].
Proof.
  induction s as [|d s IH]; [reflexivity|].
  rewrite hasNo_cons. intros [Hd Hs]. simpl.
  destruct (Ascii.eqb_spec d c); [done|]. by rewrite IH.
Qed.

Lemma split_segments s c : Forall (hasNo c) (split s c).
Proof.
  induction s as [|d s IH]; simpl.
  - repeat constructor.
  - destruct (Ascii.eqb_spec d c) as [->|Hne].
    + constructor; [apply hasNo_nil | exact IH].
    + destruct (split s c) as [|h t]; [repeat constructor; by apply hasNo_cons|].
      inversion IH; subst. constructor; [by apply hasNo_cons | done].
Qed.

Lemma join_split_replace s c d :
  join (split s c) (String d "") =
  mapChars (fun x => if Ascii.eqb x c then d else x) s.
Proof.
  induction s as [|x s IH]; [reflexivity|].
  cbn [split mapChars]. destruct (Ascii.eqb x c).
  - pose proof (split_not_nil s c) as Hne.
    cbn [join]. destruct (split s c) as [|h t] eqn:Hs; [done|].
    rewrite <- IH. reflexivity.
  - rewrite <- IH. destruct (split s c) as [|h t]; [reflexivity|].
    cbn [join]. destruct t; reflexivity.
Qed.

Lemma mapChars_mapChars f g s : mapChars g (mapChars f s) = mapChars (fun x => g (f x)) s.
Proof. induction s as [|x s IH]; simpl; [reflexivity | by rewrite IH]. Qed.

Lemma mapChars_ext f g s : (forall x, f x = g x) -> mapChars f s = mapChars g s.
Proof. intros H. induction s as [|x s IH]; simpl; [reflexivity | by rewrite H, IH]. Qed.

Lemma mapChars_hasNo f c s : (forall x, f x <> c) -> hasNo c (mapChars f s).
Proof.
  intros H. induction s as [|x s IH]; simpl; [apply hasNo_nil|].
  apply hasNo_cons; auto.
Qed.

Lemma mapChars_empty f s : mapChars f s = "" <-> s = "".
Proof. destruct s; simpl; split; congruence. Qed.

Lemma firstIndex_hasNo c m s : hasNo c s -> firstIndex s (String c m) = None.
Proof.
  induction s as [|d s IH]; [reflexivity|].
  rewrite hasNo_cons. intros [Hd Hs]. cbn [firstIndex startsWith].
  destruct (Ascii.eqb_spec c d); [congruence|]. by rewrite IH.
Qed.

Lemma arrayFirstIndex_None l x : arrayFirstIndex l x = None <-> x ∉ l.
Proof.
  induction l as [|y l IH]; simpl.
  - split; [intros _; apply not_elem_of_nil | done].
  - rewrite not_elem_of_cons. destruct (String.eqb_spec y x) as [->|Hne].
    + split; [discriminate | intros [? _]; congruence].
    + destruct (arrayFirstIndex l x) eqn:Hi; simpl.
      * split; [discriminate|]. intros [_ Hl]. apply IH in Hl. discriminate.
      * split; [|done]. intros _. split; [congruence | by apply IH].
Qed.

Lemma last_split_hasNo s c : hasNo c (lastOrEmpty (split s c)).
Proof.
  pose proof (split_segments s c) as HF. unfold lastOrEmpty.
  induction HF as [|h t Hh Ht IH]; [apply hasNo_nil|].
  destruct t; [exact Hh | exact IH].
Qed.

Lemma last_split_elem s c : lastOrEmpty (split s c) ∈ split s c.
Proof.
  pose proof (split_not_nil s c). unfold lastOrEmpty.
  induction (split s c) as [|h t IH]; [done|].
  destruct t; [apply list_elem_of_here | apply list_elem_of_further, IH; done].
Qed.

End JsFacts.

(** ** Path normalizer *)

Module PathNormalizerFacts.
Import Js JsProps JsFacts PathNormalizer.

Lemma includes_false s m : includes s m = false -> firstIndex s m = None.
Proof.
  unfold includes. intros H%bool_decide_eq_false.
  destruct (firstIndex s m); [exfalso; eauto | reflexivity].
Qed.

Lemma sanitize_replaceSlashes p :
  join (split (join (split p "/") "_") "\") "_" = replaceSlashes p.
Proof.
  rewrite !join_split_replace, mapChars_mapChars. apply mapChars_ext.
  intros x. destruct (Ascii.eqb_spec x "/") as [->|Hx]; [reflexivity|].
  destruct (Ascii.eqb x "\"); reflexivity.
Qed.

Lemma replaceSlashes_hasNo p : hasNo "/" (replaceSlashes p).
Proof.
  apply mapChars_hasNo. intros x.
  destruct (Ascii.eqb_spec x "/") as [->|Hx]; [discriminate|]. simpl.
  destruct (Ascii.eqb x "\"); [discriminate | exact Hx].
Qed.

(** A path without any "/" is returned as it is. *)
Lemma toRelativeAssetPath_hasNo p : hasNo "/" p -> toRelativeAssetPath p = p.
Proof.
  intros Hp. unfold toRelativeAssetPath, indexOf, assetsMarker.
  rewrite (firstIndex_hasNo _ _ _ Hp). cbn [orMinusOne Z.leb Z.compare].
  rewrite (split_hasNo _ _ Hp). unfold afterProjects, arrayIndexOf.
  cbn [arrayFirstIndex length]. destruct (String.eqb p "projects"); cbn.
  - destruct p; reflexivity.
  - destruct p; reflexivity.
Qed.

(** Without [/assets/] and without a usable [projects] segment the result is
    the last segment, or the sanitized path when that segment is empty. *)
Lemma toRelativeAssetPath_fallback p :
  includes p assetsMarker = false ->
  afterProjects (split p "/") = "" ->
  toRelativeAssetPath p =
    if truthyStr (lastOrEmpty (split p "/")) then lastOrEmpty (split p "/")
    else replaceSlashes p.
Proof.
  intros Hinc Hproj. unfold toRelativeAssetPath, indexOf.
  rewrite (includes_false _ _ Hinc). cbn [orMinusOne Z.leb Z.compare].
  rewrite Hproj. cbn [truthyStr String.eqb negb].
  by rewrite sanitize_replaceSlashes.
Qed.

Lemma afterProjects_absent parts : "projects" ∉ parts -> afterProjects parts = "".
Proof.
  intros H%arrayFirstIndex_None. unfold afterProjects, arrayIndexOf. by rewrite H.
Qed.

(** C2, as the code has it: when the path contains [/assets/], the result is
    what follows the FIRST (leftmost) occurrence of the marker: the path is
    [pre ++ "/assets/" ++ result] and no occurrence starts before [pre] ends. *)
Theorem toRelativeAssetPath_after_first_marker (p pre0 post0 : string) :
  p = pre0 +:+ assetsMarker +:+ post0 ->
  exists pre,
    p = pre +:+ assetsMarker +:+ toRelativeAssetPath p /\
    forall pre' post', p = pre' +:+ assetsMarker +:+ post' ->
                       (String.length pre <= String.length pre')%nat.
Proof.
  intros Hp.
  assert (Hocc : occursAt p assetsMarker (String.length pre0)) by (by exists pre0, post0).
  destruct (firstIndex p assetsMarker) as [i|] eqn:Hi.
  - destruct (firstIndex_Some _ _ _ Hi) as [(pre & post & Heq & Hlen) Hmin].
    exists pre. split.
    + unfold toRelativeAssetPath, indexOf. rewrite Hi. cbn [orMinusOne].
      destruct (Z.leb_spec 0 (Z.of_nat i)); [|lia].
      unfold substring. rewrite <- Nat2Z.inj_add, Nat2Z.id, <- Hlen.
      rewrite Heq at 2. by rewrite dropChars_occ.
    + intros pre' post' Hp'. rewrite Hlen. apply Hmin. by exists pre', post'.
  - by apply firstIndex_None with (i := String.length pre0) in Hi.
Qed.

Lemma toRelativeAssetPath_after_first_marker_witness :
  exists pre,
    "u1/assets/a/assets/b.png" = pre +:+ assetsMarker +:+ toRelativeAssetPath "u1/assets/a/assets/b.png" /\
    forall pre' post', "u1/assets/a/assets/b.png" = pre' +:+ assetsMarker +:+ post' ->
                       (String.length pre <= String.length pre')%nat.
Proof.
  apply (toRelativeAssetPath_after_first_marker "u1/assets/a/assets/b.png" "u1" "a/assets/b.png").
  reflexivity.
Defined.

(** C2, as the spec words it, fails: with two markers the code keeps what
    follows the first one, not the last one. *)
Lemma toRelativeAssetPath_not_after_last_marker :
  includes "a/assets/b/assets/c" assetsMarker = true /\
  toRelativeAssetPath "a/assets/b/assets/c" = "b/assets/c" /\
  afterLastMarker "a/assets/b/assets/c" = "c" /\
  toRelativeAssetPath "a/assets/b/assets/c" <> afterLastMarker "a/assets/b/assets/c".
Proof. repeat split; try reflexivity. vm_compute. discriminate. Qed.

(** C6: the normalizer is a total function on strings (no primitive it calls
    can fail), and on a path with no [/assets/] marker and no [projects]
    segment a second application changes nothing. *)
Theorem toRelativeAssetPath_idempotent (p : string) :
  includes p assetsMarker = false ->
  "projects" ∉ split p "/" ->
  exists r, toRelativeAssetPath p = r /\ toRelativeAssetPath r = r.
Proof.
  intros Hinc Hproj. eexists; split; [reflexivity|].
  rewrite (toRelativeAssetPath_fallback p Hinc (afterProjects_absent _ Hproj)).
  destruct (truthyStr _); apply toRelativeAssetPath_hasNo.
  - apply last_split_hasNo.
  - apply replaceSlashes_hasNo.
Qed.

Lemma toRelativeAssetPath_idempotent_witness :
  (exists r, toRelativeAssetPath "" = r /\ toRelativeAssetPath r = r) /\
  (exists r, toRelativeAssetPath "models/car.gltf" = r /\ toRelativeAssetPath r = r).
Proof.
  split.
  - apply (toRelativeAssetPath_idempotent ""); [reflexivity|].
    apply arrayFirstIndex_None. reflexivity.
  - apply (toRelativeAssetPath_idempotent "models/car.gltf"); [reflexivity|].
    apply arrayFirstIndex_None. reflexivity.
Defined.

(** C7, as the code has it: when rules 1 to 3 yield nothing the result is the
    path with every "/" and "\" replaced by "_"; it is empty exactly when the
    path is empty. *)
Theorem toRelativeAssetPath_sanitize (p : string) :
  includes p assetsMarker = false ->
  afterProjects (split p "/") = "" ->
  lastOrEmpty (split p "/") = "" ->
  toRelativeAssetPath p = replaceSlashes p /\
  (toRelativeAssetPath p = "" <-> p = "").
Proof.
  intros Hinc Hproj Hlast.
  rewrite (toRelativeAssetPath_fallback p Hinc Hproj), Hlast. cbn.
  split; [reflexivity | apply mapChars_empty].
Qed.

Lemma toRelativeAssetPath_sanitize_witness :
  (toRelativeAssetPath "models\tmp/" = replaceSlashes "models\tmp/" /\
   (toRelativeAssetPath "models\tmp/" = "" <-> "models\tmp/" = "")) /\
  toRelativeAssetPath "models\tmp/" = "models_tmp_".
Proof.
  split; [apply (toRelativeAssetPath_sanitize "models\tmp/"); reflexivity | reflexivity].
Defined.

(** C7, as the spec words it, fails: the empty path is normalized to the
    empty string. *)
Lemma toRelativeAssetPath_empty_is_empty :
  toRelativeAssetPath "" = "" /\ ~ (0 < String.length (toRelativeAssetPath ""))%nat.
Proof. split; [reflexivity | vm_compute; lia]. Qed.

End PathNormalizerFacts.

(** ** Override merge engine *)

Module OverridesFacts.
Import Js JsProps JsFacts PathNormalizer Json Overrides OverridesProps Fixtures.

Lemma truthyStr_true s : truthyStr s = true <-> s <> "".
Proof.
  unfold truthyStr. rewrite negb_true_iff.
  destruct (String.eqb_spec s ""); split; congruence.
Qed.

Lemma includes_nonempty u m : includes u (String m "") = true -> truthyStr u = true.
Proof. destruct u; [vm_compute; discriminate | reflexivity]. Qed.

Lemma shouldApplyOverride_spec slot value :
  slot <> SlotPrimitive ->
  shouldApplyOverride slot value = true <-> overrideWanted slot value.
Proof.
  intros Hprim. unfold shouldApplyOverride, overrideWanted.
  rewrite !orb_true_iff, andb_true_iff, negb_true_iff, truthyStr_true.
  assert (Hemb : isEmbedded slot = true <->
                 exists o u, slot = SlotObject o /\ url o = Some u /\ includes u "#" = true).
  { destruct slot as [| |o]; simpl.
    - split; [discriminate | intros (? & ? & ? & _); discriminate].
    - split; [discriminate | intros (? & ? & ? & _); discriminate].
    - destruct (url o) as [u|] eqn:Hu.
      + rewrite andb_true_iff. split.
        * intros [_ Hi]. by exists o, u.
        * intros (o' & u' & [= <-] & Hu' & Hi). rewrite Hu in Hu'.
          injection Hu' as <-. split; [by eapply includes_nonempty | done].
      + split; [discriminate|]. intros (o' & u' & [= <-] & Hu' & _). congruence. }
  rewrite Hemb.
  assert (Hemp : isSlotEmpty slot = true <-> slot = SlotEmpty).
  { destruct slot; simpl; split; congruence. }
  rewrite Hemp.
  destruct (String.eqb_spec (getFilenameFromUrl (currentPathOf slot)) (getFilenameFromUrl value));
    intuition congruence.
Qed.

Lemma loadTextureFromAssetPath_Some newTexture value :
  is_Some (loadTextureFromAssetPath newTexture value) <->
  value <> "" /\ is_Some (newTexture ("assets/" +:+ toRelativeAssetPath value)).
Proof.
  unfold loadTextureFromAssetPath. rewrite <- truthyStr_true.
  destruct (truthyStr value); simpl.
  - destruct (newTexture _); split.
    + intros _. split; [done | eauto].
    + eauto.
    + intros [? ?]; discriminate.
    + intros [_ [? ?]]; discriminate.
  - split; [intros [? ?]; discriminate | intros [? _]; discriminate].
Qed.

(** C3, as the code has it: a string override of a texture slot holding a
    texture or nothing replaces the slot exactly when the suppression rule
    asks for it AND the new texture could be loaded (non-empty value,
    constructor did not throw); in every other case the material is left as
    it was. *)
Theorem applyTextureOverride_replaces_iff
    (newTexture : string -> option Texture) (material : Material) (property value : string) :
  isTextureProperty property = true ->
  readSlot (props material !! property) <> SlotPrimitive ->
  let slot := readSlot (props material !! property) in
  ((exists tex, applyTextureOverride newTexture slot property value = Replaced tex) <->
   overrideWanted slot value /\ value <> "" /\
   is_Some (newTexture ("assets/" +:+ toRelativeAssetPath value))) /\
  (forall tex, applyTextureOverride newTexture slot property value = Replaced tex ->
     applyOverride newTexture material property (JStr value) =
     setProp material property (PTexture tex)) /\
  ((forall tex, applyTextureOverride newTexture slot property value <> Replaced tex) ->
     applyOverride newTexture material property (JStr value) = material).
Proof.
  intros Htex Hprim slot. split; [split|split].
  - intros [tex Hout]. revert Hout. unfold applyTextureOverride.
    destruct (shouldApplyOverride slot value) eqn:Hs; [|discriminate]. simpl.
    destruct (loadTextureFromAssetPath newTexture value) as [t|] eqn:Hl; [|discriminate].
    intros _. assert (Hsome : is_Some (loadTextureFromAssetPath newTexture value)) by eauto.
    apply loadTextureFromAssetPath_Some in Hsome as [? ?].
    split; [by apply shouldApplyOverride_spec | done].
  - intros (Hw & Hv & Hn). apply shouldApplyOverride_spec in Hw; [|done].
    assert (Hs : is_Some (loadTextureFromAssetPath newTexture value))
      by (by apply loadTextureFromAssetPath_Some).
    destruct Hs as [t Ht]. unfold applyTextureOverride. rewrite Hw, Ht. simpl.
    destruct slot as [| |o] eqn:Hslot; [|done|eauto].
    destruct (_ || _); eauto.
  - intros tex Hout. unfold applyOverride. rewrite Htex. fold slot. by rewrite Hout.
  - intros Hno. unfold applyOverride. rewrite Htex. fold slot.
    destruct (applyTextureOverride newTexture slot property value) eqn:Hout; try reflexivity.
    by destruct (Hno tex).
Qed.

Lemma applyTextureOverride_replaces_iff_witness :
  exists tex,
    applyTextureOverride plainTexture (readSlot (props carPaint !! "albedoTexture"))
      "albedoTexture" "u1/projects/p1/assets/red.png" = Replaced tex /\
    applyOverride plainTexture carPaint "albedoTexture" (JStr "u1/projects/p1/assets/red.png") =
      setProp carPaint "albedoTexture" (PTexture tex).
Proof.
  eexists. split; [vm_compute; reflexivity|].
  apply (applyTextureOverride_replaces_iff plainTexture carPaint
           "albedoTexture" "u1/projects/p1/assets/red.png").
  - reflexivity.
  - vm_compute. discriminate.
  - vm_compute. reflexivity.
Defined.

(** The spec's end-to-end override: a slot whose texture already has the
    basename "red.png" is left alone. *)
Example override_same_basename_kept :
  applyTextureOverride plainTexture (SlotObject redTexture)
    "albedoTexture" "u1/projects/p1/assets/red.png" = Kept /\
  getFilenameFromUrl "assets/textures/123e4567-e89b-12d3-a456-426614174000_red.png?v=2"
    = "red.png".
Proof. split; reflexivity. Qed.

(** C3, as the spec words it, fails: an empty-string override of an empty
    slot meets the rule's first case, yet nothing is loaded and the slot
    stays empty, even with a constructor that never throws. *)
Lemma applyTextureOverride_empty_value_not_applied :
  let material := mkMaterial "CarPaint" ∅ in
  isTextureProperty "albedoTexture" = true /\
  readSlot (props material !! "albedoTexture") = SlotEmpty /\
  applyTextureOverride plainTexture SlotEmpty "albedoTexture" "" = LoadFailed /\
  applyOverride plainTexture material "albedoTexture" (JStr "") = material.
Proof. repeat split. Qed.

Lemma copyIfPresent_Some o c x : o = Some x -> copyIfPresent o c = Some x.
Proof. by intros ->. Qed.

(** C4: when an override replaces a slot that held a texture, every UV
    property the old texture has (coordinate-set index, U/V offset, U/V
    scale, U/V/W angles, U/V wrap modes) is the new texture's value; when the
    slot was empty the coordinate-set index is 1 for [ambientTexture] and
    [lightmapTexture] and 0 for every other slot. *)
Theorem applyTextureOverride_uv_preserved
    (newTexture : string -> option Texture) (slot : SlotValue)
    (property value : string) (tex' : Texture) :
  applyTextureOverride newTexture slot property value = Replaced tex' ->
  (forall o, slot = SlotObject o ->
     Forall (fun f => forall x, f o = Some x -> f tex' = Some x) uvProperties) /\
  (slot = SlotEmpty ->
     coordinatesIndex tex' =
       Some (if bool_decide (property = "ambientTexture" \/ property = "lightmapTexture")
             then 1%float else 0%float)).
Proof.
  unfold applyTextureOverride.
  destruct (shouldApplyOverride slot value); [|discriminate]. simpl.
  destruct (loadTextureFromAssetPath newTexture value) as [tex|]; [|discriminate].
  destruct slot as [| |orig].
  - intros Hout. split; [discriminate|]. intros _. revert Hout.
    destruct (String.eqb_spec property "ambientTexture") as [->|Ha]; simpl.
    { intros [= <-]. reflexivity. }
    destruct (String.eqb_spec property "lightmapTexture") as [->|Hl]; simpl.
    { intros [= <-]. reflexivity. }
    intros [= <-]. rewrite bool_decide_eq_false_2; [reflexivity | intuition].
  - discriminate.
  - intros [= <-]. split; [|discriminate]. intros o [= <-].
    unfold uvProperties. repeat constructor; intros x Hx; simpl;
      by apply copyIfPresent_Some.
Qed.

Lemma applyTextureOverride_uv_preserved_witness :
  (exists tex',
     applyTextureOverride plainTexture (SlotObject blueTexture)
       "albedoTexture" "u1/projects/p1/assets/red.png" = Replaced tex' /\
     Forall (fun f => forall x, f blueTexture = Some x -> f tex' = Some x) uvProperties /\
     coordinatesIndex tex' = Some 1%float /\ wrapV tex' = Some 2%float /\
     name tex' = Some "red.png") /\
  (exists tex',
     applyTextureOverride plainTexture SlotEmpty
       "lightmapTexture" "u1/projects/p1/assets/bake.png" = Replaced tex' /\
     coordinatesIndex tex' = Some 1%float).
Proof.
  split.
  - eexists. split; [vm_compute; reflexivity|]. split; [|repeat split].
    eapply (applyTextureOverride_uv_preserved plainTexture (SlotObject blueTexture)
              "albedoTexture" "u1/projects/p1/assets/red.png");
      [vm_compute; reflexivity | reflexivity].
  - eexists. split; [vm_compute; reflexivity|].
    apply (applyTextureOverride_uv_preserved plainTexture SlotEmpty
             "lightmapTexture" "u1/projects/p1/assets/bake.png");
      [vm_compute; reflexivity | reflexivity].
Defined.

End OverridesFacts.

(** ** Environment configurator *)

Module EnvironmentFacts.
Import Json Environment.

(** C9: the fog-mode strings "exp2", "linear" and "exp" select the EXP2,
    LINEAR and EXP constants; any other value, and a missing one, selects
    NONE. *)
Theorem fogModeOf_mapping :
  fogModeOf (Some (JStr "exp2")) = FOGMODE_EXP2 /\
  fogModeOf (Some (JStr "linear")) = FOGMODE_LINEAR /\
  fogModeOf (Some (JStr "exp")) = FOGMODE_EXP /\
  forall fm : option Json,
    fm <> Some (JStr "exp2") -> fm <> Some (JStr "linear") -> fm <> Some (JStr "exp") ->
    fogModeOf fm = FOGMODE_NONE.
Proof.
  repeat split. intros fm H2 Hl He. unfold fogModeOf.
  destruct fm as [[| | |s|]|]; try reflexivity.
  destruct (String.eqb_spec s "linear") as [->|_]; [done|].
  destruct (String.eqb_spec s "exp") as [->|_]; [done|].
  destruct (String.eqb_spec s "exp2") as [->|_]; [done|]. reflexivity.
Qed.

Lemma fogModeOf_mapping_witness :
  fogModeOf (Some (JStr "EXP2")) = FOGMODE_NONE /\
  fogModeOf (Some (JNum 2%float)) = FOGMODE_NONE /\
  fogModeOf None = FOGMODE_NONE.
Proof.
  split; [|split];
    apply (proj2 (proj2 (proj2 fogModeOf_mapping))); discriminate.
Defined.

End EnvironmentFacts.

(** ** Node instantiator: cameras *)

Module CameraFacts.
Import Json Instantiator Fixtures.

(** C10: for an ArcRotate camera a saved [alpha], [beta] or [radius] of
    exactly 0 is replaced by the default (-PI/2, PI/2.5, the length of the
    node position or else 15), while a [minZ] or [maxZ] of 0 is kept. *)
Theorem arcRotate_zero_replaced_by_default
    (Vector3_length : Vector3.t -> float) (node : Node.t) (position rotation : Vector3.t)
    (props : CameraProps.t) :
  Node.camera node = Some props ->
  CameraProps.type props <> Some "Universal" ->
  exists alpha beta radius target lo hi,
    Camera.camera (buildCamera Vector3_length node position rotation) =
      Camera.ArcRotateCamera (Node.id node) alpha beta radius target lo hi /\
    (CameraProps.alpha props = Some 0%float ->
       alpha = PrimFloat.div (PrimFloat.opp Math_PI) 2%float) /\
    (CameraProps.beta props = Some 0%float ->
       beta = PrimFloat.div Math_PI 2.5%float) /\
    (CameraProps.radius props = Some 0%float ->
       radius = if truthyNum (Vector3_length position)
                then Vector3_length position else 15%float) /\
    (CameraProps.minZ props = Some 0%float ->
       Camera.minZ (buildCamera Vector3_length node position rotation) = 0%float) /\
    (CameraProps.maxZ props = Some 0%float ->
       Camera.maxZ (buildCamera Vector3_length node position rotation) = 0%float).
Proof.
  intros Hcam Hty. unfold buildCamera. rewrite Hcam. cbv zeta. unfold default, from_option, id.
  rewrite bool_decide_eq_false_2 by exact Hty.
  do 6 eexists. split; [reflexivity|]. cbn [Camera.minZ Camera.maxZ].
  repeat split; intros ->; reflexivity.
Qed.

Lemma arcRotate_zero_replaced_by_default_witness :
  exists alpha beta radius target lo hi,
    Camera.camera (buildCamera euclideanLength zeroCameraNode (Vector3.mk 0 3 4) Vector3.Zero) =
      Camera.ArcRotateCamera "cam1" alpha beta radius target lo hi /\
    (Some 0%float = Some 0%float ->
       alpha = PrimFloat.div (PrimFloat.opp Math_PI) 2%float) /\
    (Some 0%float = Some 0%float ->
       beta = PrimFloat.div Math_PI 2.5%float) /\
    (Some 0%float = Some 0%float ->
       radius = if truthyNum (euclideanLength (Vector3.mk 0 3 4))
                then euclideanLength (Vector3.mk 0 3 4) else 15%float) /\
    (Some 0%float = Some 0%float ->
       Camera.minZ (buildCamera euclideanLength zeroCameraNode (Vector3.mk 0 3 4) Vector3.Zero)
       = 0%float) /\
    (Some 0%float = Some 0%float ->
       Camera.maxZ (buildCamera euclideanLength zeroCameraNode (Vector3.mk 0 3 4) Vector3.Zero)
       = 0%float).
Proof.
  apply (arcRotate_zero_replaced_by_default euclideanLength zeroCameraNode
           (Vector3.mk 0 3 4) Vector3.Zero
           (CameraProps.mk (Some "ArcRotate") (Some 0%float) (Some 0%float) (Some 0%float)
              None None None (Some 0%float) (Some 0%float) (Some true))).
  - reflexivity.
  - discriminate.
Defined.

(** The camera built from a node whose five saved values are all 0. *)
Example zeroCameraNode_camera :
  buildCamera euclideanLength zeroCameraNode (Vector3.mk 0 3 4) Vector3.Zero =
  Camera.mk
    (Camera.ArcRotateCamera "cam1" (PrimFloat.div (PrimFloat.opp Math_PI) 2%float)
       (PrimFloat.div Math_PI 2.5%float) 5%float Vector3.Zero None None)
    0%float 0%float true.
Proof. reflexivity. Qed.

End CameraFacts.

(** ** Identity resolver *)

Module IdentityFacts.
Import Js JsProps JsFacts PathNormalizer Instantiator IdentityProps Fixtures.

Lemma hasNo_app c (a b : string) : hasNo c (a +:+ b) <-> hasNo c a /\ hasNo c b.
Proof.
  induction a as [|d a IH].
  - rewrite append_nil. split; [intros H; split; [apply hasNo_nil | exact H] | tauto].
  - rewrite append_cons, !hasNo_cons, IH. tauto.
Qed.

Lemma pretty_N_char_not_colon d : pretty_N_char d <> ":"%char.
Proof. unfold pretty_N_char. repeat case_match; discriminate. Qed.

Lemma pretty_N_go_hasNo_colon n s : hasNo ":" s -> hasNo ":" (pretty_N_go n s).
Proof.
  revert s. induction (N.lt_wf_0 n) as [n _ IH]; intros s Hs.
  destruct (decide (n = 0)%N) as [->|Hn].
  - by rewrite pretty_N_go_0.
  - rewrite pretty_N_go_step by lia. apply IH.
    + apply N.div_lt; lia.
    + apply hasNo_cons. split; [apply pretty_N_char_not_colon | exact Hs].
Qed.

Lemma pretty_nat_hasNo_colon (n : nat) : hasNo ":" (pretty n).
Proof.
  unfold pretty, pretty_nat, pretty, pretty_N.
  case_decide; [reflexivity|]. apply pretty_N_go_hasNo_colon, hasNo_nil.
Qed.

Lemma colon_tail_absurd (t d d' : string) :
  hasNo ":" d -> d <> t +:+ String ":" d'.
Proof.
  intros Hd ->. apply hasNo_app in Hd as [_ Hd].
  apply hasNo_cons in Hd as [Hd _]. done.
Qed.

Ltac norm_append H := repeat (rewrite append_cons in H || rewrite append_nil in H).

Lemma colon_split (a b d1 d2 : string) :
  hasNo ":" d1 -> hasNo ":" d2 ->
  a +:+ "::" +:+ d1 = b +:+ "::" +:+ d2 -> a = b /\ d1 = d2.
Proof.
  intros H1 H2. revert b. induction a as [|c a IH]; intros [|c' b] Heq.
  - norm_append Heq. by injection Heq.
  - exfalso. norm_append Heq. injection Heq as <- Heq.
    destruct b as [|c'' b]; norm_append Heq.
    + injection Heq as ->. apply hasNo_cons in H1 as [? _]. done.
    + injection Heq as <- Heq. by apply (colon_tail_absurd b d1 (String ":" d2)) in Heq.
  - exfalso. rewrite append_nil in Heq. norm_append Heq.
    injection Heq as -> Heq. symmetry in Heq.
    destruct a as [|c'' a]; norm_append Heq.
    + injection Heq as ->. apply hasNo_cons in H2 as [? _]. done.
    + injection Heq as <- Heq. by apply (colon_tail_absurd a d2 (String ":" d1)) in Heq.
  - rewrite !append_cons in Heq. injection Heq as -> Heq.
    destruct (IH b Heq) as [-> ->]. done.
Qed.

(** Keys are equal only for equal names and equal occurrence indices. *)
Lemma keyOf_inj nm1 i1 nm2 i2 : keyOf nm1 i1 = keyOf nm2 i2 -> nm1 = nm2 /\ i1 = i2.
Proof.
  unfold keyOf. intros H.
  apply colon_split in H as [-> Hp]; try apply pretty_nat_hasNo_colon.
  split; [reflexivity | by apply (inj pretty)].
Qed.

(** *** The counters of the two loops *)

Lemma countIn_app nm a b : countIn nm (a ++ b) = (countIn nm a + countIn nm b)%nat.
Proof. unfold countIn. by rewrite List.filter_app, length_app. Qed.

Lemma countIn_singleton nm : countIn nm [nm] = 1%nat.
Proof. unfold countIn. simpl. by rewrite String.eqb_refl. Qed.

Lemma countIn_singleton_ne nm nm' : nm <> nm' -> countIn nm [nm'] = 0%nat.
Proof.
  intros H. unfold countIn. simpl. by destruct (String.eqb_spec nm nm').
Qed.

Lemma counts_empty : counts ∅ [].
Proof. intros nm. by rewrite lookup_empty. Qed.

Lemma counts_step nameCounts seen nm :
  counts nameCounts seen ->
  counts (<[nm := (default 0%nat (nameCounts !! nm) + 1)%nat]> nameCounts) (seen ++ [nm]).
Proof.
  intros H nm'. rewrite countIn_app. destruct (decide (nm = nm')) as [<-|Hne].
  - by rewrite lookup_insert_eq, countIn_singleton, H.
  - rewrite lookup_insert_ne by done. rewrite countIn_singleton_ne by done.
    rewrite H. lia.
Qed.

Lemma walkMeshes_length sgIndex pv pe nameCounts meshes :
  length (walkMeshes sgIndex pv pe nameCounts meshes) = length meshes.
Proof.
  revert nameCounts. induction meshes as [|m meshes IH]; intros nc; simpl; [done|].
  by rewrite IH.
Qed.

Lemma walkMeshes_lookup sgIndex pv pe nameCounts seen meshes i mesh :
  counts nameCounts seen ->
  meshes !! i = Some mesh ->
  walkMeshes sgIndex pv pe nameCounts meshes !! i =
    Some (resolveMesh sgIndex pv pe
            (keyOf (meshName mesh)
                   (countIn (meshName mesh) (seen ++ take i (meshName <$> meshes))))
            (Mesh.ensureMetadata mesh)).
Proof.
  revert nameCounts seen i. induction meshes as [|m meshes IH]; intros nc seen i Hc Hi.
  - done.
  - destruct i as [|i]; cbn [walkMeshes].
    + injection Hi as ->. simpl. rewrite app_nil_r. by rewrite (Hc _).
    + simpl in Hi. change ((?a :: ?l) !! S i) with (l !! i).
      rewrite (IH _ (seen ++ [meshName m])%list i); [|by apply counts_step|done].
      by rewrite fmap_cons, firstn_cons, <- app_assoc.
Qed.

Lemma buildSgIndex_other nameCounts seen sgIndex childNodes k :
  counts nameCounts seen ->
  (forall j cn, childNodes !! j = Some cn ->
     keyOf (nodeName cn) (countIn (nodeName cn) (seen ++ take j (nodeName <$> childNodes))) <> k) ->
  buildSgIndex nameCounts sgIndex childNodes !! k = sgIndex !! k.
Proof.
  revert nameCounts seen sgIndex.
  induction childNodes as [|c childNodes IH]; intros nc seen sg Hc Hk; [done|].
  cbn [buildSgIndex]. rewrite (IH _ (seen ++ [nodeName c])%list).
  - rewrite lookup_insert_ne; [done|]. rewrite (Hc _).
    specialize (Hk 0%nat c eq_refl). simpl in Hk. by rewrite app_nil_r in Hk.
  - by apply counts_step.
  - intros j cn Hj. specialize (Hk (S j) cn Hj).
    rewrite fmap_cons, firstn_cons in Hk. by rewrite <- app_assoc.
Qed.

Lemma buildSgIndex_at nameCounts seen sgIndex childNodes j cn :
  counts nameCounts seen ->
  childNodes !! j = Some cn ->
  buildSgIndex nameCounts sgIndex childNodes
    !! keyOf (nodeName cn) (countIn (nodeName cn) (seen ++ take j (nodeName <$> childNodes)))
  = Some (mkEntry cn (tokenOf cn)).
Proof.
  revert nameCounts seen sgIndex j.
  induction childNodes as [|c childNodes IH]; intros nc seen sg j Hc Hj; [done|].
  destruct j as [|j]; cbn [buildSgIndex].
  - injection Hj as ->. simpl. rewrite app_nil_r.
    rewrite (buildSgIndex_other _ (seen ++ [nodeName cn])%list).
    + rewrite (Hc _). by rewrite lookup_insert_eq.
    + by apply counts_step.
    + intros j' cn' _ Heq. apply keyOf_inj in Heq as [Hn Hcount].
      rewrite Hn, !countIn_app, countIn_singleton in Hcount. lia.
  - simpl in Hj. rewrite fmap_cons, firstn_cons.
    change (nodeName c :: ?l) with ([nodeName c] ++ l)%list. rewrite app_assoc.
    apply IH; [by apply counts_step | done].
Qed.

Lemma occurrenceKey_Some names i key :
  occurrenceKey names i = Some key <->
  exists nm, names !! i = Some nm /\ key = keyOf nm (countIn nm (take i names)).
Proof.
  unfold occurrenceKey. destruct (names !! i) as [nm|]; simpl.
  - split; [intros [= <-]; eauto | intros (? & [= <-] & ->); done].
  - split; [done | intros (? & ? & _); done].
Qed.

(** The saved index holds, under the key of each child position, that child
    with its token, and nothing under any other key. *)
Lemma sgIndex_lookup childNodes j cn key :
  childNodes !! j = Some cn ->
  occurrenceKey (nodeName <$> childNodes) j = Some key ->
  buildSgIndex ∅ ∅ childNodes !! key = Some (mkEntry cn (tokenOf cn)).
Proof.
  intros Hj Hk. apply occurrenceKey_Some in Hk as (nm & Hnm & ->).
  rewrite list_lookup_fmap, Hj in Hnm. injection Hnm as <-.
  by rewrite <- (buildSgIndex_at ∅ [] ∅ childNodes j cn counts_empty Hj).
Qed.

Lemma sgIndex_lookup_None childNodes key :
  (forall j, occurrenceKey (nodeName <$> childNodes) j <> Some key) ->
  buildSgIndex ∅ ∅ childNodes !! key = None.
Proof.
  intros Hk. rewrite (buildSgIndex_other ∅ [] ∅ childNodes key counts_empty).
  - apply lookup_empty.
  - intros j cn Hj Heq. apply (Hk j). apply occurrenceKey_Some.
    exists (nodeName cn). by rewrite list_lookup_fmap, Hj.
Qed.

(** *** The resolver on one container *)

Lemma resolveIdentities_lookup exported node meshes i mesh key :
  actualMeshesOf meshes !! i = Some mesh ->
  occurrenceKey (meshName <$> actualMeshesOf meshes) i = Some key ->
  resolveIdentities exported node meshes !! i =
    Some (resolveMesh (buildSgIndex ∅ ∅ (childNodesOf exported node))
            (notFalse (Node.visible node)) (notFalse (Node.enabled node))
            key (Mesh.ensureMetadata mesh)).
Proof.
  intros Hi Hk. unfold resolveIdentities.
  rewrite (walkMeshes_lookup _ _ _ ∅ [] _ i mesh counts_empty Hi).
  apply occurrenceKey_Some in Hk as (nm & Hnm & ->).
  rewrite list_lookup_fmap, Hi in Hnm. injection Hnm as <-. reflexivity.
Qed.

(** The final mesh set of a loaded model: the meshes the walk kept are what
    is added to the scene. *)
Lemma loadModelFromAssets_final_meshes loader exported node scene meshes :
  truthyOptStr (Node.src node) = true ->
  loadContainer loader node scene = Some meshes ->
  meshes <> [] ->
  Scene.meshes (loadModelFromAssets loader exported node scene) =
    (Scene.meshes scene ++
     omap keptMesh
       (resolveIdentities exported node
          (map (fun mesh => Mesh.setParent mesh (Node.id node)) meshes)))%list.
Proof.
  intros Hsrc Hload Hne. unfold loadModelFromAssets. rewrite Hsrc, Hload. simpl.
  destruct meshes; [done | reflexivity].
Qed.

Lemma carGraph_loaded :
  let scene := loadModelFromAssets carLoader (Some carGraph) carNode Scene.empty in
  Scene.meshes scene = [stampedWheel 11 "t0"; stampedWheel 12 "t1"] /\
  Scene.disposedMeshes scene = [disposedDoor] /\
  length (Scene.meshes scene) = 2%nat /\
  Scene.trace scene =
    [StampStableId "wheel::0" "t0"; StampStableId "wheel::1" "t1"; DisposeMesh "door::0"].
Proof. vm_compute. repeat split. Qed.

Lemma loadModelFromAssets_final_disposed loader exported node scene meshes :
  truthyOptStr (Node.src node) = true ->
  loadContainer loader node scene = Some meshes ->
  meshes <> [] ->
  Scene.disposedMeshes (loadModelFromAssets loader exported node scene) =
    (Scene.disposedMeshes scene ++
     omap disposedMesh
       (resolveIdentities exported node
          (map (fun mesh => Mesh.setParent mesh (Node.id node)) meshes)))%list.
Proof.
  intros Hsrc Hload Hne. unfold loadModelFromAssets. rewrite Hsrc, Hload. simpl.
  destruct meshes; [done | reflexivity].
Qed.

(** The code's two selections are the ones of the statement. *)
Lemma childNodesOf_savedChildren exported node :
  childNodesOf exported node = savedChildren exported node.
Proof.
  unfold childNodesOf, savedChildren. apply List.filter_ext. intros n. apply andb_comm.
Qed.

Lemma actualMeshesOf_runtimeMeshes meshes : actualMeshesOf meshes = runtimeMeshes meshes.
Proof.
  unfold actualMeshesOf, runtimeMeshes. induction meshes as [|m meshes IH]; [done|].
  cbn [List.filter]. destruct (Mesh.isMesh m); cbn [andb List.filter]; [|exact IH].
  destruct (negb _); [by rewrite IH | exact IH].
Qed.

Lemma runtimeMeshes_setParent p meshes :
  runtimeMeshes (map (fun mesh => Mesh.setParent mesh p) meshes)
  = (fun mesh => Mesh.setParent mesh p) <$> runtimeMeshes meshes.
Proof.
  unfold runtimeMeshes. induction meshes as [|m meshes IH]; [done|].
  cbn [map List.filter Mesh.setParent Mesh.isMesh Mesh.name].
  destruct (_ && _); [|exact IH]. rewrite fmap_cons. by rewrite IH.
Qed.

Lemma meshName_setParent p (meshes : list Mesh.t) :
  meshName <$> ((fun mesh => Mesh.setParent mesh p) <$> meshes) = meshName <$> meshes.
Proof. rewrite <- list_fmap_compose. by apply list_fmap_ext. Qed.

Lemma omap_retained (resolved : list Resolution) : omap retained (fateOf <$> resolved) = omap keptMesh resolved.
Proof.
  induction resolved as [|[k m|k m] resolved IH]; [done| |]; cbn; by rewrite IH.
Qed.

Lemma omap_removed (resolved : list Resolution) : omap removed (fateOf <$> resolved) = omap disposedMesh resolved.
Proof.
  induction resolved as [|[k m|k m] resolved IH]; [done| |]; cbn; by rewrite IH.
Qed.

(** C1, as the code has it: the runtime meshes of a loaded container are its
    entries that are instances of BABYLON.Mesh, the root apart; they and the
    model's saved children are keyed by lowercased name and occurrence
    index.  The meshes the load adds to the scene are exactly the runtime
    meshes whose key is a saved child's key, in load order, each parented to
    the model and stamped with that child's token; the meshes it disposes
    are exactly the runtime meshes whose key is no saved child's key, and
    none of them is added.  On the spec's scene the first "Wheel" gets "t0",
    the second "t1", "Door" is disposed and two meshes remain. *)
Theorem loadModelFromAssets_by_occurrence_key :
  (forall (loader : string -> string -> Scene.t -> option (list Mesh.t))
          (exported : option (list Node.t)) (node : Node.t) (scene : Scene.t)
          (meshes : list Mesh.t),
     truthyOptStr (Node.src node) = true ->
     loadContainer loader node scene = Some meshes ->
     meshes <> [] ->
     let children := savedChildren exported node in
     let runtime := runtimeMeshes meshes in
     let final := loadModelFromAssets loader exported node scene in
     exists fates : list Fate,
       length fates = length runtime /\
       Scene.meshes final = (Scene.meshes scene ++ omap retained fates)%list /\
       Scene.disposedMeshes final = (Scene.disposedMeshes scene ++ omap removed fates)%list /\
       forall (i : nat) (mesh : Mesh.t) (key : string),
         runtime !! i = Some mesh ->
         occurrenceKey (meshName <$> runtime) i = Some key ->
         (forall j cn,
            children !! j = Some cn ->
            occurrenceKey (nodeName <$> children) j = Some key ->
            fates !! i =
              Some (Retained
                      (Mesh.setVisibility
                         (Mesh.setStableId
                            (Mesh.ensureMetadata (Mesh.setParent mesh (Node.id node)))
                            (tokenOf cn))
                         (opacity (notFalse (Node.visible cn) && notFalse (Node.enabled cn) &&
                                   notFalse (Node.visible node) &&
                                   notFalse (Node.enabled node)))))) /\
         ((forall j, occurrenceKey (nodeName <$> children) j <> Some key) ->
            fates !! i =
              Some (Removed
                      (Mesh.dispose
                         (Mesh.ensureMetadata (Mesh.setParent mesh (Node.id node))))))) /\
  (let scene := loadModelFromAssets carLoader (Some carGraph) carNode Scene.empty in
   Scene.meshes scene = [stampedWheel 11 "t0"; stampedWheel 12 "t1"] /\
   Scene.disposedMeshes scene = [disposedDoor] /\
   length (Scene.meshes scene) = 2%nat).
Proof.
  split.
  - intros loader exported node scene meshes Hsrc Hload Hne children runtime final.
    set (parented := map (fun mesh => Mesh.setParent mesh (Node.id node)) meshes).
    exists (fateOf <$> resolveIdentities exported node parented).
    assert (Hactual : actualMeshesOf parented
                      = (fun mesh => Mesh.setParent mesh (Node.id node)) <$> runtime).
    { subst parented runtime. by rewrite actualMeshesOf_runtimeMeshes, runtimeMeshes_setParent. }
    split; [|split; [|split]].
    + rewrite length_fmap. unfold resolveIdentities.
      by rewrite walkMeshes_length, Hactual, length_fmap.
    + subst final. rewrite omap_retained.
      by apply loadModelFromAssets_final_meshes.
    + subst final. rewrite omap_removed.
      by apply loadModelFromAssets_final_disposed.
    + intros i mesh key Hi Hk.
      assert (Hr : resolveIdentities exported node parented !! i =
                   Some (resolveMesh (buildSgIndex ∅ ∅ children)
                           (notFalse (Node.visible node)) (notFalse (Node.enabled node))
                           key (Mesh.ensureMetadata (Mesh.setParent mesh (Node.id node))))).
      { subst children. rewrite <- childNodesOf_savedChildren.
        apply resolveIdentities_lookup.
        - by rewrite Hactual, list_lookup_fmap, Hi.
        - by rewrite Hactual, meshName_setParent. }
      rewrite list_lookup_fmap, Hr. split.
      * intros j cn Hj Hkey. unfold resolveMesh.
        by rewrite (sgIndex_lookup _ j cn key Hj Hkey).
      * intros Hnone. unfold resolveMesh.
        by rewrite (sgIndex_lookup_None _ key Hnone).
  - pose proof carGraph_loaded as (H1 & H2 & H3 & _). by repeat split.
Qed.

Lemma loadModelFromAssets_by_occurrence_key_witness :
  exists fates : list Fate,
    length fates = 3%nat /\
    Scene.meshes (loadModelFromAssets carLoader (Some carGraph) carNode Scene.empty)
      = omap retained fates /\
    Scene.disposedMeshes (loadModelFromAssets carLoader (Some carGraph) carNode Scene.empty)
      = omap removed fates /\
    fates !! 1%nat = Some (Retained (stampedWheel 12 "t1")) /\
    fates !! 2%nat = Some (Removed disposedDoor).
Proof.
  destruct (proj1 loadModelFromAssets_by_occurrence_key carLoader (Some carGraph) carNode
              Scene.empty carMeshes eq_refl eq_refl ltac:(discriminate))
    as (fates & Hlen & Hmeshes & Hdisposed & Hfate).
  exists fates. split; [exact Hlen|]. split; [exact Hmeshes|]. split; [exact Hdisposed|].
  split.
  - apply (proj1 (Hfate 1%nat (loadedMesh "Wheel" 12) "wheel::1" eq_refl eq_refl)
             1%nat (wheelNode "t1")); reflexivity.
  - apply (proj2 (Hfate 2%nat (loadedMesh "Door" 13) "door::0" eq_refl eq_refl)).
    intros [|[|j]]; vm_compute; discriminate.
Defined.

(** C1, as the spec words it, fails: with only the root set apart, the
    first entry "Wheel" of this container has the key "wheel::0" of the
    saved child with token "t0", yet it is no BABYLON.Mesh and the load
    neither stamps nor disposes it, nor adds it to the scene; the second
    "Wheel" is stamped "t0" (not "t1"), and one mesh remains, not two. *)
Lemma loadModelFromAssets_skips_non_mesh_entries :
  let entries :=
    List.filter (fun m => negb (String.eqb (Mesh.name m) "__root__")) mixedCarMeshes in
  let children := savedChildren (Some carGraph) carNode in
  let final := loadModelFromAssets mixedCarLoader (Some carGraph) carNode Scene.empty in
  entries = [instancedWheel; loadedMesh "Wheel" 12; loadedMesh "Door" 13] /\
  occurrenceKey (meshName <$> entries) 0 = Some "wheel::0" /\
  occurrenceKey (meshName <$> entries) 1 = Some "wheel::1" /\
  children = [wheelNode "t0"; wheelNode "t1"] /\
  occurrenceKey (nodeName <$> children) 0 = Some "wheel::0" /\
  occurrenceKey (nodeName <$> children) 1 = Some "wheel::1" /\
  Scene.meshes final = [stampedWheel 12 "t0"] /\
  Scene.disposedMeshes final = [disposedDoor] /\
  Forall (fun m => Mesh.uniqueId m <> Mesh.uniqueId instancedWheel)
         (Scene.meshes final ++ Scene.disposedMeshes final).
Proof.
  vm_compute. repeat split. repeat constructor; discriminate.
Qed.

End IdentityFacts.

(** ** The two instantiation passes and the legacy lookup *)

Module PassFacts.
Import Js JsProps JsFacts PathNormalizer Instantiator TraceProps.

#[local] Hint Constructors guardedTrace : core.

Lemma guardedTrace_app tr1 tr2 :
  guardedTrace tr1 -> guardedTrace tr2 -> guardedTrace (tr1 ++ tr2).
Proof. induction 1; simpl; auto. Qed.

Lemma guardedTrace_no_lookup tr :
  Forall (fun e => isLookup e = false) tr -> guardedTrace tr.
Proof.
  induction 1 as [|e tr He _ IH]; [constructor|].
  apply guarded_cons; [by destruct e | exact IH].
Qed.

Lemma guardedTrace_lookup tr i uniq found :
  guardedTrace tr ->
  tr !! i = Some (FindByUniqueId uniq found) ->
  exists j token,
    i = S j /\ tr !! j = Some (FindByStableId token false) /\
    allDigits token = true /\ uniq = parseInt token.
Proof.
  intros Hg. revert i. induction Hg as [|e tr He Hg IH|token b tr Hd Hg IH]; intros i Hi.
  - done.
  - destruct i as [|i]; simpl in Hi.
    + injection Hi as ->. discriminate.
    + destruct (IH i Hi) as (j & t & -> & Hj & Ht & Hu). by exists (S j), t.
  - destruct i as [|[|i]]; simpl in Hi.
    + discriminate.
    + injection Hi as <- <-. by exists 0%nat, token.
    + destruct (IH i Hi) as (j & t & -> & Hj & Ht & Hu). by exists (S (S j)), t.
Qed.

(** The stamping pass does not look at handles: under other handles it
    makes the same decisions, with the same keys and tokens. *)
Lemma walkMeshes_relabel f sgIndex pv pe nameCounts meshes :
  walkMeshes sgIndex pv pe nameCounts (relabel f <$> meshes) =
  mapResolution (relabel f) <$> walkMeshes sgIndex pv pe nameCounts meshes.
Proof.
  revert nameCounts. induction meshes as [|m meshes IH]; intros nc; [reflexivity|].
  rewrite fmap_cons. cbn [walkMeshes]. rewrite fmap_cons. f_equal.
  - unfold resolveMesh. cbn [Mesh.name Mesh.ensureMetadata relabel].
    by destruct (sgIndex !! _).
  - apply IH.
Qed.

Lemma actualMeshesOf_relabel f meshes :
  actualMeshesOf (relabel f <$> meshes) = relabel f <$> actualMeshesOf meshes.
Proof.
  unfold actualMeshesOf. induction meshes as [|m meshes IH]; [reflexivity|].
  rewrite fmap_cons. cbn [List.filter relabel Mesh.isMesh].
  destruct (Mesh.isMesh m); [|exact IH].
  cbn [List.filter relabel Mesh.name]. destruct (negb _); [|exact IH].
  rewrite fmap_cons. by rewrite IH.
Qed.

Lemma resolveIdentities_relabel f exported node meshes :
  resolveIdentities exported node (relabel f <$> meshes) =
  mapResolution (relabel f) <$> resolveIdentities exported node meshes.
Proof.
  unfold resolveIdentities. by rewrite actualMeshesOf_relabel, walkMeshes_relabel.
Qed.

Lemma findChildMesh_guarded meshes token :
  guardedTrace (snd (findChildMesh meshes token)).
Proof.
  unfold findChildMesh. destruct (findIndex _ meshes); simpl; [auto|].
  destruct (allDigits token) eqn:Hd; simpl; auto.
Qed.

Section WithEngine.

Variable Vector3_length : Vector3.t -> float.
Variable LoadAssetContainerAsync : string -> string -> Scene.t -> option (list Mesh.t).
Variable nextUniqueId : Scene.t -> N.
Variable EXPORTED_SCENE_GRAPH : option (list Node.t).

#[local] Abbreviation loadModel := (loadModelFromAssets LoadAssetContainerAsync EXPORTED_SCENE_GRAPH).
#[local] Abbreviation instNode :=
  (instantiateNode Vector3_length LoadAssetContainerAsync nextUniqueId EXPORTED_SCENE_GRAPH).
#[local] Abbreviation pass1 :=
  (firstPass Vector3_length LoadAssetContainerAsync nextUniqueId EXPORTED_SCENE_GRAPH).
#[local] Abbreviation pass2 :=
  (secondPass Vector3_length LoadAssetContainerAsync nextUniqueId EXPORTED_SCENE_GRAPH).

(** The stamping pass leaves only stamp and dispose marks. *)
Lemma loadModelFromAssets_trace node scene :
  exists evs,
    Scene.trace (loadModel node scene) = (Scene.trace scene ++ evs)%list /\
    Forall (fun e => isLookup e = false) evs.
Proof.
  unfold loadModelFromAssets.
  destruct (negb _); [exists []; by rewrite app_nil_r|].
  destruct (loadContainer _ _ _) as [meshes|]; [|exists []; by rewrite app_nil_r].
  destruct (0 <? length meshes)%nat; [|exists []; by rewrite app_nil_r].
  eexists. split; [reflexivity|].
  apply Forall_forall. intros e [r [-> _]]%list_elem_of_fmap. by destruct r.
Qed.

Lemma instantiateChildMesh_trace node position rotation scaling scene :
  exists evs,
    Scene.trace (instantiateChildMesh node position rotation scaling scene) =
      (Scene.trace scene ++ evs)%list /\
    guardedTrace evs.
Proof.
  unfold instantiateChildMesh.
  destruct (getChildTokenFromId _) as [token|]; [|exists []; by rewrite app_nil_r].
  destruct (truthyStr token); [|exists []; by rewrite app_nil_r].
  pose proof (findChildMesh_guarded (Scene.meshes scene) token) as Hg.
  destruct (findChildMesh (Scene.meshes scene) token) as [found events]. simpl in Hg.
  destruct found as [i|].
  - exists events. split; [|done]. by destruct (_ !! i).
  - exists (events ++ [ChildMeshNotFound (Node.id node)])%list. split.
    + simpl. by rewrite app_assoc.
    + apply guardedTrace_app; auto.
Qed.

Lemma instantiateNode_trace node scene :
  exists evs,
    Scene.trace (instNode node scene) = (Scene.trace scene ++ evs)%list /\
    guardedTrace evs /\
    (isDeferred node = false -> Forall (fun e => isLookup e = false) evs).
Proof.
  unfold instantiateNode, isDeferred.
  destruct (String.eqb (Node.kind node) "camera") eqn:Hcam.
  { exists []. rewrite app_nil_r. split; [|by auto].
    unfold instantiateCamera. by destruct (default false _). }
  destruct (String.eqb (Node.kind node) "light") eqn:Hlight.
  { exists []. rewrite app_nil_r. by auto. }
  destruct (String.eqb (Node.kind node) "mesh") eqn:Hmesh.
  { destruct (includes (Node.id node) MESH_TAG && truthyOptStr (Node.parentId node)) eqn:Hchild.
    - destruct (instantiateChildMesh_trace node (Transform.position (Node.transform node))
                  (default Vector3.Zero (Transform.rotation (Node.transform node)))
                  (default Vector3.One (Transform.scaling (Node.transform node))) scene)
        as (evs & Htr & Hg).
      exists evs. split; [exact Htr|]. split; [exact Hg|].
      apply andb_true_iff in Hchild as [-> ->]. discriminate.
    - exists []. rewrite app_nil_r. split; [|by auto].
      destruct (String.eqb (Node.id node) "defaultCube"); [reflexivity|].
      destruct (String.eqb (Node.id node) "ground"); reflexivity. }
  destruct (String.eqb (Node.kind node) "model") eqn:Hmodel.
  { destruct (truthyOptStr (Node.src node)).
    - destruct (loadModelFromAssets_trace node scene) as (evs & Htr & Hno).
      exists evs. split; [exact Htr|]. split; [by apply guardedTrace_no_lookup | done].
    - exists []. rewrite app_nil_r. by auto. }
  exists []. rewrite app_nil_r. by auto.
Qed.

Lemma firstPass_spec nodes childMeshNodes scene :
  snd (pass1 nodes childMeshNodes scene) =
    (childMeshNodes ++ List.filter isDeferred nodes)%list /\
  exists evs,
    Scene.trace (fst (pass1 nodes childMeshNodes scene)) = (Scene.trace scene ++ evs)%list /\
    Forall (fun e => isLookup e = false) evs.
Proof.
  revert childMeshNodes scene.
  induction nodes as [|node nodes IH]; intros acc scene; cbn [firstPass List.filter].
  - simpl. rewrite app_nil_r. split; [done|].
    exists []. rewrite app_nil_r. split; [done | constructor].
  - destruct (isDeferred node) eqn:Hd.
    + destruct (IH (acc ++ [node])%list scene) as [Hs Hev].
      split; [by rewrite Hs, <- app_assoc | exact Hev].
    + destruct (IH acc (instNode node scene)) as [Hs (evs2 & Htr2 & Hno2)].
      split; [exact Hs|].
      destruct (instantiateNode_trace node scene) as (evs1 & Htr1 & _ & Hno1).
      exists (evs1 ++ evs2)%list. split.
      * by rewrite Htr2, Htr1, app_assoc.
      * apply Forall_app. auto.
Qed.

Lemma secondPass_trace childMeshNodes scene :
  exists evs,
    Scene.trace (pass2 childMeshNodes scene) = (Scene.trace scene ++ evs)%list /\
    guardedTrace evs.
Proof.
  unfold secondPass. revert scene.
  induction childMeshNodes as [|node nodes IH]; intros scene; simpl.
  - exists []. by rewrite app_nil_r.
  - destruct (IH (instNode node scene)) as (evs2 & Htr2 & Hg2).
    destruct (instantiateNode_trace node scene) as (evs1 & Htr1 & Hg1 & _).
    exists (evs1 ++ evs2)%list. split.
    + by rewrite Htr2, Htr1, app_assoc.
    + by apply guardedTrace_app.
Qed.

End WithEngine.

End PassFacts.

Module LegacyFallbackFacts.
Import Js Instantiator TraceProps PassFacts Fixtures.

(** C8: the search by numeric [uniqueId] is never run by the first pass,
    which includes the load-time stamping of every model; in the second pass
    it is run only right after the search by stable id of the same all-digit
    token found nothing; the stamping decisions do not depend on the meshes'
    handles; and a lookup whose stable id matches returns that mesh without
    a second search. *)
Theorem legacy_fallback_only_after_failed_stable_lookup
    (Vector3_length : Vector3.t -> float)
    (LoadAssetContainerAsync : string -> string -> Scene.t -> option (list Mesh.t))
    (nextUniqueId : Scene.t -> N) (EXPORTED_SCENE_GRAPH : option (list Node.t))
    (nodes : list Node.t) (scene : Scene.t) :
  let pass1 := firstPass Vector3_length LoadAssetContainerAsync nextUniqueId
                         EXPORTED_SCENE_GRAPH nodes [] scene in
  let final := instantiateGraph Vector3_length LoadAssetContainerAsync nextUniqueId
                                EXPORTED_SCENE_GRAPH nodes scene in
  exists evs1 evs2,
    snd pass1 = List.filter isDeferred nodes /\
    Scene.trace (fst pass1) = (Scene.trace scene ++ evs1)%list /\
    Scene.trace final = (Scene.trace scene ++ evs1 ++ evs2)%list /\
    Forall (fun e => isLookup e = false) evs1 /\
    (forall i uniq found,
       evs2 !! i = Some (FindByUniqueId uniq found) ->
       exists j token,
         i = S j /\ evs2 !! j = Some (FindByStableId token false) /\
         allDigits token = true /\ uniq = parseInt token) /\
    (forall node s, exists evs,
       Scene.trace (loadModelFromAssets LoadAssetContainerAsync EXPORTED_SCENE_GRAPH node s)
         = (Scene.trace s ++ evs)%list /\
       Forall (fun e => isLookup e = false) evs) /\
    (forall node meshes f,
       resolveIdentities EXPORTED_SCENE_GRAPH node (relabel f <$> meshes) =
       mapResolution (relabel f) <$> resolveIdentities EXPORTED_SCENE_GRAPH node meshes) /\
    (forall meshes token i,
       findIndex (Mesh.hasStableId token) meshes = Some i ->
       findChildMesh meshes token = (Some i, [FindByStableId token true])).
Proof.
  intros pass1 final.
  destruct (firstPass_spec Vector3_length LoadAssetContainerAsync nextUniqueId
              EXPORTED_SCENE_GRAPH nodes [] scene) as [Hdef (evs1 & Htr1 & Hno1)].
  fold pass1 in Hdef, Htr1.
  destruct (secondPass_trace Vector3_length LoadAssetContainerAsync nextUniqueId
              EXPORTED_SCENE_GRAPH (snd pass1) (fst pass1)) as (evs2 & Htr2 & Hg2).
  exists evs1, evs2. repeat split.
  - exact Hdef.
  - exact Htr1.
  - subst final. unfold instantiateGraph. fold pass1.
    destruct pass1 as [scene1 deferred]. simpl in *. by rewrite Htr2, Htr1, app_assoc.
  - exact Hno1.
  - intros i uniq found Hi. by apply (guardedTrace_lookup evs2 i uniq found Hg2).
  - intros node s. apply loadModelFromAssets_trace.
  - intros node meshes f. apply resolveIdentities_relabel.
  - intros meshes token i Hi. unfold findChildMesh. by rewrite Hi.
Qed.

(** The fallback does run: for the saved child "Hood" with token "11" the
    search by stable id fails in the second pass and the numeric search
    follows it. *)
Example legacyGraph_trace :
  Scene.trace (instantiateGraph euclideanLength carLoader countMeshes
                 (Some legacyGraph) legacyGraph Scene.empty) =
  [ StampStableId "wheel::0" "t0"; DisposeMesh "wheel::1"; DisposeMesh "door::0";
    FindByStableId "t0" true;
    FindByStableId "11" false; FindByUniqueId 11 true ].
Proof. vm_compute. reflexivity. Qed.

End LegacyFallbackFacts.

(** ** Visibility *)

Module VisibilityFacts.
Import Js Instantiator Fixtures.

(** The flag written by [instantiateNode] is the AND of the node's own two
    flags, as 1 or 0. *)
Lemma applyVisibility_own_flags node mesh :
  Mesh.visibility (applyVisibility node mesh) =
    (if notFalse (Node.visible node) && notFalse (Node.enabled node)
     then 1%float else 0%float).
Proof. reflexivity. Qed.

(** The flag written at load time also takes the model's two flags. *)
Lemma resolveMesh_inherits_parent sgIndex parentVisible parentEnabled key mesh entry :
  sgIndex !! key = Some entry ->
  exists mesh',
    resolveMesh sgIndex parentVisible parentEnabled key mesh = Stamped key mesh' /\
    Mesh.visibility mesh' =
      (if notFalse (Node.visible (node entry)) && notFalse (Node.enabled (node entry)) &&
          parentVisible && parentEnabled
       then 1%float else 0%float).
Proof. intros H. unfold resolveMesh. rewrite H. eexists. split; reflexivity. Qed.

(** The second pass writes the flag of a child mesh it finds from the child's
    own flags only, whatever the load-time value was. *)
Lemma instantiateChildMesh_own_flags node position rotation scaling scene token i mesh :
  getChildTokenFromId (Node.id node) = Some token ->
  truthyStr token = true ->
  fst (findChildMesh (Scene.meshes scene) token) = Some i ->
  Scene.meshes scene !! i = Some mesh ->
  exists mesh',
    Scene.meshes (instantiateChildMesh node position rotation scaling scene) !! i = Some mesh' /\
    Mesh.visibility mesh' =
      (if notFalse (Node.visible node) && notFalse (Node.enabled node)
       then 1%float else 0%float).
Proof.
  intros Ht Htr Hf Hm. unfold instantiateChildMesh. rewrite Ht, Htr.
  destruct (findChildMesh (Scene.meshes scene) token) as [found events].
  simpl in Hf. subst found. simpl. rewrite Hm.
  eexists. split.
  - simpl. apply list_lookup_insert_eq. by eapply lookup_lt_Some.
  - by destruct (Mesh.rotationQuaternion mesh).
Qed.

(** C5, on the code: for a visible child of a hidden model the flag is 0
    after the first pass (the parent's flags are ANDed in at load time), but
    the second pass overwrites it with the child's own flags, so the scene
    ends with the child mesh fully visible. *)
Theorem child_visibility_loses_parent_in_second_pass :
  notFalse (Node.visible hiddenCarNode) = false /\
  Mesh.visibility <$>
    Scene.meshes (fst (firstPass euclideanLength carLoader
                         countMeshes (Some hiddenCarGraph)
                         hiddenCarGraph [] Scene.empty)) = [0%float] /\
  Mesh.visibility <$>
    Scene.meshes (instantiateGraph euclideanLength carLoader
                    countMeshes (Some hiddenCarGraph)
                    hiddenCarGraph Scene.empty) = [1%float].
Proof. vm_compute. repeat split. Qed.

End VisibilityFacts.

(** ** More on the string primitives: round trips of [split] and [join] *)

Module JsMoreFacts.
Import Js JsProps JsFacts.

Lemma append_nil_r (s : string) : s +:+ "" = s.
Proof. induction s as [|c s IH]; [reflexivity|]. by rewrite append_cons, IH. Qed.

Lemma mapChars_length f s : String.length (mapChars f s) = String.length s.
Proof. induction s as [|c s IH]; simpl; [reflexivity | by rewrite IH]. Qed.

(** Joining the pieces of a split with the separator gives the string back. *)
Lemma join_split s c : join (split s c) (String c "") = s.
Proof.
  rewrite join_split_replace. induction s as [|x s IH]; simpl; [reflexivity|].
  rewrite IH. by destruct (Ascii.eqb_spec x c) as [->|].
Qed.

Lemma split_app_sep a c t : hasNo c a -> split (a +:+ String c t) c = a :: split t c.
Proof.
  induction a as [|x a IH]; intros Ha.
  - rewrite append_nil. simpl. by rewrite Ascii.eqb_refl.
  - apply hasNo_cons in Ha as [Hx Ha]. rewrite append_cons. simpl.
    destruct (Ascii.eqb_spec x c); [done|]. by rewrite (IH Ha).
Qed.

(** Splitting a join of separator-free pieces gives the pieces back. *)
Lemma split_join parts c :
  parts <> [] -> Forall (hasNo c) parts -> split (join parts (String c "")) c = parts.
Proof.
  induction parts as [|a parts IH]; [done|]. intros _ HF.
  inversion HF as [|? ? Ha Hrest]; subst. destruct parts as [|b parts].
  - simpl. by apply split_hasNo.
  - change (join (a :: b :: parts) (String c ""))
      with (a +:+ String c (join (b :: parts) (String c ""))).
    rewrite (split_app_sep a c _ Ha). by rewrite IH.
Qed.

Lemma join_drop_suffix parts sep k :
  exists pre, join parts sep = pre +:+ join (drop k parts) sep.
Proof.
  revert k. induction parts as [|a parts IH]; intros k.
  - exists "". by destruct k.
  - destruct k as [|k]; [by exists ""|]. cbn [drop].
    destruct (IH k) as [pre Hpre]. destruct parts as [|b parts].
    + exists a. destruct k; simpl; by rewrite append_nil_r.
    + exists (a +:+ sep +:+ pre).
      change (join (a :: b :: parts) sep) with (a +:+ sep +:+ join (b :: parts) sep).
      rewrite Hpre. by rewrite !app_assoc_str.
Qed.

Lemma join_last_suffix parts sep :
  exists pre, join parts sep = pre +:+ lastOrEmpty parts.
Proof.
  induction parts as [|a parts IH]; [by exists ""|].
  destruct parts as [|b parts]; [by exists ""|].
  destruct IH as [pre Hpre]. exists (a +:+ sep +:+ pre).
  change (join (a :: b :: parts) sep) with (a +:+ sep +:+ join (b :: parts) sep).
  rewrite Hpre. change (lastOrEmpty (a :: b :: parts)) with (lastOrEmpty (b :: parts)).
  by rewrite !app_assoc_str.
Qed.

Lemma split_app_pieces a c b :
  exists l, l <> [] /\ split (a +:+ String c b) c = (l ++ split b c)%list.
Proof.
  induction a as [|x a (l & Hl & IH)].
  - exists [""]. split; [done|]. rewrite append_nil. simpl. by rewrite Ascii.eqb_refl.
  - rewrite append_cons. cbn [split]. rewrite IH. destruct (Ascii.eqb x c).
    + exists ("" :: l). by split.
    + destruct l as [|h t]; [done|]. exists (String x h :: t). by split.
Qed.

Lemma last_app_nonempty (l1 l2 : list string) d :
  l2 <> [] -> List.last (l1 ++ l2) d = List.last l2 d.
Proof.
  intros H. induction l1 as [|a l1 IH]; [reflexivity|].
  simpl. destruct (l1 ++ l2)%list eqn:E; [|exact IH].
  apply app_eq_nil in E as [_ ->]. done.
Qed.

(** The last segment of [a ++ c ++ b] is the last segment of [b]. *)
Lemma lastSegment_app a c b :
  lastOrEmpty (split (a +:+ String c b) c) = lastOrEmpty (split b c).
Proof.
  destruct (split_app_pieces a c b) as (l & _ & ->).
  apply last_app_nonempty, split_not_nil.
Qed.

Lemma hasNo_suffix c pre s : hasNo c (pre +:+ s) -> hasNo c s.
Proof.
  induction pre as [|x pre IH]; [by rewrite append_nil|].
  rewrite append_cons. intros [_ H]%hasNo_cons. auto.
Qed.

Lemma split_keeps_hasNo d s c : hasNo d s -> Forall (hasNo d) (split s c).
Proof.
  induction s as [|x s IH]; intros Hs.
  - by repeat constructor.
  - apply hasNo_cons in Hs as [Hx Hs]. specialize (IH Hs). simpl.
    destruct (Ascii.eqb x c).
    + constructor; [apply hasNo_nil | exact IH].
    + destruct (split s c) as [|h t].
      * repeat constructor. by apply hasNo_cons.
      * inversion IH; subst. constructor; [by apply hasNo_cons | done].
Qed.

Lemma first_split_hasNo s c : hasNo c (firstOrEmpty (split s c)).
Proof.
  pose proof (split_segments s c) as HF. unfold firstOrEmpty.
  destruct HF; [apply hasNo_nil | done].
Qed.

Lemma first_split_keeps_hasNo d s c : hasNo d s -> hasNo d (firstOrEmpty (split s c)).
Proof.
  intros H. pose proof (split_keeps_hasNo d s c H) as HF. unfold firstOrEmpty.
  destruct HF; [apply hasNo_nil | done].
Qed.

Lemma includes_hasNo c s : hasNo c s -> includes s (String c "") = false.
Proof.
  intros H. unfold includes. rewrite (firstIndex_hasNo c "" s H).
  apply bool_decide_eq_false. by intros [? ?].
Qed.

Lemma arrayFirstIndex_app_fresh pre x l :
  x ∉ pre -> arrayFirstIndex (pre ++ x :: l) x = Some (length pre).
Proof.
  induction pre as [|y pre IH]; intros H.
  - simpl. by rewrite String.eqb_refl.
  - apply not_elem_of_cons in H as [Hne H]. simpl.
    destruct (String.eqb_spec y x); [congruence|]. by rewrite (IH H).
Qed.

End JsMoreFacts.

(** ** Path normalizer: shape of the result *)

Module PathCoverage.
Import Js JsProps JsFacts JsMoreFacts PathNormalizer PathNormalizerFacts.

Lemma truthyStr_iff s : truthyStr s = true <-> s <> "".
Proof.
  unfold truthyStr. rewrite negb_true_iff.
  destruct (String.eqb_spec s ""); split; congruence.
Qed.

(** The result is what stands at the end of the path, or the sanitized path. *)
Lemma toRelativeAssetPath_shape p :
  (exists pre, p = pre +:+ toRelativeAssetPath p) \/
  toRelativeAssetPath p = replaceSlashes p.
Proof.
  unfold toRelativeAssetPath, indexOf.
  destruct (firstIndex p assetsMarker) as [i|] eqn:Hi; cbn [orMinusOne].
  - left. destruct (firstIndex_Some _ _ _ Hi) as [(pre & post & Heq & Hlen) _].
    destruct (Z.leb_spec 0 (Z.of_nat i)); [|lia].
    exists (pre +:+ assetsMarker). unfold substring.
    rewrite <- Nat2Z.inj_add, Nat2Z.id, <- Hlen. rewrite Heq at 2.
    rewrite dropChars_occ. by rewrite app_assoc_str.
  - cbn [Z.leb Z.compare].
    destruct (truthyStr (afterProjects (split p "/"))) eqn:Hafter.
    + left. unfold afterProjects in *. destruct (_ && _).
      * unfold arraySlice.
        destruct (join_drop_suffix (split p "/") "/"
                    (Z.to_nat (arrayIndexOf (split p "/") "projects" + 2))) as [pre Hpre].
        exists pre. by rewrite <- Hpre, join_split.
      * discriminate.
    + destruct (truthyStr (lastOrEmpty (split p "/"))).
      * left. destruct (join_last_suffix (split p "/") "/") as [pre Hpre].
        exists pre. by rewrite <- Hpre, join_split.
      * right. apply sanitize_replaceSlashes.
Qed.

(** X1: the normalizer never invents text: its result is a suffix of the
    path, or the path with its separators replaced; so it is never longer
    than the path. *)
Theorem toRelativeAssetPath_suffix_or_sanitized (p : string) :
  ((exists pre, p = pre +:+ toRelativeAssetPath p) \/
   toRelativeAssetPath p = replaceSlashes p) /\
  (String.length (toRelativeAssetPath p) <= String.length p)%nat.
Proof.
  pose proof (toRelativeAssetPath_shape p) as Hs. split; [exact Hs|].
  destruct Hs as [[pre Hpre]|Hs].
  - rewrite Hpre at 2. rewrite length_app_str. lia.
  - rewrite Hs. unfold replaceSlashes. by rewrite mapChars_length.
Qed.

(** X2: for a storage path [.../projects/<id>/<tail>] without the
    [/assets/] marker, the folders after the project id are kept: the result
    is the tail, joined by "/". *)
Theorem toRelativeAssetPath_after_projects (pre tail : list string) (pid : string) :
  Forall (hasNo "/") (pre ++ "projects" :: pid :: tail) ->
  "projects" ∉ pre ->
  includes (join (pre ++ "projects" :: pid :: tail) "/") assetsMarker = false ->
  join tail "/" <> "" ->
  toRelativeAssetPath (join (pre ++ "projects" :: pid :: tail) "/") = join tail "/".
Proof.
  intros HF Hpre Hinc Htail.
  assert (Hne : (pre ++ "projects" :: pid :: tail)%list <> []) by (by destruct pre).
  unfold toRelativeAssetPath, indexOf.
  rewrite (includes_false _ _ Hinc). cbn [orMinusOne Z.leb Z.compare].
  rewrite (split_join _ "/" Hne HF).
  assert (Hafter : afterProjects (pre ++ "projects" :: pid :: tail) = join tail "/").
  { unfold afterProjects, arrayIndexOf.
    rewrite (arrayFirstIndex_app_fresh pre "projects" _ Hpre). cbn [orMinusOne].
    assert (Hlen : (Z.of_nat (length pre) + 2 <? Z.of_nat (length (pre ++ "projects" :: pid :: tail)))%Z = true).
    { apply Z.ltb_lt. rewrite length_app. simpl. destruct tail; [done|]. simpl. lia. }
    rewrite Hlen. destruct (Z.leb_spec 0 (Z.of_nat (length pre))); [|lia]. simpl.
    unfold arraySlice. replace (Z.to_nat (Z.of_nat (length pre) + 2)) with (length pre + 2)%nat by lia.
    rewrite drop_app_add'; [|done]. reflexivity. }
  rewrite Hafter. by rewrite (proj2 (truthyStr_iff _) Htail).
Qed.

Lemma toRelativeAssetPath_after_projects_witness :
  toRelativeAssetPath (join (["u1"] ++ "projects" :: "p1" :: ["models"; "car.gltf"]) "/")
  = join ["models"; "car.gltf"] "/".
Proof.
  apply (toRelativeAssetPath_after_projects ["u1"] ["models"; "car.gltf"] "p1").
  - repeat constructor.
  - apply arrayFirstIndex_None. reflexivity.
  - reflexivity.
  - discriminate.
Defined.

End PathCoverage.

(** ** Override merge engine: file names, repeated overrides, unknown
       materials *)

Module OverridesCoverage.
Import Js JsProps JsFacts JsMoreFacts PathNormalizer PathNormalizerFacts PathCoverage.
Import Json Overrides OverridesProps Fixtures.

Lemma skipUuidChars_suffix n s t :
  skipUuidChars n s = Some t -> exists pre, s = pre +:+ t.
Proof.
  revert s. induction n as [|n IH]; intros s; simpl.
  - intros [= ->]. by exists "".
  - destruct s as [|c s]; [done|]. destruct (isUuidChar c); [|done].
    intros [pre ->]%IH. by exists (String c pre).
Qed.

Lemma matchUuidPattern_suffix clean m1 :
  matchUuidPattern clean = Some m1 -> exists pre, clean = pre +:+ m1.
Proof.
  unfold matchUuidPattern.
  destruct (skipUuidChars 36 clean) as [[|c rest]|] eqn:Hs; [done| |done].
  destruct (_ && _); [|done]. intros [= <-].
  apply skipUuidChars_suffix in Hs as [pre ->].
  exists (pre +:+ String c ""). by rewrite app_assoc_str.
Qed.

(** X3: the file name extracted from a URL holds no "/", no "?" and no "#". *)
Theorem getFilenameFromUrl_is_clean (u : string) :
  hasNo "/" (getFilenameFromUrl u) /\
  hasNo "?" (getFilenameFromUrl u) /\
  hasNo "#" (getFilenameFromUrl u).
Proof.
  unfold getFilenameFromUrl. destruct (negb (truthyStr u)); [by repeat split|].
  set (lastPart := lastOrEmpty (split u "/")).
  set (noQuery := firstOrEmpty (split lastPart "?")).
  set (clean := firstOrEmpty (split noQuery "#")).
  assert (H1 : hasNo "/" lastPart) by apply last_split_hasNo.
  assert (H2 : hasNo "/" noQuery) by (by apply first_split_keeps_hasNo).
  assert (H3 : hasNo "?" noQuery) by apply first_split_hasNo.
  assert (H4 : hasNo "/" clean) by (by apply first_split_keeps_hasNo).
  assert (H5 : hasNo "?" clean) by (by apply first_split_keeps_hasNo).
  assert (H6 : hasNo "#" clean) by apply first_split_hasNo.
  destruct (matchUuidPattern clean) as [m1|] eqn:Hm; [|done].
  apply matchUuidPattern_suffix in Hm as [pre Hpre]. rewrite Hpre in H4, H5, H6.
  split; [|split]; eapply hasNo_suffix; eassumption.
Qed.

Lemma last_drop (l : list string) k d :
  (k < length l)%nat -> List.last (drop k l) d = List.last l d.
Proof.
  revert k. induction l as [|a l IH]; intros k Hk; [simpl in Hk; lia|].
  destruct k as [|k]; [done|]. cbn [drop]. simpl in Hk.
  rewrite IH by lia. destruct l; [simpl in Hk; lia | done].
Qed.

Lemma Forall_drop_hasNo c (l : list string) k :
  Forall (hasNo c) l -> Forall (hasNo c) (drop k l).
Proof. apply Forall_drop. Qed.

(** Normalizing a path keeps its last segment when that segment is not
    empty. *)
Lemma lastSegment_toRelativeAssetPath v :
  lastOrEmpty (split v "/") <> "" ->
  lastOrEmpty (split (toRelativeAssetPath v) "/") = lastOrEmpty (split v "/").
Proof.
  intros Hlast. unfold toRelativeAssetPath, indexOf.
  destruct (firstIndex v assetsMarker) as [i|] eqn:Hi; cbn [orMinusOne].
  - destruct (firstIndex_Some _ _ _ Hi) as [(pre & post & Heq & Hlen) _].
    destruct (Z.leb_spec 0 (Z.of_nat i)); [|lia].
    unfold substring. rewrite <- Nat2Z.inj_add, Nat2Z.id, <- Hlen.
    rewrite Heq at 1. rewrite dropChars_occ.
    assert (Hv : v = (pre +:+ "/assets") +:+ String "/" post)
      by (rewrite Heq, app_assoc_str; reflexivity).
    rewrite Hv. by rewrite lastSegment_app.
  - cbn [Z.leb Z.compare].
    destruct (truthyStr (afterProjects (split v "/"))) eqn:Hafter.
    + unfold afterProjects in *.
      destruct (0 <=? arrayIndexOf (split v "/") "projects") eqn:H0; [|discriminate].
      destruct (arrayIndexOf (split v "/") "projects" + 2 <? Z.of_nat (length (split v "/"))) eqn:H2;
        [|discriminate].
      cbn [andb] in *. unfold arraySlice.
      apply Z.leb_le in H0. apply Z.ltb_lt in H2.
      set (k := Z.to_nat (arrayIndexOf (split v "/") "projects" + 2)).
      assert (Hk : (k < length (split v "/"))%nat) by (unfold k; lia).
      rewrite split_join.
      * unfold lastOrEmpty. by apply last_drop.
      * intros Hnil. apply (f_equal length) in Hnil. rewrite length_drop in Hnil.
        simpl in Hnil. lia.
      * apply Forall_drop, split_segments.
    + destruct (truthyStr (lastOrEmpty (split v "/"))) eqn:Hf.
      * by rewrite (split_hasNo _ _ (last_split_hasNo v "/")).
      * apply negb_false_iff in Hf. by apply String.eqb_eq in Hf.
Qed.

Lemma asset_url_same_filename (v : string) :
  lastOrEmpty (split v "/") <> "" ->
  getFilenameFromUrl ("assets/" +:+ toRelativeAssetPath v) = getFilenameFromUrl v.
Proof.
  intros Hlast.
  assert (Hv : truthyStr v = true) by (apply truthyStr_iff; by intros ->).
  unfold getFilenameFromUrl. rewrite Hv. cbn [negb].
  change ("assets/" +:+ toRelativeAssetPath v)
    with (String "a" ("ssets" +:+ String "/" (toRelativeAssetPath v))).
  cbn [truthyStr String.eqb negb].
  change (String "a" ("ssets" +:+ String "/" (toRelativeAssetPath v)))
    with ("assets" +:+ String "/" (toRelativeAssetPath v)).
  by rewrite lastSegment_app, lastSegment_toRelativeAssetPath.
Qed.

(** X4: the URL a storage path is loaded from has the same file name as the
    path itself, whenever the path does not end in "/". *)
Theorem getFilenameFromUrl_of_asset_url (v : string) :
  lastOrEmpty (split v "/") <> "" ->
  getFilenameFromUrl ("assets/" +:+ toRelativeAssetPath v) = getFilenameFromUrl v.
Proof.
  intros Hlast.
  assert (Hv : truthyStr v = true) by (apply truthyStr_iff; by intros ->).
  unfold getFilenameFromUrl. rewrite Hv. cbn [negb].
  change ("assets/" +:+ toRelativeAssetPath v)
    with (String "a" ("ssets" +:+ String "/" (toRelativeAssetPath v))).
  cbn [truthyStr String.eqb negb].
  change (String "a" ("ssets" +:+ String "/" (toRelativeAssetPath v)))
    with ("assets" +:+ String "/" (toRelativeAssetPath v)).
  by rewrite lastSegment_app, lastSegment_toRelativeAssetPath.
Qed.

Lemma getFilenameFromUrl_of_asset_url_witness :
  getFilenameFromUrl ("assets/" +:+ toRelativeAssetPath "u1/projects/p1/assets/tex/red.png?v=2")
  = getFilenameFromUrl "u1/projects/p1/assets/tex/red.png?v=2".
Proof.
  apply (getFilenameFromUrl_of_asset_url "u1/projects/p1/assets/tex/red.png?v=2").
  discriminate.
Defined.

Lemma mapChars_keeps_hasNo f c s :
  (forall x, x <> c -> f x <> c) -> hasNo c s -> hasNo c (mapChars f s).
Proof.
  intros Hf. induction s as [|x s IH]; [done|].
  intros [Hx Hs]%hasNo_cons. simpl. apply hasNo_cons. auto.
Qed.

Lemma toRelativeAssetPath_keeps_hasNo_hash v :
  hasNo "#" v -> hasNo "#" (toRelativeAssetPath v).
Proof.
  intros Hv. destruct (toRelativeAssetPath_shape v) as [[pre Hpre]|Hs].
  - rewrite Hpre in Hv. by eapply hasNo_suffix.
  - rewrite Hs. apply mapChars_keeps_hasNo; [|done].
    intros x Hx. destruct (_ || _); [discriminate | done].
Qed.

Lemma getFilenameFromUrl_trailing_slash v :
  lastOrEmpty (split v "/") = "" -> getFilenameFromUrl v = "".
Proof.
  intros H. unfold getFilenameFromUrl. destruct (negb (truthyStr v)); [done|].
  by rewrite H.
Qed.

(** The texture that replaced a slot was loaded from the normalized path. *)
Lemma applyTextureOverride_Replaced_url newTexture slot property value tex :
  (forall u t, newTexture u = Some t -> url t = Some u) ->
  applyTextureOverride newTexture slot property value = Replaced tex ->
  url tex = Some ("assets/" +:+ toRelativeAssetPath value).
Proof.
  intros Hurl. unfold applyTextureOverride, loadTextureFromAssetPath.
  destruct (negb (shouldApplyOverride slot value)); [done|].
  destruct (negb (truthyStr value)); [done|].
  destruct (newTexture _) as [t|] eqn:Ht; [|done].
  apply Hurl in Ht. destruct slot as [| |o].
  - destruct (_ || _); intros [= <-]; exact Ht.
  - done.
  - intros [= <-]. exact Ht.
Qed.

(** A slot that holds the texture loaded for [value] is not overridden by
    [value] again. *)
Lemma shouldApplyOverride_same_value tex value :
  hasNo "#" value ->
  url tex = Some ("assets/" +:+ toRelativeAssetPath value) ->
  shouldApplyOverride (SlotObject tex) value = false.
Proof.
  intros Hhash Hurl. unfold shouldApplyOverride. cbn [isSlotEmpty isEmbedded currentPathOf].
  rewrite Hurl. cbn [orb].
  assert (Hno : includes ("assets/" +:+ toRelativeAssetPath value) "#" = false).
  { apply includes_hasNo.
    change ("assets/" +:+ toRelativeAssetPath value)
      with (String "a" (String "s" (String "s" (String "e" (String "t" (String "s"
             (String "/" (toRelativeAssetPath value)))))))).
    repeat (apply hasNo_cons; split; [discriminate|]).
    by apply toRelativeAssetPath_keeps_hasNo_hash. }
  rewrite Hno, andb_false_r. cbn [orb].
  assert (Hcur : firstTruthy (Some ("assets/" +:+ toRelativeAssetPath value)) (name tex)
                 = "assets/" +:+ toRelativeAssetPath value) by reflexivity.
  rewrite Hcur.
  destruct (String.eqb_spec (lastOrEmpty (split value "/")) "") as [He|Hne].
  - rewrite (getFilenameFromUrl_trailing_slash value He). by rewrite andb_false_r.
  - rewrite (asset_url_same_filename value Hne).
    by rewrite String.eqb_refl.
Qed.

(** X5: applying the same texture override a second time changes nothing,
    when the engine's texture keeps the URL it was built from and the value
    has no "#": the first application leaves a texture with the override's
    file name, which the suppression rule then keeps. *)
Theorem applyOverride_texture_twice
    (newTexture : string -> option Texture) (material : Material) (property value : string) :
  isTextureProperty property = true ->
  hasNo "#" value ->
  (forall u t, newTexture u = Some t -> url t = Some u) ->
  applyOverride newTexture (applyOverride newTexture material property (JStr value))
                property (JStr value)
  = applyOverride newTexture material property (JStr value).
Proof.
  intros Htex Hhash Hurl.
  assert (Hinner : applyOverride newTexture material property (JStr value) =
                   match applyTextureOverride newTexture
                           (readSlot (props material !! property)) property value with
                   | Replaced tex => setProp material property (PTexture tex)
                   | _ => material
                   end) by (unfold applyOverride; by rewrite Htex).
  destruct (applyTextureOverride newTexture (readSlot (props material !! property))
              property value) as [| | |tex] eqn:Hout;
    rewrite Hinner; try exact Hinner.
  unfold applyOverride. rewrite Htex. cbn [setProp props].
  rewrite lookup_insert_eq. cbn [readSlot].
  unfold applyTextureOverride.
  rewrite (shouldApplyOverride_same_value tex value Hhash
             (applyTextureOverride_Replaced_url _ _ _ _ _ Hurl Hout)).
  reflexivity.
Qed.

Lemma applyOverride_texture_twice_witness :
  applyOverride plainTexture
    (applyOverride plainTexture carPaint "albedoTexture" (JStr "u1/projects/p1/assets/red.png"))
    "albedoTexture" (JStr "u1/projects/p1/assets/red.png")
  = applyOverride plainTexture carPaint "albedoTexture" (JStr "u1/projects/p1/assets/red.png").
Proof.
  apply (applyOverride_texture_twice plainTexture carPaint "albedoTexture"
           "u1/projects/p1/assets/red.png").
  - reflexivity.
  - reflexivity.
  - intros u t [= <-]. reflexivity.
Defined.

Lemma updateFirstByName_absent materials n f :
  (forall m, m ∈ materials -> materialName m <> n) ->
  updateFirstByName materials n f = materials.
Proof.
  induction materials as [|m materials IH]; intros H; [done|]. simpl.
  destruct (String.eqb_spec (materialName m) n) as [He|_].
  - exfalso. apply (H m); [apply list_elem_of_here | done].
  - rewrite IH; [done|]. intros m' Hm'. apply H. by apply list_elem_of_further.
Qed.

(** X6: overrides for material names that no material of the scene has
    change nothing. *)
Theorem applyMaterialOverrides_unknown_names
    (newTexture : string -> option Texture) (materials : list Material)
    (overrides : list (string * list (string * Json))) :
  (forall entry m, entry ∈ overrides -> m ∈ materials -> materialName m <> fst entry) ->
  applyMaterialOverrides newTexture materials overrides = materials.
Proof.
  unfold applyMaterialOverrides. induction overrides as [|entry overrides IH]; intros H.
  - reflexivity.
  - simpl. rewrite updateFirstByName_absent.
    + apply IH. intros e m He Hm. apply H; [by apply list_elem_of_further | done].
    + intros m Hm. apply H; [apply list_elem_of_here | done].
Qed.

Lemma applyMaterialOverrides_unknown_names_witness :
  applyMaterialOverrides plainTexture [carPaint]
    [("Glass", [("alpha", JNum 0.5%float)]); ("Chrome", [("albedoTexture", JStr "a/b.png")])]
  = [carPaint].
Proof.
  apply (applyMaterialOverrides_unknown_names plainTexture [carPaint]).
  intros entry m He Hm.
  apply list_elem_of_singleton in Hm as ->.
  apply elem_of_cons in He as [->|He]; [discriminate|].
  apply list_elem_of_singleton in He as ->. discriminate.
Defined.

(** X7: one override entry touches at most the first material that has its
    name: the list keeps its length, and every material with another name,
    or behind an earlier material of that name, is left as it was. *)
Theorem applyMaterialOverrides_first_match_only
    (newTexture : string -> option Texture) (materials : list Material)
    (n : string) (properties : list (string * Json)) (i : nat) (m : Material) :
  materials !! i = Some m ->
  (materialName m <> n \/
   exists j m', (j < i)%nat /\ materials !! j = Some m' /\ materialName m' = n) ->
  length (applyMaterialOverrides newTexture materials [(n, properties)]) = length materials /\
  applyMaterialOverrides newTexture materials [(n, properties)] !! i = Some m.
Proof.
  unfold applyMaterialOverrides. cbn [foldl fst snd].
  revert i. induction materials as [|m0 materials IH]; intros i Hi Hcase; [done|].
  cbn [updateFirstByName].
  destruct (String.eqb_spec (materialName m0) n) as [He|Hne].
  - split; [reflexivity|]. destruct i as [|i]; [|exact Hi].
    injection Hi as ->. destruct Hcase as [Hc|(j & _ & Hj & _)]; [done | lia].
  - destruct i as [|i].
    + split; [|exact Hi]. simpl. f_equal.
      clear. induction materials as [|a l IHl]; [done|]. simpl.
      destruct (String.eqb _ _); simpl; [done | by rewrite IHl].
    + simpl in Hi. destruct (IH i Hi) as [Hlen Hlook].
      * destruct Hcase as [Hc|(j & m' & Hj & Hjm & Hn)]; [by left|].
        destruct j as [|j]; [injection Hjm as ->; done|].
        right. exists j, m'. repeat split; [lia | exact Hjm | exact Hn].
      * split; [simpl; by rewrite Hlen | exact Hlook].
Qed.

Lemma applyMaterialOverrides_first_match_only_witness :
  length (applyMaterialOverrides plainTexture [carPaint; carPaint]
            [("CarPaint", [("albedoTexture", JStr "u1/projects/p1/assets/red.png")])]) = 2%nat /\
  applyMaterialOverrides plainTexture [carPaint; carPaint]
    [("CarPaint", [("albedoTexture", JStr "u1/projects/p1/assets/red.png")])] !! 1%nat
  = Some carPaint.
Proof.
  apply (applyMaterialOverrides_first_match_only plainTexture [carPaint; carPaint]
           "CarPaint" _ 1%nat carPaint).
  - reflexivity.
  - right. exists 0%nat, carPaint. repeat split. lia.
Defined.

Lemma applyOverride_other newTexture material property value q :
  q <> property ->
  props (applyOverride newTexture material property value) !! q = props material !! q.
Proof.
  intros Hq. unfold applyOverride.
  assert (Hset : forall v, props (setProp material property v) !! q = props material !! q).
  { intros v. unfold setProp. cbn [props]. by apply lookup_insert_ne. }
  destruct value; try apply Hset.
  destruct (isTextureProperty property); [|apply Hset].
  destruct (applyTextureOverride _ _ _ _); first [apply Hset | reflexivity].
Qed.

(** X25: the overrides of one material touch only the properties they
    name: every other property of the material, texture slot or not, is
    after the overrides what it was before. *)
Theorem applyProperties_touches_only_listed
    (newTexture : string -> option Texture) (material : Material)
    (properties : list (string * Json)) (q : string) :
  q ∉ properties.*1 ->
  props (applyProperties newTexture material properties) !! q = props material !! q.
Proof.
  unfold applyProperties. revert material.
  induction properties as [|[property value] properties IH]; intros material Hq; [done|].
  cbn [foldl fst snd]. rewrite fmap_cons in Hq. cbn [fst] in Hq.
  apply not_elem_of_cons in Hq as [Hne Hq].
  rewrite (IH _ Hq). by apply applyOverride_other.
Qed.

Lemma applyProperties_touches_only_listed_witness :
  props (applyProperties plainTexture carPaint
           [("alpha", JNum 0.5%float); ("metallic", JNum 1%float)]) !! "albedoTexture"
  = Some (PTexture blueTexture).
Proof.
  rewrite (applyProperties_touches_only_listed plainTexture carPaint
             [("alpha", JNum 0.5%float); ("metallic", JNum 1%float)] "albedoTexture").
  - reflexivity.
  - intros [H|H%list_elem_of_singleton]%elem_of_cons; discriminate.
Defined.

End OverridesCoverage.

(** ** Identity resolver: which meshes are kept *)

Module IdentityCoverage.
Import Js JsProps JsFacts PathNormalizer Instantiator IdentityProps Fixtures IdentityFacts.

Lemma countIn_cons nm a l :
  countIn nm (a :: l) = ((if String.eqb nm a then 1 else 0) + countIn nm l)%nat.
Proof. unfold countIn. simpl. by destruct (String.eqb nm a). Qed.

Lemma countIn_take_le nm (l : list string) a :
  (countIn nm (take a l) <= countIn nm l)%nat.
Proof.
  revert a. induction l as [|x l IH]; intros [|a]; simpl; try (unfold countIn; simpl; lia).
  rewrite !countIn_cons. specialize (IH a). lia.
Qed.

Lemma countIn_take_S nm (l : list string) i :
  l !! i = Some nm -> countIn nm (take (S i) l) = S (countIn nm (take i l)).
Proof.
  intros H. rewrite (take_S_r _ _ _ H), countIn_app, countIn_singleton. lia.
Qed.

Lemma countIn_take_mono nm (l : list string) a b :
  (a <= b)%nat -> (countIn nm (take a l) <= countIn nm (take b l))%nat.
Proof.
  intros Hab. replace (take a l) with (take a (take b l)).
  - apply countIn_take_le.
  - rewrite take_take. f_equal. lia.
Qed.

(** The [k]-th occurrence of a name exists exactly when the name occurs more
    than [k] times. *)
Lemma occurrence_exists nm (names : list string) k :
  (k < countIn nm names)%nat <->
  exists j, names !! j = Some nm /\ countIn nm (take j names) = k.
Proof.
  split.
  - revert k. induction names as [|a l IH]; intros k Hk.
    + unfold countIn in Hk. simpl in Hk. lia.
    + rewrite countIn_cons in Hk. destruct (String.eqb_spec nm a) as [<-|Hne].
      * destruct k as [|k].
        -- by exists 0%nat.
        -- destruct (IH k) as (j & Hj & Hc); [lia|]. exists (S j). split; [done|].
           cbn [take]. rewrite countIn_cons, String.eqb_refl. lia.
      * destruct (IH k) as (j & Hj & Hc); [lia|]. exists (S j). split; [done|].
        cbn [take]. rewrite countIn_cons.
        destruct (String.eqb_spec nm a); [done | lia].
  - intros (j & Hj & <-). pose proof (countIn_take_S nm names j Hj).
    pose proof (countIn_take_le nm names (S j)). lia.
Qed.

(** X8: within one sequence of names two different positions never get the
    same key, whatever the names contain (a name may itself hold "::" and
    digits). *)
Theorem occurrenceKey_unique (names : list string) (i j : nat) (key1 key2 : string) :
  i <> j ->
  occurrenceKey names i = Some key1 ->
  occurrenceKey names j = Some key2 ->
  key1 <> key2.
Proof.
  intros Hij (nm & Hi & ->)%occurrenceKey_Some (nm' & Hj & ->)%occurrenceKey_Some Heq.
  apply keyOf_inj in Heq as [-> Hc].
  destruct (Nat.lt_trichotomy i j) as [Hlt|[->|Hlt]]; [|done|].
  - pose proof (countIn_take_S nm' names i Hi).
    pose proof (countIn_take_mono nm' names (S i) j ltac:(lia)). lia.
  - pose proof (countIn_take_S nm' names j Hj).
    pose proof (countIn_take_mono nm' names (S j) i ltac:(lia)). lia.
Qed.

Lemma occurrenceKey_unique_witness :
  "a::0::0" <> "a::0".
Proof.
  apply (occurrenceKey_unique ["a::0"; "a"; "a"] 0 1 "a::0::0" "a::0");
    [lia | reflexivity | reflexivity].
Defined.

Lemma occurrenceKey_at (names : list string) i nm :
  names !! i = Some nm ->
  occurrenceKey names i = Some (keyOf nm (countIn nm (take i names))).
Proof. intros H. apply occurrenceKey_Some. by exists nm. Qed.

(** X9: a runtime mesh is kept exactly when fewer same-named runtime meshes
    precede it than the model has saved children of that name (names
    compared in lower case, "Mesh" standing for an empty one); otherwise it
    is disposed. *)
Theorem resolveIdentities_kept_iff
    (exported : option (list Node.t)) (node : Node.t) (meshes : list Mesh.t)
    (i : nat) (mesh : Mesh.t) :
  actualMeshesOf meshes !! i = Some mesh ->
  let earlier := countIn (meshName mesh) (take i (meshName <$> actualMeshesOf meshes)) in
  let saved := countIn (meshName mesh) (nodeName <$> childNodesOf exported node) in
  ((exists key m', resolveIdentities exported node meshes !! i = Some (Stamped key m'))
     <-> (earlier < saved)%nat) /\
  ((exists key m', resolveIdentities exported node meshes !! i = Some (Disposed key m'))
     <-> (saved <= earlier)%nat).
Proof.
  intros Hi earlier saved.
  assert (Hkey : occurrenceKey (meshName <$> actualMeshesOf meshes) i
                 = Some (keyOf (meshName mesh) earlier)).
  { apply occurrenceKey_at. by rewrite list_lookup_fmap, Hi. }
  rewrite (resolveIdentities_lookup exported node meshes i mesh _ Hi Hkey).
  unfold resolveMesh.
  destruct (Nat.lt_ge_cases earlier saved) as [Hlt|Hge].
  - pose proof Hlt as (j & Hj & Hc)%occurrence_exists.
    rewrite list_lookup_fmap in Hj.
    destruct (childNodesOf exported node !! j) as [cn|] eqn:Hcn; [|done].
    injection Hj as Hn.
    rewrite (sgIndex_lookup _ j cn (keyOf (meshName mesh) earlier) Hcn).
    + split; split; try done; try lia; eauto.
      intros (? & ? & [=]).
    + apply occurrenceKey_Some. exists (meshName mesh). split.
      * rewrite list_lookup_fmap, Hcn. simpl. by rewrite Hn.
      * by rewrite Hc.
  - rewrite sgIndex_lookup_None.
    + split; split; try done; try lia; eauto.
      intros (? & ? & [=]).
    + intros j (nm & Hj & Heq)%occurrenceKey_Some.
      apply keyOf_inj in Heq as [<- Hc].
      assert (earlier < saved)%nat by (apply occurrence_exists; by exists j). lia.
Qed.

Lemma resolveIdentities_kept_iff_witness :
  ((exists key m', resolveIdentities (Some carGraph) carNode carMeshes !! 1%nat
                   = Some (Stamped key m')) <-> (1 < 2)%nat) /\
  ((exists key m', resolveIdentities (Some carGraph) carNode carMeshes !! 1%nat
                   = Some (Disposed key m')) <-> (2 <= 1)%nat).
Proof.
  apply (resolveIdentities_kept_iff (Some carGraph) carNode carMeshes 1%nat
           (loadedMesh "Wheel" 12)).
  reflexivity.
Defined.

Lemma omap_all_None {A B} (f : A -> option B) (l : list A) :
  (forall a, a ∈ l -> f a = None) -> omap f l = [].
Proof.
  induction l as [|a l IH]; intros H; [done|]. simpl.
  rewrite (H a) by apply list_elem_of_here.
  apply IH. intros b Hb. apply H. by apply list_elem_of_further.
Qed.

Lemma omap_all_Some {A B} (f : A -> option B) (l : list A) :
  (forall a, a ∈ l -> is_Some (f a)) -> length (omap f l) = length l.
Proof.
  induction l as [|a l IH]; intros H; [done|]. simpl.
  destruct (H a) as [b ->]; [apply list_elem_of_here|]. simpl.
  f_equal. apply IH. intros c Hc. apply H. by apply list_elem_of_further.
Qed.

Lemma kept_disposed_length (l : list Resolution) :
  (length (omap keptMesh l) + length (omap disposedMesh l))%nat = length l.
Proof.
  induction l as [|[k m|k m] l IH]; [done| |];
    cbn [omap list_omap keptMesh disposedMesh length]; cbn [length] in IH; lia.
Qed.

(** X10: when the saved children and the runtime meshes carry the same names
    in the same order, mesh [i] is stamped with the token of child [i],
    nothing is disposed, and as many meshes are kept as there are saved
    children. *)
Theorem resolveIdentities_same_names
    (exported : option (list Node.t)) (node : Node.t) (meshes : list Mesh.t) :
  nodeName <$> childNodesOf exported node = meshName <$> actualMeshesOf meshes ->
  (forall i mesh cn,
     actualMeshesOf meshes !! i = Some mesh ->
     childNodesOf exported node !! i = Some cn ->
     exists key,
       resolveIdentities exported node meshes !! i =
         Some (Stamped key
                 (Mesh.setVisibility
                    (Mesh.setStableId (Mesh.ensureMetadata mesh) (tokenOf cn))
                    (opacity (notFalse (Node.visible cn) && notFalse (Node.enabled cn) &&
                              notFalse (Node.visible node) && notFalse (Node.enabled node)))))) /\
  omap disposedMesh (resolveIdentities exported node meshes) = [] /\
  length (omap keptMesh (resolveIdentities exported node meshes))
    = length (childNodesOf exported node).
Proof.
  intros Hnames.
  assert (Hlen : length (childNodesOf exported node) = length (actualMeshesOf meshes)).
  { apply (f_equal length) in Hnames. by rewrite !length_fmap in Hnames. }
  assert (Hstamp : forall i mesh cn,
     actualMeshesOf meshes !! i = Some mesh ->
     childNodesOf exported node !! i = Some cn ->
     exists key,
       resolveIdentities exported node meshes !! i =
         Some (Stamped key
                 (Mesh.setVisibility
                    (Mesh.setStableId (Mesh.ensureMetadata mesh) (tokenOf cn))
                    (opacity (notFalse (Node.visible cn) && notFalse (Node.enabled cn) &&
                              notFalse (Node.visible node) && notFalse (Node.enabled node)))))).
  { intros i mesh cn Hi Hcn.
    set (key := keyOf (meshName mesh)
                  (countIn (meshName mesh) (take i (meshName <$> actualMeshesOf meshes)))).
    assert (Hkey : occurrenceKey (meshName <$> actualMeshesOf meshes) i = Some key)
      by (apply occurrenceKey_at; by rewrite list_lookup_fmap, Hi).
    exists key.
    rewrite (resolveIdentities_lookup exported node meshes i mesh key Hi Hkey).
    unfold resolveMesh. rewrite (sgIndex_lookup _ i cn key Hcn); [done|].
    by rewrite Hnames. }
  assert (Hall : forall r, r ∈ resolveIdentities exported node meshes ->
                           exists key m, r = Stamped key m).
  { intros r (i & Hi)%list_elem_of_lookup.
    assert (Hlt : (i < length (actualMeshesOf meshes))%nat).
    { apply lookup_lt_Some in Hi. unfold resolveIdentities in Hi.
      by rewrite walkMeshes_length in Hi. }
    destruct (lookup_lt_is_Some_2 (actualMeshesOf meshes) i Hlt) as [mesh Hmesh].
    destruct (lookup_lt_is_Some_2 (childNodesOf exported node) i ltac:(lia)) as [cn Hcn].
    destruct (Hstamp i mesh cn Hmesh Hcn) as [key Hr]. rewrite Hr in Hi.
    injection Hi as <-. eauto. }
  split; [exact Hstamp|]. split.
  - apply omap_all_None. intros r (key & m & ->)%Hall. done.
  - rewrite omap_all_Some.
    + unfold resolveIdentities. by rewrite walkMeshes_length.
    + intros r (key & m & ->)%Hall. by eexists.
Qed.

Lemma resolveIdentities_same_names_witness :
  omap disposedMesh
    (resolveIdentities (Some carGraph) carNode [loadedMesh "WHEEL" 11; loadedMesh "wheel" 12])
    = [] /\
  length (omap keptMesh
    (resolveIdentities (Some carGraph) carNode [loadedMesh "WHEEL" 11; loadedMesh "wheel" 12]))
    = length (childNodesOf (Some carGraph) carNode).
Proof.
  apply (resolveIdentities_same_names (Some carGraph) carNode
           [loadedMesh "WHEEL" 11; loadedMesh "wheel" 12]).
  reflexivity.
Defined.

Lemma walkMeshes_elem sgIndex pv pe nameCounts meshes r :
  r ∈ walkMeshes sgIndex pv pe nameCounts meshes ->
  exists m0 key, m0 ∈ meshes /\ r = resolveMesh sgIndex pv pe key (Mesh.ensureMetadata m0).
Proof.
  revert nameCounts. induction meshes as [|m meshes IH]; intros nc; cbn [walkMeshes].
  - by intros ?%elem_of_nil.
  - intros [->|Hr]%elem_of_cons.
    + eexists m, _. split; [apply list_elem_of_here | reflexivity].
    + destruct (IH _ Hr) as (m0 & key & Hm0 & ->).
      exists m0, key. split; [by apply list_elem_of_further | reflexivity].
Qed.

Lemma buildSgIndex_values nameCounts sgIndex childNodes key entry :
  buildSgIndex nameCounts sgIndex childNodes !! key = Some entry ->
  sgIndex !! key = Some entry \/
  exists cn, cn ∈ childNodes /\ entry = mkEntry cn (tokenOf cn).
Proof.
  revert nameCounts sgIndex. induction childNodes as [|c childNodes IH]; intros nc sg H.
  - by left.
  - cbn [buildSgIndex] in H. apply IH in H as [H|(cn & Hcn & ->)].
    + apply lookup_insert_Some in H as [[_ <-]|[_ H]].
      * right. exists c. split; [apply list_elem_of_here | reflexivity].
      * by left.
    + right. exists cn. split; [by apply list_elem_of_further | reflexivity].
Qed.

Lemma elem_of_filter_bool {A} (f : A -> bool) (l : list A) a :
  a ∈ List.filter f l <-> a ∈ l /\ f a = true.
Proof. rewrite !list_elem_of_In. apply filter_In. Qed.

(** X11: every mesh a model load adds to the scene is a real mesh other than
    the loader's root, is parented to the model's transform node, carries as
    stable id the token of a saved child of that model, and has visibility 1
    or 0. *)
Theorem loadModelFromAssets_adds_only_stamped
    (loader : string -> string -> Scene.t -> option (list Mesh.t))
    (exported : option (list Node.t)) (node : Node.t) (scene : Scene.t) (m : Mesh.t) :
  m ∈ Scene.meshes (loadModelFromAssets loader exported node scene) ->
  m ∈ Scene.meshes scene \/
  (Mesh.parent m = Some (Node.id node) /\
   Mesh.isMesh m = true /\
   Mesh.name m <> "__root__" /\
   (exists cn, cn ∈ default [] exported /\
               Node.parentId cn = Some (Node.id node) /\
               Node.kind cn = "mesh" /\
               Mesh.metadata m = Some (Some (tokenOf cn))) /\
   (Mesh.visibility m = 1%float \/ Mesh.visibility m = 0%float)).
Proof.
  unfold loadModelFromAssets.
  destruct (negb _); [by left|].
  destruct (loadContainer _ _ _) as [meshes|]; [|by left].
  destruct (0 <? length meshes)%nat; [|by left].
  cbn [Scene.addMeshes Scene.setMeshes Scene.meshes Scene.log Scene.addDisposed
       Scene.addTransformNode].
  intros [Hm|Hm]%elem_of_app; [by left | right].
  apply list_elem_of_omap in Hm as (r & Hr & Hkept).
  unfold resolveIdentities in Hr.
  apply walkMeshes_elem in Hr as (m0 & key & Hm0 & ->).
  unfold actualMeshesOf in Hm0.
  apply elem_of_filter_bool in Hm0 as [Hm0 Hroot].
  apply elem_of_filter_bool in Hm0 as [Hm0 Hmesh].
  apply list_elem_of_In, in_map_iff in Hm0 as (m1 & <- & _).
  unfold resolveMesh in Hkept.
  destruct (buildSgIndex ∅ ∅ (childNodesOf exported node) !! key) as [entry|] eqn:Hentry;
    [|done].
  injection Hkept as <-.
  apply buildSgIndex_values in Hentry as [Hentry|(cn & Hcn & ->)];
    [by rewrite lookup_empty in Hentry|].
  unfold childNodesOf in Hcn. apply elem_of_filter_bool in Hcn as [Hcn Hcond].
  apply andb_true_iff in Hcond as [Hparent Hkind].
  apply bool_decide_eq_true in Hparent. apply String.eqb_eq in Hkind.
  split; [reflexivity|]. split; [exact Hmesh|]. split.
  - apply negb_true_iff in Hroot. cbn in Hroot |- *.
    intros He. rewrite He in Hroot. discriminate.
  - split; [by exists cn|]. cbn [Mesh.visibility Mesh.setVisibility opacity].
    destruct (_ && _); auto.
Qed.

Lemma loadModelFromAssets_adds_only_stamped_witness :
  stampedWheel 12 "t1" ∈ Scene.meshes Scene.empty \/
  (Mesh.parent (stampedWheel 12 "t1") = Some (Node.id carNode) /\
   Mesh.isMesh (stampedWheel 12 "t1") = true /\
   Mesh.name (stampedWheel 12 "t1") <> "__root__" /\
   (exists cn, cn ∈ default [] (Some carGraph) /\
               Node.parentId cn = Some (Node.id carNode) /\
               Node.kind cn = "mesh" /\
               Mesh.metadata (stampedWheel 12 "t1") = Some (Some (tokenOf cn))) /\
   (Mesh.visibility (stampedWheel 12 "t1") = 1%float \/
    Mesh.visibility (stampedWheel 12 "t1") = 0%float)).
Proof.
  apply (loadModelFromAssets_adds_only_stamped carLoader (Some carGraph) carNode Scene.empty).
  vm_compute. apply list_elem_of_further, list_elem_of_here.
Defined.

Lemma actualMeshesOf_setParent_length p meshes :
  length (actualMeshesOf (map (fun mesh => Mesh.setParent mesh p) meshes))
  = length (actualMeshesOf meshes).
Proof.
  unfold actualMeshesOf. induction meshes as [|m meshes IH]; [done|].
  cbn [map List.filter Mesh.setParent Mesh.isMesh].
  destruct (Mesh.isMesh m); [|exact IH].
  cbn [List.filter Mesh.name]. destruct (negb _); [|exact IH].
  simpl. by rewrite IH.
Qed.

(** X12: a successful model load accounts exactly once for every entry of
    the container that is an instance of BABYLON.Mesh and not the root: the
    number of meshes it adds to the scene plus the number it disposes is the
    number of such entries.  The root and the entries that are no
    BABYLON.Mesh are counted on neither side. *)
Theorem loadModelFromAssets_partitions_meshes
    (loader : string -> string -> Scene.t -> option (list Mesh.t))
    (exported : option (list Node.t)) (node : Node.t) (scene : Scene.t)
    (meshes : list Mesh.t) :
  truthyOptStr (Node.src node) = true ->
  loadContainer loader node scene = Some meshes ->
  meshes <> [] ->
  let scene' := loadModelFromAssets loader exported node scene in
  (length (Scene.meshes scene') + length (Scene.disposedMeshes scene'))%nat =
  (length (Scene.meshes scene) + length (Scene.disposedMeshes scene) +
   length (List.filter
             (fun m => Mesh.isMesh m && negb (String.eqb (Mesh.name m) "__root__"))
             meshes))%nat.
Proof.
  intros Hsrc Hload Hne scene'. subst scene'.
  unfold loadModelFromAssets. rewrite Hsrc, Hload. cbn [negb].
  destruct meshes as [|m0 meshes]; [done|].
  cbn [length Nat.ltb Nat.leb].
  cbn [Scene.addMeshes Scene.setMeshes Scene.meshes Scene.disposedMeshes Scene.log
       Scene.addDisposed Scene.addTransformNode].
  rewrite !length_app.
  pose proof (kept_disposed_length
                (resolveIdentities exported node
                   (map (fun mesh => Mesh.setParent mesh (Node.id node)) (m0 :: meshes)))) as Hk.
  unfold resolveIdentities in Hk at 3. rewrite walkMeshes_length in Hk.
  rewrite actualMeshesOf_setParent_length, actualMeshesOf_runtimeMeshes in Hk.
  unfold runtimeMeshes in Hk. lia.
Qed.

Lemma loadModelFromAssets_partitions_meshes_witness :
  (length (Scene.meshes
             (loadModelFromAssets mixedCarLoader (Some carGraph) carNode Scene.empty)) +
   length (Scene.disposedMeshes
             (loadModelFromAssets mixedCarLoader (Some carGraph) carNode Scene.empty)))%nat =
  (length (Scene.meshes Scene.empty) + length (Scene.disposedMeshes Scene.empty) +
   length (List.filter
             (fun m => Mesh.isMesh m && negb (String.eqb (Mesh.name m) "__root__"))
             mixedCarMeshes))%nat.
Proof.
  apply (loadModelFromAssets_partitions_meshes mixedCarLoader (Some carGraph) carNode
           Scene.empty mixedCarMeshes).
  - reflexivity.
  - reflexivity.
  - discriminate.
Defined.

End IdentityCoverage.

(** ** Child-mesh ids and the lookup of the second pass *)

Module LookupCoverage.
Import Js JsProps JsFacts JsMoreFacts Instantiator IdentityProps Fixtures IdentityFacts.

Lemma occursAt_empty m j : occursAt "" m j -> j = 0%nat.
Proof. intros (pre & post & Heq & <-). by destruct pre. Qed.

Lemma lastIndex_spec s m :
  match lastIndex s m with
  | Some i => occursAt s m i /\ forall j, occursAt s m j -> (j <= i)%nat
  | None => forall j, ~ occursAt s m j
  end.
Proof.
  induction s as [|c s IH].
  - simpl. destruct (startsWith "" m) eqn:Hp.
    + split; [by apply occursAt_0|]. intros j ->%occursAt_empty. lia.
    + intros j Hj. pose proof (occursAt_empty _ _ Hj) as ->.
      apply occursAt_0 in Hj. congruence.
  - cbn [lastIndex]. destruct (lastIndex s m) as [i|].
    + destruct IH as [Hocc Hmax]. split; [by apply occursAt_S|].
      intros [|j] Hj; [lia|]. apply occursAt_S in Hj. apply Hmax in Hj. lia.
    + destruct (startsWith (String c s) m) eqn:Hp.
      * split; [by apply occursAt_0|].
        intros [|j] Hj; [lia|]. apply occursAt_S in Hj. by apply IH in Hj.
      * intros [|j] Hj.
        -- apply occursAt_0 in Hj. congruence.
        -- apply occursAt_S in Hj. by apply IH in Hj.
Qed.

(** Where a character can stand when the tail of the string is free of it. *)
Lemma char_position c (a b t1 t2 : string) :
  a +:+ String c b = t1 +:+ t2 -> hasNo c t2 ->
  (String.length a < String.length t1)%nat.
Proof.
  revert a. induction t1 as [|x t1 IH]; intros a Heq Ht2.
  - rewrite append_nil in Heq. rewrite <- Heq in Ht2.
    apply hasNo_app in Ht2 as [_ Ht2]. apply hasNo_cons in Ht2 as [? _]. done.
  - destruct a as [|y a]; [simpl; lia|].
    rewrite !append_cons in Heq. injection Heq as _ Heq.
    specialize (IH a Heq Ht2). simpl. lia.
Qed.

(** X13: an id built as [<parent>::mesh::<token>] decodes to its token,
    provided the token holds no ":" (so that no later "::mesh::" can end
    inside it), and is recognized as a child-mesh id. *)
Theorem getChildTokenFromId_roundtrip (parent token : string) :
  hasNo ":" token ->
  getChildTokenFromId (parent +:+ MESH_TAG +:+ token) = Some token /\
  includes (parent +:+ MESH_TAG +:+ token) MESH_TAG = true.
Proof.
  intros Htok. set (id := parent +:+ MESH_TAG +:+ token).
  assert (Hocc : occursAt id MESH_TAG (String.length parent)) by (by exists parent, token).
  split.
  - unfold getChildTokenFromId, lastIndexOf.
    pose proof (lastIndex_spec id MESH_TAG) as Hspec.
    destruct (lastIndex id MESH_TAG) as [i|]; [|by destruct (Hspec _ Hocc)].
    destruct Hspec as [(pre & post & Heq & Hlen) Hmax].
    assert (Hi : i = String.length parent).
    { apply Nat.le_antisymm; [|by apply Hmax].
      assert (Hlt : (String.length (pre +:+ "::mesh:") < String.length (parent +:+ MESH_TAG))%nat).
      { apply (char_position ":" _ post _ token); [|done].
        rewrite !app_assoc_str.
        change ("::mesh:" +:+ String ":" post) with (MESH_TAG +:+ post).
        by rewrite <- Heq. }
      rewrite !length_app_str in Hlt. simpl in Hlt. lia. }
    cbn [orMinusOne]. destruct (Z.leb_spec 0 (Z.of_nat i)); [|lia].
    unfold substring. rewrite <- Nat2Z.inj_add, Nat2Z.id, Hi.
    unfold id. by rewrite dropChars_occ.
  - unfold includes. apply bool_decide_eq_true.
    destruct (firstIndex id MESH_TAG) eqn:Hf; [by eexists|].
    by apply firstIndex_None with (i := String.length parent) in Hf.
Qed.

Lemma getChildTokenFromId_roundtrip_witness :
  getChildTokenFromId ("car::mesh::old" +:+ MESH_TAG +:+ "t0") = Some "t0" /\
  includes ("car::mesh::old" +:+ MESH_TAG +:+ "t0") MESH_TAG = true.
Proof.
  apply (getChildTokenFromId_roundtrip "car::mesh::old" "t0"). reflexivity.
Defined.

Lemma findIndex_Some {A} (f : A -> bool) (l : list A) i :
  findIndex f l = Some i ->
  exists a, l !! i = Some a /\ f a = true /\
            forall j b, (j < i)%nat -> l !! j = Some b -> f b = false.
Proof.
  revert i. induction l as [|x l IH]; intros i; [done|]. cbn [findIndex].
  destruct (f x) eqn:Hx.
  - intros [= <-]. exists x. repeat split; [done|]. intros j b Hj. lia.
  - destruct (findIndex f l) as [k|]; [|done]. intros [= <-].
    destruct (IH k eq_refl) as (a & Ha & Hfa & Hmin). exists a. repeat split; [done..|].
    intros [|j] b Hj Hb.
    + by injection Hb as <-.
    + apply (Hmin j b); [lia | done].
Qed.

Lemma findIndex_None {A} (f : A -> bool) (l : list A) :
  findIndex f l = None -> forall a, a ∈ l -> f a = false.
Proof.
  induction l as [|x l IH]; [by intros _ a ?%elem_of_nil|]. cbn [findIndex].
  destruct (f x) eqn:Hx; [done|].
  destruct (findIndex f l); [done|]. intros _ a [->|Ha]%elem_of_cons; auto.
Qed.

(** X14: a token that is the stable id of some mesh of the scene is always
    resolved by the stable-id search alone, and to the first mesh of the
    scene that carries it (tokens are unique within one model only). *)
Theorem findChildMesh_first_stamped (meshes : list Mesh.t) (token : string) (m : Mesh.t) :
  m ∈ meshes ->
  Mesh.hasStableId token m = true ->
  exists i m',
    findChildMesh meshes token = (Some i, [FindByStableId token true]) /\
    meshes !! i = Some m' /\
    Mesh.hasStableId token m' = true /\
    forall j b, (j < i)%nat -> meshes !! j = Some b -> Mesh.hasStableId token b = false.
Proof.
  intros Hm Hst. unfold findChildMesh.
  destruct (findIndex (Mesh.hasStableId token) meshes) as [i|] eqn:Hf.
  - destruct (findIndex_Some _ _ _ Hf) as (m' & Hi & Hm' & Hmin). by exists i, m'.
  - pose proof (findIndex_None _ _ Hf m Hm). congruence.
Qed.

Lemma findChildMesh_first_stamped_witness :
  exists i m',
    findChildMesh [stampedWheel 11 "t0"; stampedWheel 12 "t1"; stampedWheel 21 "t1"] "t1"
      = (Some i, [FindByStableId "t1" true]) /\
    [stampedWheel 11 "t0"; stampedWheel 12 "t1"; stampedWheel 21 "t1"] !! i = Some m' /\
    Mesh.hasStableId "t1" m' = true /\
    forall j b, (j < i)%nat ->
      [stampedWheel 11 "t0"; stampedWheel 12 "t1"; stampedWheel 21 "t1"] !! j = Some b ->
      Mesh.hasStableId "t1" b = false.
Proof.
  apply (findChildMesh_first_stamped _ "t1" (stampedWheel 21 "t1")).
  - apply list_elem_of_further, list_elem_of_further, list_elem_of_here.
  - reflexivity.
Defined.

End LookupCoverage.

(** ** The two passes as a whole *)

Module PassCoverage.
Import Js JsProps JsFacts PathNormalizer Instantiator TraceProps CoverageProps Fixtures.

Lemma filter_filter_implies {A} (f g : A -> bool) (l : list A) :
  (forall a, f a = true -> g a = true) ->
  List.filter f (List.filter g l) = List.filter f l.
Proof.
  intros H. induction l as [|a l IH]; [done|]. simpl.
  destruct (g a) eqn:Hg; simpl.
  - by rewrite IH.
  - destruct (f a) eqn:Hf; [|exact IH]. apply H in Hf. congruence.
Qed.

Lemma filter_filter_disjoint {A} (f g : A -> bool) (l : list A) :
  (forall a, g a = true -> f a = false) ->
  List.filter f (List.filter g l) = [].
Proof.
  intros H. induction l as [|a l IH]; [done|]. simpl.
  destruct (g a) eqn:Hg; simpl; [|exact IH]. by rewrite (H a Hg).
Qed.

Lemma filter_snoc {A} (f : A -> bool) (l : list A) a :
  List.filter f (l ++ [a]) = (List.filter f l ++ if f a then [a] else [])%list.
Proof. rewrite List.filter_app. simpl. by destruct (f a). Qed.

Lemma deferred_is_mesh node : isDeferred node = true -> Node.kind node = "mesh".
Proof.
  unfold isDeferred. intros [[H _]%andb_true_iff _]%andb_true_iff.
  by apply String.eqb_eq.
Qed.

Section WithEngine.

Variable Vector3_length : Vector3.t -> float.
Variable LoadAssetContainerAsync : string -> string -> Scene.t -> option (list Mesh.t).
Variable nextUniqueId : Scene.t -> N.
Variable EXPORTED_SCENE_GRAPH : option (list Node.t).

#[local] Abbreviation loadModel := (loadModelFromAssets LoadAssetContainerAsync EXPORTED_SCENE_GRAPH).
#[local] Abbreviation instNode :=
  (instantiateNode Vector3_length LoadAssetContainerAsync nextUniqueId EXPORTED_SCENE_GRAPH).
#[local] Abbreviation pass1 :=
  (firstPass Vector3_length LoadAssetContainerAsync nextUniqueId EXPORTED_SCENE_GRAPH).
#[local] Abbreviation pass2 :=
  (secondPass Vector3_length LoadAssetContainerAsync nextUniqueId EXPORTED_SCENE_GRAPH).
#[local] Abbreviation instGraph :=
  (instantiateGraph Vector3_length LoadAssetContainerAsync nextUniqueId EXPORTED_SCENE_GRAPH).
#[local] Abbreviation instAll :=
  (foldl (fun s node => instNode node s)).

Lemma instantiateNode_deferred node scene :
  isDeferred node = true ->
  instNode node scene =
  instantiateChildMesh node (Transform.position (Node.transform node))
    (default Vector3.Zero (Transform.rotation (Node.transform node)))
    (default Vector3.One (Transform.scaling (Node.transform node))) scene.
Proof.
  intros Hd. pose proof (deferred_is_mesh node Hd) as Hk.
  unfold isDeferred in Hd. rewrite Hk in Hd. cbn in Hd.
  unfold instantiateNode. rewrite Hk. cbn [String.eqb Ascii.eqb Bool.eqb].
  by rewrite Hd.
Qed.

Lemma meshIdentity_update node mesh p r q s :
  meshIdentity (applyVisibility node (Mesh.setTransform mesh p r q s)) = meshIdentity mesh.
Proof. reflexivity. Qed.

Lemma instantiateChildMesh_frame node position rotation scaling scene :
  meshIdentity <$> Scene.meshes (instantiateChildMesh node position rotation scaling scene)
    = meshIdentity <$> Scene.meshes scene /\
  sceneOthers (instantiateChildMesh node position rotation scaling scene) = sceneOthers scene.
Proof.
  unfold instantiateChildMesh.
  destruct (getChildTokenFromId _) as [token|]; [|done].
  destruct (truthyStr token); [|done].
  destruct (findChildMesh (Scene.meshes scene) token) as [[i|] events]; [|done].
  cbn [Scene.log Scene.meshes].
  destruct (Scene.meshes scene !! i) as [mesh|] eqn:Hi; [|done].
  split; [|reflexivity].
  cbn [Scene.setMeshes Scene.meshes]. rewrite list_fmap_insert.
  apply list_insert_id. rewrite list_lookup_fmap, Hi. simpl. f_equal.
  by destruct (Mesh.rotationQuaternion mesh).
Qed.

Lemma secondPass_frame nodes scene :
  Forall (fun n => isDeferred n = true) nodes ->
  meshIdentity <$> Scene.meshes (pass2 nodes scene) = meshIdentity <$> Scene.meshes scene /\
  sceneOthers (pass2 nodes scene) = sceneOthers scene.
Proof.
  unfold secondPass. intros HF. revert scene.
  induction HF as [|node nodes Hd _ IH]; intros scene; [done|].
  cbn [foldl]. destruct (IH (instNode node scene)) as [-> ->].
  rewrite (instantiateNode_deferred node scene Hd). apply instantiateChildMesh_frame.
Qed.

Lemma firstPass_foldl nodes childMeshNodes scene :
  pass1 nodes childMeshNodes scene =
  (instAll scene (List.filter notDeferred nodes),
   (childMeshNodes ++ List.filter isDeferred nodes)%list).
Proof.
  revert childMeshNodes scene.
  induction nodes as [|node nodes IH]; intros acc scene; cbn [firstPass List.filter].
  - by rewrite app_nil_r.
  - unfold notDeferred at 1. destruct (isDeferred node); cbn [negb].
    + rewrite IH. by rewrite <- app_assoc.
    + by rewrite IH.
Qed.

Lemma instantiateGraph_as_fold (nodes : list Node.t) (scene : Scene.t) :
  instGraph nodes scene =
  instAll scene (List.filter notDeferred nodes ++ List.filter isDeferred nodes).
Proof.
  unfold instantiateGraph. rewrite firstPass_foldl. cbn [app].
  unfold secondPass. by rewrite foldl_app.
Qed.

(** X19: deferring the child meshes is a reordering: the two passes give the
    scene that instantiating the nodes one by one gives on the graph with
    its child-mesh nodes moved to the end, each group in its own order. *)
Theorem instantiateGraph_is_reordered_fold (nodes : list Node.t) (scene : Scene.t) :
  instGraph nodes scene =
  instAll scene (List.filter notDeferred nodes ++ List.filter isDeferred nodes).
Proof.
  unfold instantiateGraph. rewrite firstPass_foldl. cbn [app].
  unfold secondPass. by rewrite foldl_app.
Qed.

(** X15: once the first pass is over, the second pass creates, removes,
    renames or re-stamps nothing: names, handles, stable ids, parents and
    materials of all meshes, and every camera, light, transform node and
    material, are what the first pass left; only transforms and
    visibilities of meshes can differ. *)
Theorem second_pass_keeps_identities (nodes : list Node.t) (scene : Scene.t) :
  meshIdentity <$> Scene.meshes (instGraph nodes scene)
    = meshIdentity <$> Scene.meshes (fst (pass1 nodes [] scene)) /\
  sceneOthers (instGraph nodes scene) = sceneOthers (fst (pass1 nodes [] scene)).
Proof.
  unfold instantiateGraph. rewrite firstPass_foldl. cbn [fst app].
  apply secondPass_frame. apply Forall_forall. intros n Hn.
  by apply list_elem_of_In, filter_In in Hn as [_ Hn].
Qed.

Lemma loadModelFromAssets_others node scene :
  Scene.cameras (loadModel node scene) = Scene.cameras scene /\
  Scene.lights (loadModel node scene) = Scene.lights scene /\
  Scene.activeCamera (loadModel node scene) = Scene.activeCamera scene.
Proof.
  unfold loadModelFromAssets. destruct (negb _); [done|].
  destruct (loadContainer _ _ _) as [meshes|]; [|done].
  by destruct (0 <? length meshes)%nat.
Qed.

Lemma buildCamera_id node position rotation :
  Camera.id (buildCamera Vector3_length node position rotation) = Node.id node.
Proof. unfold buildCamera, Camera.id. cbn [Camera.camera]. by destruct (bool_decide _). Qed.

Lemma instantiateNode_activeCamera node scene :
  Scene.activeCamera (instNode node scene) =
  if isActiveCamera node then Some (Node.id node)
  else if hasKind "camera" node then
    match Scene.activeCamera scene with
    | Some active => Some active
    | None => Some (Node.id node)
    end
  else Scene.activeCamera scene.
Proof.
  unfold instantiateNode, isActiveCamera, hasKind.
  destruct (String.eqb (Node.kind node) "camera") eqn:Hc; cbn [andb].
  { unfold instantiateCamera. destruct (default false _); [done|].
    cbn [Scene.addCamera Scene.activeCamera]. by rewrite buildCamera_id. }
  destruct (String.eqb (Node.kind node) "light"); [done|].
  destruct (String.eqb (Node.kind node) "mesh").
  { destruct (_ && _).
    - pose proof (instantiateChildMesh_frame node (Transform.position (Node.transform node))
                    (default Vector3.Zero (Transform.rotation (Node.transform node)))
                    (default Vector3.One (Transform.scaling (Node.transform node))) scene)
        as [_ H].
      unfold sceneOthers in H. by injection H.
    - destruct (String.eqb (Node.id node) "defaultCube"); [done|].
      by destruct (String.eqb (Node.id node) "ground"). }
  destruct (String.eqb (Node.kind node) "model"); [|done].
  destruct (truthyOptStr _); [|done]. apply loadModelFromAssets_others.
Qed.

Lemma instAll_activeCamera nodes scene :
  Scene.activeCamera (instAll scene nodes) =
  match last (List.filter isActiveCamera nodes) with
  | Some node => Some (Node.id node)
  | None =>
      match Scene.activeCamera scene with
      | Some active => Some active
      | None => Node.id <$> head (List.filter (hasKind "camera") nodes)
      end
  end.
Proof.
  induction nodes as [|node nodes IH] using rev_ind.
  { cbn. by destruct (Scene.activeCamera scene). }
  rewrite foldl_app. cbn [foldl]. rewrite instantiateNode_activeCamera, IH, !filter_snoc.
  destruct (isActiveCamera node).
  { by rewrite last_snoc. }
  rewrite app_nil_r.
  destruct (last (List.filter isActiveCamera nodes)) as [n|].
  { by destruct (hasKind "camera" node). }
  destruct (Scene.activeCamera scene) as [active|].
  { by destruct (hasKind "camera" node). }
  destruct (hasKind "camera" node); [|by rewrite app_nil_r].
  by destruct (List.filter (hasKind "camera") nodes).
Qed.

Lemma activeCamera_not_deferred node : isActiveCamera node = true -> notDeferred node = true.
Proof.
  unfold isActiveCamera, notDeferred, isDeferred.
  intros [Hk _]%andb_true_iff. apply String.eqb_eq in Hk. by rewrite Hk.
Qed.

Lemma filter_active_passes nodes :
  List.filter isActiveCamera (List.filter notDeferred nodes ++ List.filter isDeferred nodes)
  = List.filter isActiveCamera nodes.
Proof.
  rewrite List.filter_app.
  rewrite (filter_filter_implies isActiveCamera notDeferred nodes activeCamera_not_deferred).
  rewrite (filter_filter_disjoint isActiveCamera isDeferred nodes), app_nil_r; [done|].
  intros n Hn. destruct (isActiveCamera n) eqn:Ha; [|done].
  apply activeCamera_not_deferred in Ha. unfold notDeferred in Ha. by rewrite Hn in Ha.
Qed.

Lemma instantiateNode_cameras node scene :
  cameraInfo <$> Scene.cameras (instNode node scene) =
  ((cameraInfo <$> Scene.cameras scene) ++
   if hasKind "camera" node then [nodeInfo node] else [])%list.
Proof.
  unfold instantiateNode, hasKind.
  destruct (String.eqb (Node.kind node) "camera") eqn:Hc.
  { unfold instantiateCamera.
    assert (Hinfo : cameraInfo (buildCamera Vector3_length node
                      (Transform.position (Node.transform node))
                      (default Vector3.Zero (Transform.rotation (Node.transform node))))
                    = nodeInfo node).
    { unfold buildCamera, cameraInfo, nodeInfo, cameraId. cbn [Camera.camera Camera.enabled].
      by destruct (bool_decide _). }
    destruct (default false _); cbn [Scene.activate Scene.addCamera Scene.cameras];
      by rewrite fmap_app, <- Hinfo. }
  rewrite app_nil_r.
  destruct (String.eqb (Node.kind node) "light"); [done|].
  destruct (String.eqb (Node.kind node) "mesh").
  { destruct (_ && _).
    - pose proof (instantiateChildMesh_frame node (Transform.position (Node.transform node))
                    (default Vector3.Zero (Transform.rotation (Node.transform node)))
                    (default Vector3.One (Transform.scaling (Node.transform node))) scene)
        as [_ H].
      unfold sceneOthers in H. injection H as -> _ _ _ _ _ _. done.
    - destruct (String.eqb (Node.id node) "defaultCube"); [done|].
      by destruct (String.eqb (Node.id node) "ground"). }
  destruct (String.eqb (Node.kind node) "model"); [|done].
  destruct (truthyOptStr _); [|done].
  by destruct (loadModelFromAssets_others node scene) as (-> & _ & _).
Qed.

Lemma instantiateNode_lights node scene :
  lightInfo <$> Scene.lights (instNode node scene) =
  ((lightInfo <$> Scene.lights scene) ++
   if hasKind "light" node && negb (hasKind "camera" node) then [nodeInfo node] else [])%list.
Proof.
  unfold instantiateNode, hasKind.
  destruct (String.eqb (Node.kind node) "camera") eqn:Hc.
  { rewrite andb_false_r, app_nil_r. unfold instantiateCamera.
    by destruct (default false _). }
  rewrite andb_true_r.
  destruct (String.eqb (Node.kind node) "light").
  { unfold instantiateLight. cbn [Scene.addLight Scene.lights]. by rewrite fmap_app. }
  rewrite app_nil_r.
  destruct (String.eqb (Node.kind node) "mesh").
  { destruct (_ && _).
    - pose proof (instantiateChildMesh_frame node (Transform.position (Node.transform node))
                    (default Vector3.Zero (Transform.rotation (Node.transform node)))
                    (default Vector3.One (Transform.scaling (Node.transform node))) scene)
        as [_ H].
      unfold sceneOthers in H. injection H as _ -> _ _ _ _ _. done.
    - destruct (String.eqb (Node.id node) "defaultCube"); [done|].
      by destruct (String.eqb (Node.id node) "ground"). }
  destruct (String.eqb (Node.kind node) "model"); [|done].
  destruct (truthyOptStr _); [|done].
  by destruct (loadModelFromAssets_others node scene) as (_ & -> & _).
Qed.

Lemma hasKind_light_not_camera node :
  hasKind "light" node && negb (hasKind "camera" node) = hasKind "light" node.
Proof.
  unfold hasKind. destruct (String.eqb_spec (Node.kind node) "light") as [->|]; done.
Qed.

Lemma instAll_cameras_lights nodes scene :
  cameraInfo <$> Scene.cameras (instAll scene nodes) =
    ((cameraInfo <$> Scene.cameras scene) ++
     (nodeInfo <$> List.filter (hasKind "camera") nodes))%list /\
  lightInfo <$> Scene.lights (instAll scene nodes) =
    ((lightInfo <$> Scene.lights scene) ++
     (nodeInfo <$> List.filter (hasKind "light") nodes))%list.
Proof.
  induction nodes as [|node nodes [IHc IHl]] using rev_ind.
  - cbn [foldl List.filter fmap list_fmap]. by rewrite !app_nil_r.
  - rewrite foldl_app. cbn [foldl].
    rewrite instantiateNode_cameras, instantiateNode_lights, IHc, IHl.
    rewrite hasKind_light_not_camera, !filter_snoc, !fmap_app, <- !app_assoc.
    split; f_equal; f_equal.
    + by destruct (hasKind "camera" node).
    + by destruct (hasKind "light" node).
Qed.

Lemma not_deferred_unless_mesh kind node :
  kind <> "mesh" -> hasKind kind node = true -> notDeferred node = true.
Proof.
  unfold hasKind, notDeferred, isDeferred. intros Hk ->%String.eqb_eq.
  destruct (String.eqb_spec kind "mesh"); done.
Qed.

Lemma filter_passes kind nodes :
  kind <> "mesh" ->
  List.filter (hasKind kind) (List.filter notDeferred nodes ++ List.filter isDeferred nodes)
  = List.filter (hasKind kind) nodes.
Proof.
  intros Hk. rewrite List.filter_app.
  rewrite (filter_filter_implies (hasKind kind) notDeferred nodes
             (fun n => not_deferred_unless_mesh kind n Hk)).
  rewrite (filter_filter_disjoint (hasKind kind) isDeferred nodes), app_nil_r; [done|].
  intros n Hn. destruct (hasKind kind n) eqn:Ha; [|done].
  apply (not_deferred_unless_mesh kind n Hk) in Ha. unfold notDeferred in Ha.
  by rewrite Hn in Ha.
Qed.

(** X17: instantiating a graph adds exactly one camera per camera node and
    one light per light node, after those already in the scene and in graph
    order, each carrying its node's id and enabled exactly when the node's
    [enabled] is not [false]; nodes of other kinds add neither. *)
Theorem instantiateGraph_cameras_and_lights (nodes : list Node.t) (scene : Scene.t) :
  cameraInfo <$> Scene.cameras (instGraph nodes scene) =
    ((cameraInfo <$> Scene.cameras scene) ++
     (nodeInfo <$> List.filter (hasKind "camera") nodes))%list /\
  lightInfo <$> Scene.lights (instGraph nodes scene) =
    ((lightInfo <$> Scene.lights scene) ++
     (nodeInfo <$> List.filter (hasKind "light") nodes))%list.
Proof.
  rewrite instantiateGraph_as_fold.
  destruct (instAll_cameras_lights
              (List.filter notDeferred nodes ++ List.filter isDeferred nodes) scene)
    as [-> ->].
  by rewrite !filter_passes.
Qed.

(** X16: after the graph is instantiated the active camera is the last
    camera node of the graph marked active; with no such node it is the
    camera the scene had before, and when the scene had none, the first
    camera node of the graph, which the engine makes active when it is
    built; with no camera node either, the scene has no active camera. *)
Theorem instantiateGraph_last_active_camera_wins (nodes : list Node.t) (scene : Scene.t) :
  Scene.activeCamera (instGraph nodes scene) =
  match last (List.filter isActiveCamera nodes) with
  | Some node => Some (Node.id node)
  | None =>
      match Scene.activeCamera scene with
      | Some active => Some active
      | None => Node.id <$> head (List.filter (hasKind "camera") nodes)
      end
  end.
Proof.
  rewrite instantiateGraph_as_fold, instAll_activeCamera.
  rewrite filter_active_passes, filter_passes; [done|]. discriminate.
Qed.

Lemma instantiateNode_controls node scene :
  Scene.attachedControls (instNode node scene) =
  (Scene.attachedControls scene ++ if isActiveCamera node then [Node.id node] else [])%list.
Proof.
  unfold instantiateNode, isActiveCamera.
  destruct (String.eqb (Node.kind node) "camera") eqn:Hc; cbn [andb].
  { unfold instantiateCamera. destruct (default false _); [done|]. cbn. by rewrite app_nil_r. }
  rewrite app_nil_r.
  destruct (String.eqb (Node.kind node) "light"); [done|].
  destruct (String.eqb (Node.kind node) "mesh").
  { destruct (_ && _).
    - pose proof (instantiateChildMesh_frame node (Transform.position (Node.transform node))
                    (default Vector3.Zero (Transform.rotation (Node.transform node)))
                    (default Vector3.One (Transform.scaling (Node.transform node))) scene)
        as [_ H].
      unfold sceneOthers in H. injection H as _ _ _ _ _ -> _. done.
    - destruct (String.eqb (Node.id node) "defaultCube"); [done|].
      by destruct (String.eqb (Node.id node) "ground"). }
  destruct (String.eqb (Node.kind node) "model"); [|done].
  destruct (truthyOptStr _); [|done].
  unfold loadModelFromAssets. destruct (negb _); [done|].
  destruct (loadContainer _ _ _) as [meshes|]; [|done].
  by destruct (0 <? length meshes)%nat.
Qed.

(** X20: camera controls are attached once for every camera node marked
    active, in graph order, not only for the one that ends up active: the
    controls attached after the graph are those attached before followed by
    the ids of all active camera nodes. *)
Theorem instantiateGraph_attaches_controls_of_every_active_camera
    (nodes : list Node.t) (scene : Scene.t) :
  Scene.attachedControls (instGraph nodes scene) =
  (Scene.attachedControls scene ++ (Node.id <$> List.filter isActiveCamera nodes))%list.
Proof.
  rewrite instantiateGraph_as_fold.
  transitivity (Scene.attachedControls scene ++
                (Node.id <$> List.filter isActiveCamera
                   (List.filter notDeferred nodes ++ List.filter isDeferred nodes)))%list.
  { generalize (List.filter notDeferred nodes ++ List.filter isDeferred nodes)%list.
    intros l. induction l as [|node l IH] using rev_ind.
    - cbn. by rewrite app_nil_r.
    - rewrite foldl_app. cbn [foldl]. rewrite instantiateNode_controls, IH.
      rewrite filter_snoc, fmap_app, <- app_assoc. f_equal. f_equal.
      by destruct (isActiveCamera node). }
  f_equal. f_equal. rewrite List.filter_app.
  rewrite (filter_filter_implies isActiveCamera notDeferred nodes
             (activeCamera_not_deferred)).
  rewrite (filter_filter_disjoint isActiveCamera isDeferred nodes), app_nil_r; [done|].
  intros n Hn. destruct (isActiveCamera n) eqn:Ha; [|done].
  apply activeCamera_not_deferred in Ha. unfold notDeferred in Ha. by rewrite Hn in Ha.
Qed.

(** X18: a model whose container cannot be loaded (the loader rejects) or
    comes back with no mesh leaves the scene exactly as it was: no parent
    transform node is created, nothing is stamped or disposed. *)
Theorem instantiateNode_model_load_failure (node : Node.t) (scene : Scene.t) :
  Node.kind node = "model" ->
  loadContainer LoadAssetContainerAsync node scene = None \/
  loadContainer LoadAssetContainerAsync node scene = Some [] ->
  instNode node scene = scene.
Proof.
  intros Hk Hload. unfold instantiateNode. rewrite Hk.
  cbn [String.eqb Ascii.eqb Bool.eqb].
  destruct (truthyOptStr _); [|done].
  unfold loadModelFromAssets. destruct (negb _); [done|].
  by destruct Hload as [-> | ->].
Qed.

End WithEngine.

Lemma instantiateNode_model_load_failure_witness :
  instantiateNode euclideanLength carLoader countMeshes (Some carGraph) boatNode Scene.empty
  = Scene.empty.
Proof.
  apply (instantiateNode_model_load_failure euclideanLength carLoader countMeshes
           (Some carGraph) boatNode Scene.empty); [reflexivity | left; reflexivity].
Defined.

End PassCoverage.

(** ** Image processing settings *)

Module ImageProcessingCoverage.
Import Json ImageProcessing.

Lemma orElse_truthy v d : truthy (Some d) = true -> truthy (Some (orElse v d)) = true.
Proof.
  intros Hd. unfold orElse. destruct v as [x|]; [|exact Hd].
  destruct (truthy (Some x)) eqn:Hx; [exact Hx | exact Hd].
Qed.

Lemma orElse_keeps v x : v = Some x -> truthy v = true -> orElse v (JNum 1) = x.
Proof. intros -> H. unfold orElse. by rewrite H. Qed.

(** X21: the image-processing block never writes a falsy contrast or
    exposure: a saved value that is 0, NaN, null, false, empty or missing is
    replaced by 1, and a truthy one is written as it is. The same holds for
    the vignette weight and field of view whenever the vignette is
    enabled. *)
Theorem applyImageProcessing_never_falsy (ip : Ip.t) (ipc : Ipc.t) :
  let out := fst (applyImageProcessing ip ipc) in
  truthy (Some (Ipc.contrast out)) = true /\
  truthy (Some (Ipc.exposure out)) = true /\
  (truthy (Ip.contrast ip) = false -> Ipc.contrast out = JNum 1) /\
  (truthy (Ip.exposure ip) = false -> Ipc.exposure out = JNum 1) /\
  (forall x, Ip.contrast ip = Some x -> truthy (Some x) = true -> Ipc.contrast out = x) /\
  (forall x, Ip.exposure ip = Some x -> truthy (Some x) = true -> Ipc.exposure out = x) /\
  (truthy (Ip.vignetteEnabled ip) = true ->
   truthy (Some (Ipc.vignetteWeight out)) = true /\
   truthy (Some (Ipc.vignetteCameraFov out)) = true).
Proof.
  assert (Hout : forall out, out = fst (applyImageProcessing ip ipc) ->
            Ipc.contrast out = orElse (Ip.contrast ip) (JNum 1) /\
            Ipc.exposure out = orElse (Ip.exposure ip) (JNum 1) /\
            (truthy (Ip.vignetteEnabled ip) = true ->
             Ipc.vignetteWeight out = orElse (Ip.vignetteWeight ip) (JNum 1) /\
             Ipc.vignetteCameraFov out = orElse (Ip.vignetteFov ip) (JNum lit_1_5))).
  { intros out ->. unfold applyImageProcessing.
    destruct (truthy (Ip.vignetteEnabled ip)); cbn [andb].
    - destruct (truthy (Ip.vignetteColor ip)); [|done].
      by destruct (iterate _).
    - done. }
  intros out. destruct (Hout out eq_refl) as (Hc & He & Hv). clearbody out.
  rewrite Hc, He.
  split; [by apply orElse_truthy|]. split; [by apply orElse_truthy|].
  split. { intros H. unfold orElse. destruct (Ip.contrast ip); [by rewrite H | done]. }
  split. { intros H. unfold orElse. destruct (Ip.exposure ip); [by rewrite H | done]. }
  split. { intros x Hx Ht. apply orElse_keeps; [done | by rewrite Hx]. }
  split. { intros x Hx Ht. apply orElse_keeps; [done | by rewrite Hx]. }
  intros Hen. destruct (Hv Hen) as [-> ->].
  split; by apply orElse_truthy.
Qed.

(** X22: applying the same image-processing settings a second time changes
    nothing: the configuration after two applications is the one after one,
    and the second application throws exactly when the first did. *)
Theorem applyImageProcessing_idempotent (ip : Ip.t) (ipc : Ipc.t) :
  applyImageProcessing ip (fst (applyImageProcessing ip ipc)) = applyImageProcessing ip ipc.
Proof.
  unfold applyImageProcessing.
  destruct (truthy (Ip.vignetteEnabled ip)); cbn [andb].
  - destruct (truthy (Ip.vignetteColor ip)).
    + destruct (iterate _); [|done]. cbn [fst Ipc.ditheringIntensity].
      by destruct (Ipc.ditheringIntensity ipc).
    + cbn [fst Ipc.ditheringIntensity Ipc.vignetteColor].
      by destruct (Ipc.ditheringIntensity ipc).
  - cbn [fst Ipc.ditheringIntensity Ipc.vignetteColor Ipc.vignetteWeight
         Ipc.vignetteStretch Ipc.vignetteCameraFov].
    by destruct (Ipc.ditheringIntensity ipc).
Qed.

(** X23: the tone mapping written is ACES exactly for the saved strings
    "aces" and "neutral" (the latter as a fallback), and STANDARD for every
    other value and for a missing one. *)
Theorem applyImageProcessing_tone_mapping (ip : Ip.t) (ipc : Ipc.t) :
  Ipc.toneMappingType (fst (applyImageProcessing ip ipc)) = TONEMAPPING_ACES <->
  Ip.toneMappingType ip = Some (JStr "aces") \/ Ip.toneMappingType ip = Some (JStr "neutral").
Proof.
  assert (Ipc.toneMappingType (fst (applyImageProcessing ip ipc))
          = toneMappingOf (Ip.toneMappingType ip)) as ->.
  { unfold applyImageProcessing.
    destruct (truthy (Ip.vignetteEnabled ip)); cbn [andb]; [|done].
    destruct (truthy (Ip.vignetteColor ip)); [|done]. by destruct (iterate _). }
  unfold toneMappingOf. split.
  - destruct (Ip.toneMappingType ip) as [[| | |s|]|]; try done.
    destruct (String.eqb_spec s "aces") as [->|_]; [by left|].
    destruct (String.eqb_spec s "neutral") as [->|_]; [by right | done].
  - by intros [-> | ->].
Qed.

(** X24: the block throws exactly when the vignette is enabled and its
    saved colour is truthy but cannot be destructured (neither an array nor
    a string); in that case contrast, exposure, the tone mapping flag and
    type, the vignette flag and the vignette weight, stretch and field of
    view have already been written, and the vignette colour and the
    dithering settings are left as they were. *)
Theorem applyImageProcessing_throws_iff (ip : Ip.t) (ipc : Ipc.t) :
  let out := applyImageProcessing ip ipc in
  (snd out = true <->
   truthy (Ip.vignetteEnabled ip) = true /\ truthy (Ip.vignetteColor ip) = true /\
   iterate (default JNull (Ip.vignetteColor ip)) = None) /\
  (snd out = true ->
   Ipc.contrast (fst out) = orElse (Ip.contrast ip) (JNum 1) /\
   Ipc.exposure (fst out) = orElse (Ip.exposure ip) (JNum 1) /\
   Ipc.toneMappingEnabled (fst out) = truthy (Ip.toneMappingEnabled ip) /\
   Ipc.toneMappingType (fst out) = toneMappingOf (Ip.toneMappingType ip) /\
   Ipc.vignetteEnabled (fst out) = true /\
   Ipc.vignetteWeight (fst out) = orElse (Ip.vignetteWeight ip) (JNum 1) /\
   Ipc.vignetteStretch (fst out) = orElse (Ip.vignetteStretch ip) (JNum 0) /\
   Ipc.vignetteCameraFov (fst out) = orElse (Ip.vignetteFov ip) (JNum lit_1_5) /\
   Ipc.vignetteColor (fst out) = Ipc.vignetteColor ipc /\
   Ipc.ditheringEnabled (fst out) = Ipc.ditheringEnabled ipc /\
   Ipc.ditheringIntensity (fst out) = Ipc.ditheringIntensity ipc).
Proof.
  unfold applyImageProcessing.
  destruct (truthy (Ip.vignetteEnabled ip)) eqn:Hen; cbn [andb].
  - destruct (truthy (Ip.vignetteColor ip)) eqn:Hcol.
    + destruct (iterate _) eqn:Hit; cbn [fst snd].
      * split; [|done]. split; [done|]. by intros (_ & _ & ?).
      * done.
    + cbn [fst snd]. split; [|done]. split; [done|]. by intros (_ & ? & _).
  - cbn [fst snd]. split; [|done]. split; [done|]. by intros (? & _).
Qed.

End ImageProcessingCoverage.
